(** * Incremental object clustering: a model of [object_update_functor.cpp]

    The development follows the translation unit
    [src/hydra_llm/src/object_update_functor.cpp]:

    - [IdTracker]: the pool of reusable component identifiers;
    - [OverlapIntersection]: the bounding-box connectivity predicate;
    - [getMergedAttributes] and [getBestParent]: the two free helper
      functions used when a cluster is turned into an object node;
    - [ObjectUpdateFunctor]: the per-cycle update, as explicit state passing
      over the functor's mutable members and the scene graph.

    Conventions.  [size_t] and [NodeId] are 64-bit unsigned integers, carried
    as [Z] with the wrap-around written out where the code increments.
    [float] and [double] scalars are idealised as rationals ([Q]); every
    vector operation is written component by component.  A failed [CHECK],
    an empty [std::optional] accessed with [value()] or a failed attribute cast
    is the [Fatal] outcome of the error monad. *)

From Stdlib Require Import ZArith QArith Qminmax Qround List Bool Lia Lqa Sorting.Sorted.
Import ListNotations.

#[local] Open Scope Z_scope.

(** ** Machine integers *)

Abbreviation size_t := Z (only parsing).
Abbreviation NodeId := Z (only parsing).

Definition SIZE_MODULUS : Z := 2 ^ 64.

(** [++x] on a [size_t]. *)
Definition size_succ (x : size_t) : size_t := (x + 1) mod SIZE_MODULUS.

(** ** The identifier pool *)

Module IdTracker.

(** [idx_] is the counter, [unused_] the [std::list] of freed ids: pushed at
    the back, popped at the front. *)
Record t : Type := mk { idx_ : size_t; unused_ : list size_t }.

(** [IdTracker::IdTracker(size_t start)] *)
Definition make (start : size_t) : t := mk start [].

(** [IdTracker::next] *)
Definition next (s : t) : size_t * t :=
  match unused_ s with
  | [] => (idx_ s, mk (size_succ (idx_ s)) [])
  | new_id :: rest => (new_id, mk (idx_ s) rest)
  end.

(** [IdTracker::markFree] *)
Definition markFree (idx : size_t) (s : t) : t :=
  if idx <? idx_ s then mk (idx_ s) (unused_ s ++ [idx]) else s.

(** [n] successive calls of [next]; the ids are listed in call order. *)
Fixpoint next_n (n : nat) (s : t) : list size_t * t :=
  match n with
  | O => ([], s)
  | S k => let (i, s1) := next s in
           let (l, s2) := next_n k s1 in (i :: l, s2)
  end.

(** Successive calls of [markFree], in list order. *)
Definition markFree_all (ids : list size_t) (s : t) : t :=
  fold_left (fun acc i => markFree i acc) ids s.

(** A client of the pool: a sequence of calls. *)
Inductive op : Type := Next | MarkFree (id : size_t).

(** What a call sequence hands out: each id with [true] when it was taken
    from the counter and [false] when it was taken from the free list. *)
Fixpoint run (ops : list op) (s : t) : list (size_t * bool) * t :=
  match ops with
  | [] => ([], s)
  | Next :: r =>
      let from_counter := match unused_ s with [] => true | _ => false end in
      let (i, s1) := next s in
      let (l, s2) := run r s1 in ((i, from_counter) :: l, s2)
  | MarkFree i :: r => run r (markFree i s)
  end.

(** Every freed id lies below the counter. *)
Definition wf (s : t) : Prop :=
  0 <= idx_ s /\ Forall (fun i => i < idx_ s) (unused_ s).

(** The statement of C10 as it is worded: two releases of an id below the
    counter make the next two calls of [next] return that id. *)
Definition double_release_claim : Prop :=
  forall s id, 0 <= id < idx_ s ->
    fst (next_n 2 (markFree id (markFree id s))) = [id; id].

End IdTracker.

(** ** Vectors, bounding boxes and attributes *)

(** [Eigen::Vector3f] and [Eigen::Vector3d]. *)
Definition Vector3 : Type := (Q * Q * Q)%type.

Definition v3_map2 (f : Q -> Q -> Q) (a b : Vector3) : Vector3 :=
  let '(ax, ay, az) := a in
  let '(bx, by_, bz) := b in (f ax bx, f ay by_, f az bz).

Definition v3_all2 (p : Q -> Q -> bool) (a b : Vector3) : bool :=
  let '(ax, ay, az) := a in
  let '(bx, by_, bz) := b in p ax bx && p ay by_ && p az bz.

Definition v3_add : Vector3 -> Vector3 -> Vector3 := v3_map2 Qplus.
Definition v3_sub : Vector3 -> Vector3 -> Vector3 := v3_map2 Qminus.
Definition v3_min : Vector3 -> Vector3 -> Vector3 := v3_map2 Qmin.

(** [v /= n] for a count [n]. *)
Definition v3_div (a : Vector3) (n : nat) : Vector3 :=
  let '(ax, ay, az) := a in
  let d := inject_Z (Z.of_nat n) in ((ax / d)%Q, (ay / d)%Q, (az / d)%Q).

(** [(a <= b).all()] *)
Definition v3_le (a b : Vector3) : bool := v3_all2 Qle_bool a b.

Record BoundingBox : Type := { box_min : Vector3; box_max : Vector3 }.

(** A feature matrix, row by row: one row per feature dimension, one column
    per sample. *)
Definition Matrix : Type := list (list Q).

Definition q_sum (r : list Q) : Q := fold_left Qplus r 0%Q.

(** [m.rowwise().mean()]: a column, as a matrix of one-entry rows. *)
Definition rowwise_mean (m : Matrix) : Matrix :=
  map (fun r => [(q_sum r / inject_Z (Z.of_nat (length r)))%Q]) m.

(** Entry-wise combination of two matrices of the same shape (the source
    requires equal shapes; extra rows or entries are dropped here). *)
Fixpoint zip_with {A : Type} (f : A -> A -> A) (a b : list A) : list A :=
  match a, b with
  | x :: a', y :: b' => f x y :: zip_with f a' b'
  | _, _ => []
  end.

Definition m_add (a b : Matrix) : Matrix := zip_with (zip_with Qplus) a b.

Definition m_div (a : Matrix) (n : nat) : Matrix :=
  map (map (fun x => (x / inject_Z (Z.of_nat n))%Q)) a.

(** The fields of [KhronosObjectAttributes] this unit never reads
    (observation stamps, mesh, ...), kept as an opaque payload. *)
Definition Auxiliary : Type := list Z.

(** [KhronosObjectAttributes], with the members it inherits from
    [NodeAttributes] ([position], [is_active]) and [SemanticNodeAttributes]
    ([semantic_feature]). *)
Record KhronosObjectAttributes : Type := {
  position : Vector3;
  is_active : bool;
  semantic_feature : Matrix;
  bounding_box : BoundingBox;
  auxiliary : Auxiliary
}.

(** ** The connectivity predicate *)

Module OverlapIntersection.

Record Config : Type := { tolerance : Q }.

(** [OverlapIntersection::call].  The four rows of [combined] are
    [lhs.min], [rhs.min], [lhs.max], [rhs.max]; the column-wise minimum is
    subtracted from every row before rows 0 and 3, and rows 2 and 1, are
    compared.  The member [config] is not read. *)
Definition call (config : Config) (lhs rhs : KhronosObjectAttributes) : bool :=
  let bbox_lhs := bounding_box lhs in
  let bbox_rhs := bounding_box rhs in
  let row0 := box_min bbox_lhs in
  let row1 := box_min bbox_rhs in
  let row2 := box_max bbox_lhs in
  let row3 := box_max bbox_rhs in
  let min := v3_min (v3_min row0 row1) (v3_min row2 row3) in
  let row0 := v3_sub row0 min in
  let row1 := v3_sub row1 min in
  let row2 := v3_sub row2 min in
  let row3 := v3_sub row3 min in
  v3_le row0 row3 && v3_le row1 row2.

End OverlapIntersection.

(** ** Fatal outcomes *)

Inductive result (A : Type) : Type :=
| Ok (a : A)
| Fatal.

Arguments Ok {A} a.
Arguments Fatal {A}.

Definition bind {A B : Type} (r : result A) (k : A -> result B) : result B :=
  match r with
  | Ok a => k a
  | Fatal => Fatal
  end.

Notation "x <- e ;; k" := (bind e (fun x => k))
  (at level 61, e at next level, right associativity).
Notation "' p <- e ;; k" := (bind e (fun p => k))
  (at level 61, p pattern, e at next level, right associativity).

(** [opt.value()], [CHECK_NOTNULL(ptr)] *)
Definition require {A : Type} (o : option A) : result A :=
  match o with
  | Some a => Ok a
  | None => Fatal
  end.

(** A range-based [for] whose body may abort. *)
Fixpoint for_each {A S : Type} (body : S -> A -> result S) (l : list A) (s : S)
  : result S :=
  match l with
  | [] => Ok s
  | x :: r => s' <- body s x ;; for_each body r s'
  end.

(** ** Ordered containers keyed by integers *)

(** [std::set<K>]: the elements in ascending order. *)
Definition set_count (x : Z) (s : list Z) : bool := existsb (Z.eqb x) s.

Fixpoint set_insert (x : Z) (s : list Z) : list Z :=
  match s with
  | [] => [x]
  | y :: r => if x <? y then x :: s
              else if x =? y then s
              else y :: set_insert x r
  end.

Definition set_erase (x : Z) (s : list Z) : list Z :=
  filter (fun y => negb (y =? x)) s.

(** [std::map<K, V>]: the entries in ascending key order. *)
Definition map_find {V : Type} (k : Z) (m : list (Z * V)) : option V :=
  option_map snd (find (fun e => fst e =? k) m).

Definition map_count {V : Type} (k : Z) (m : list (Z * V)) : bool :=
  existsb (fun e => fst e =? k) m.

Definition map_erase {V : Type} (k : Z) (m : list (Z * V)) : list (Z * V) :=
  filter (fun e => negb (fst e =? k)) m.

(** [m.emplace(k, v)]: nothing happens when the key is present. *)
Fixpoint map_emplace {V : Type} (k : Z) (v : V) (m : list (Z * V)) : list (Z * V) :=
  match m with
  | [] => [(k, v)]
  | e :: r => if k <? fst e then (k, v) :: m
              else if k =? fst e then m
              else e :: map_emplace k v r
  end.

(** [m[k] = v] *)
Definition map_assign {V : Type} (k : Z) (v : V) (m : list (Z * V)) : list (Z * V) :=
  map_emplace k v (map_erase k m).

(** ** The scene graph

    The graph store is an external collaborator; this is the part of its
    interface the unit calls.  Nodes are listed in iteration order and carry
    their layer, their attributes and their parent; [graph_edges] are the
    edges between nodes of one layer. *)

Inductive LayerId : Type := SEGMENTS | OBJECTS | PLACES.

Definition layer_eqb (a b : LayerId) : bool :=
  match a, b with
  | SEGMENTS, SEGMENTS | OBJECTS, OBJECTS | PLACES, PLACES => true
  | _, _ => false
  end.

(** Segments lie below objects, objects below places: the parent of an edge
    between two layers is its endpoint in the higher one. *)
Definition layer_rank (l : LayerId) : Z :=
  match l with
  | SEGMENTS => 1
  | OBJECTS => 2
  | PLACES => 3
  end.

(** The dynamic type of a node's attributes: [KhronosObjectAttributes], or
    attributes with the base members only (places). *)
Inductive NodeAttributes : Type :=
| KhronosAttributes (a : KhronosObjectAttributes)
| PlaceAttributes (place_position : Vector3) (place_is_active : bool).

(** [node.attributes().position] *)
Definition attributes_position (a : NodeAttributes) : Vector3 :=
  match a with
  | KhronosAttributes k => position k
  | PlaceAttributes p _ => p
  end.

(** [node.attributes().is_active] *)
Definition attributes_is_active (a : NodeAttributes) : bool :=
  match a with
  | KhronosAttributes k => is_active k
  | PlaceAttributes _ b => b
  end.

(** [node.attributes<KhronosObjectAttributes>()] and the checked
    [dynamic_cast] of [getMergedAttributes]. *)
Definition as_khronos (a : NodeAttributes) : result KhronosObjectAttributes :=
  match a with
  | KhronosAttributes k => Ok k
  | PlaceAttributes _ _ => Fatal
  end.

Record SceneGraphNode : Type := {
  node_id : NodeId;
  node_layer : LayerId;
  node_attributes : NodeAttributes;
  node_parent : option NodeId
}.

Record DynamicSceneGraph : Type := {
  graph_nodes : list SceneGraphNode;
  graph_edges : list (NodeId * NodeId)
}.

(** [graph.getNode(id)] *)
Definition getNode (graph : DynamicSceneGraph) (id : NodeId) : option SceneGraphNode :=
  find (fun n => node_id n =? id) (graph_nodes graph).

(** [graph.hasNode(id)] *)
Definition hasNode (graph : DynamicSceneGraph) (id : NodeId) : bool :=
  existsb (fun n => node_id n =? id) (graph_nodes graph).

(** [graph.getLayer(layer).nodes()] *)
Definition getLayer (layer : LayerId) (graph : DynamicSceneGraph) : list SceneGraphNode :=
  filter (fun n => layer_eqb (node_layer n) layer) (graph_nodes graph).

(** [layer.getNode(id)] *)
Definition getLayerNode (layer : LayerId) (graph : DynamicSceneGraph) (id : NodeId)
  : option SceneGraphNode :=
  find (fun n => node_id n =? id) (getLayer layer graph).

Definition has_edge (graph : DynamicSceneGraph) (a b : NodeId) : bool :=
  existsb (fun e => ((fst e =? a) && (snd e =? b)) || ((fst e =? b) && (snd e =? a)))
          (graph_edges graph).

Definition set_parent (child parent : NodeId) (n : SceneGraphNode) : SceneGraphNode :=
  if node_id n =? child
  then {| node_id := node_id n; node_layer := node_layer n;
          node_attributes := node_attributes n; node_parent := Some parent |}
  else n.

(** [graph.insertEdge(source, target)].  Both endpoints must exist and
    differ.  Inside one layer the edge is recorded unless it is there
    already; between two layers the endpoint in the lower layer becomes the
    child of the other one, unless it has a parent already. *)
Definition insertEdge (source target : NodeId) (graph : DynamicSceneGraph)
  : DynamicSceneGraph :=
  match getNode graph source, getNode graph target with
  | Some s, Some t =>
      if source =? target then graph
      else if layer_eqb (node_layer s) (node_layer t) then
        if has_edge graph source target then graph
        else {| graph_nodes := graph_nodes graph;
                graph_edges := graph_edges graph ++ [(source, target)] |}
      else
        let (child, parent) :=
          if layer_rank (node_layer s) <? layer_rank (node_layer t)
          then (s, t) else (t, s) in
        match node_parent child with
        | Some _ => graph
        | None =>
            {| graph_nodes := map (set_parent (node_id child) (node_id parent))
                                  (graph_nodes graph);
               graph_edges := graph_edges graph |}
        end
  | _, _ => graph
  end.

Definition drop_parent (removed : NodeId) (n : SceneGraphNode) : SceneGraphNode :=
  match node_parent n with
  | Some p => if p =? removed
              then {| node_id := node_id n; node_layer := node_layer n;
                      node_attributes := node_attributes n; node_parent := None |}
              else n
  | None => n
  end.

(** [graph.removeNode(id)]: the node goes, with its edges. *)
Definition removeNode (id : NodeId) (graph : DynamicSceneGraph) : DynamicSceneGraph :=
  {| graph_nodes :=
       map (drop_parent id)
           (filter (fun n => negb (node_id n =? id)) (graph_nodes graph));
     graph_edges :=
       filter (fun e => negb (fst e =? id) && negb (snd e =? id)) (graph_edges graph) |}.

(** [graph.emplaceNode(layer, id, attrs)]: refused when the id is taken. *)
Definition emplaceNode (layer : LayerId) (id : NodeId) (attrs : NodeAttributes)
  (graph : DynamicSceneGraph) : DynamicSceneGraph :=
  if hasNode graph id then graph
  else {| graph_nodes := graph_nodes graph ++
                         [{| node_id := id; node_layer := layer;
                             node_attributes := attrs; node_parent := None |}];
          graph_edges := graph_edges graph |}.

Definition clear_is_active (a : NodeAttributes) : NodeAttributes :=
  match a with
  | KhronosAttributes k =>
      KhronosAttributes {| position := position k; is_active := false;
                           semantic_feature := semantic_feature k;
                           bounding_box := bounding_box k;
                           auxiliary := auxiliary k |}
  | PlaceAttributes p _ => PlaceAttributes p false
  end.

(** [attrs.is_active = false] through the reference into the node [id]. *)
Definition deactivate (id : NodeId) (graph : DynamicSceneGraph) : DynamicSceneGraph :=
  {| graph_nodes :=
       map (fun n => if node_id n =? id
                     then {| node_id := node_id n; node_layer := node_layer n;
                             node_attributes := clear_is_active (node_attributes n);
                             node_parent := node_parent n |}
                     else n)
           (graph_nodes graph);
     graph_edges := graph_edges graph |}.

(** A graph is a map from ids to nodes: no id is listed twice. *)
Fixpoint distinct (l : list Z) : bool :=
  match l with
  | [] => true
  | x :: r => negb (set_count x r) && distinct r
  end.

Definition graph_wf (graph : DynamicSceneGraph) : bool :=
  distinct (map node_id (graph_nodes graph)).

(** ** The nearest-anchor query

    [NearestNodeFinder::find(position, 1, false, callback)] calls back once
    with the nearest of the nodes the finder was built from, if there is one.
    The distance handed to the callback is the squared Euclidean distance. *)

Definition squared_distance (a b : Vector3) : Q :=
  let '(dx, dy, dz) := v3_sub a b in (dx * dx + dy * dy + dz * dz)%Q.

Fixpoint nearest_node (nodes : list SceneGraphNode) (query : Vector3)
  : option (NodeId * Q) :=
  match nodes with
  | [] => None
  | n :: r =>
      let d := squared_distance (attributes_position (node_attributes n)) query in
      match nearest_node r query with
      | Some (i, d') => if Qle_bool d d' then Some (node_id n, d) else Some (i, d')
      | None => Some (node_id n, d)
      end
  end.

(** ** Merging the attributes of a cluster *)

(** [khronos::mergeObjectAttributes(from, into)] is an external rule.
    Modelled from the spec: it merges the auxiliary members of [into] (here
    the bounding box and the payload) and leaves position and feature to the
    caller; the rule itself is a parameter. *)
Definition MergeRule : Type :=
  KhronosObjectAttributes -> KhronosObjectAttributes -> BoundingBox * Auxiliary.

Definition apply_merge (rule : MergeRule) (from into : KhronosObjectAttributes)
  : KhronosObjectAttributes :=
  let (box, aux) := rule from into in
  {| position := position into; is_active := is_active into;
     semantic_feature := semantic_feature into;
     bounding_box := box; auxiliary := aux |}.

(** The body of the [while] loop of [getMergedAttributes].  The source reads
    the optional that [getNode] returns without a check, so a missing node
    leaves the behaviour of the program undefined; [Fatal] stands for it
    here, and nothing is stated about such a run except that it is no
    return. *)
Definition merge_step (rule : MergeRule) (graph : DynamicSceneGraph)
  (attrs : KhronosObjectAttributes) (id : NodeId) : result KhronosObjectAttributes :=
  other <- require (getNode graph id) ;;
  other_attrs <- as_khronos (node_attributes other) ;;
  let attrs :=
    {| position := v3_add (position attrs) (position other_attrs);
       is_active := is_active attrs;
       semantic_feature :=
         m_add (semantic_feature attrs) (rowwise_mean (semantic_feature other_attrs));
       bounding_box := bounding_box attrs; auxiliary := auxiliary attrs |} in
  Ok (apply_merge rule other_attrs attrs).

(** [getMergedAttributes]; [None] is the null pointer. *)
Definition getMergedAttributes (rule : MergeRule) (graph : DynamicSceneGraph)
  (nodes : list NodeId) : result (option KhronosObjectAttributes) :=
  match nodes with
  | [] => Ok None
  | first :: rest =>
      node <- require (getNode graph first) ;;
      attrs <- as_khronos (node_attributes node) ;;
      let attrs :=
        {| position := position attrs; is_active := is_active attrs;
           semantic_feature := rowwise_mean (semantic_feature attrs);
           bounding_box := bounding_box attrs; auxiliary := auxiliary attrs |} in
      attrs <- for_each (merge_step rule graph) rest attrs ;;
      Ok (Some {| position := v3_div (position attrs) (length nodes);
                  is_active := is_active attrs;
                  semantic_feature := m_div (semantic_feature attrs) (length nodes);
                  bounding_box := bounding_box attrs;
                  auxiliary := auxiliary attrs |})
  end.

(** ** Choosing the parent of a new object *)

(** The body of the [for] loop of [getBestParent], on the pair of vectors
    [(active, archived)]. *)
Definition parent_step (graph : DynamicSceneGraph)
  (acc : list NodeId * list NodeId) (id : NodeId)
  : result (list NodeId * list NodeId) :=
  node <- require (getNode graph id) ;;
  match node_parent node with
  | None => Ok acc
  | Some parent =>
      parent_node <- require (getNode graph parent) ;;
      if attributes_is_active (node_attributes parent_node)
      then Ok (fst acc ++ [parent], snd acc)
      else Ok (fst acc, snd acc ++ [parent])
  end.

(** [getBestParent]: the parent and whether it is active. *)
Definition getBestParent (graph : DynamicSceneGraph) (nodes : list NodeId)
  : result (option (NodeId * bool)) :=
  '(active, archived) <- for_each (parent_step graph) nodes ([], []) ;;
  match archived with
  | p :: _ => Ok (Some (p, false))
  | [] => match active with
          | p :: _ => Ok (Some (p, true))
          | [] => Ok None
          end
  end.

(** The parents of the members that have one, in member order, each with
    its stability ([true] for a stable parent, one that is not active). *)
Fixpoint member_parents (graph : DynamicSceneGraph) (nodes : list NodeId)
  : result (list (NodeId * bool)) :=
  match nodes with
  | [] => Ok []
  | id :: rest =>
      node <- require (getNode graph id) ;;
      match node_parent node with
      | None => member_parents graph rest
      | Some parent =>
          parent_node <- require (getNode graph parent) ;;
          others <- member_parents graph rest ;;
          Ok ((parent, negb (attributes_is_active (node_attributes parent_node)))
                :: others)
      end
  end.

(** The preference of the specification: the first stable parent if there is
    one, otherwise the first volatile one, otherwise none.  The flag of the
    answer tells whether the chosen parent is active (volatile). *)
Definition preferred_parent (parents : list (NodeId * bool)) : option (NodeId * bool) :=
  match find (fun p => snd p) parents with
  | Some p => Some (fst p, false)
  | None => match find (fun p => negb (snd p)) parents with
            | Some p => Some (fst p, true)
            | None => None
            end
  end.

(** ** Connected components of the segment layer

    [graph_utilities::getConnectedComponents(layer, node_filter, edge_filter)]
    is a library routine: a breadth-first search from every node that passes
    the node filter and was not reached before, along the edges that pass the
    edge filter.  One set of visited nodes is shared by all searches. *)

Section ConnectedComponents.

Variable node_filter : NodeId -> bool.
Variable edge_filter : NodeId * NodeId -> result bool.
Variable edges : list (NodeId * NodeId).

(** The nodes across an accepted edge from [n]. *)
Fixpoint siblings (n : NodeId) (es : list (NodeId * NodeId)) : result (list NodeId) :=
  match es with
  | [] => Ok []
  | e :: r =>
      if (fst e =? n) || (snd e =? n) then
        ok <- edge_filter e ;;
        others <- siblings n r ;;
        Ok (if ok then (if fst e =? n then snd e else fst e) :: others else others)
      else siblings n r
  end.

(** Queue the siblings that are new. *)
Definition enqueue (acc : list NodeId * list NodeId) (m : NodeId)
  : list NodeId * list NodeId :=
  let (frontier, visited) := acc in
  if node_filter m && negb (set_count m visited)
  then (frontier ++ [m], m :: visited)
  else acc.

Fixpoint breadthFirstSearch (fuel : nat) (frontier visited component : list NodeId)
  : result (list NodeId * list NodeId) :=
  match fuel with
  | O => Ok (visited, component)
  | S fuel' =>
      match frontier with
      | [] => Ok (visited, component)
      | n :: rest =>
          found <- siblings n edges ;;
          let (frontier', visited') := fold_left enqueue found (rest, visited) in
          breadthFirstSearch fuel' frontier' visited' (component ++ [n])
      end
  end.

Fixpoint components_from (fuel : nat) (nodes : list NodeId) (visited : list NodeId)
  : result (list (list NodeId)) :=
  match nodes with
  | [] => Ok []
  | n :: rest =>
      if set_count n visited || negb (node_filter n)
      then components_from fuel rest visited
      else
        '(visited', component) <- breadthFirstSearch fuel [n] (n :: visited) [] ;;
        others <- components_from fuel rest visited' ;;
        Ok (component :: others)
  end.

End ConnectedComponents.

(** Every queued node is the start of a search or the end of an edge, and is
    queued once: this many steps exhaust any search. *)
Definition search_fuel (edges : list (NodeId * NodeId)) : nat :=
  S (2 * length edges).

Definition getConnectedComponents (layer : list SceneGraphNode)
  (edges : list (NodeId * NodeId))
  (node_filter : NodeId -> bool) (edge_filter : NodeId * NodeId -> result bool)
  : result (list (list NodeId)) :=
  components_from node_filter edge_filter edges (search_fuel edges)
                  (map node_id layer) [].

(** ** The update functor *)

(** [NodeSymbol]: a one-byte key above a 56-bit index. *)
Record NodeSymbol : Type := { symbol_key : Z; symbol_index : Z }.

Definition INDEX_MODULUS : Z := 2 ^ 56.

(** [operator NodeId()] *)
Definition symbol_id (s : NodeSymbol) : NodeId :=
  symbol_key s * INDEX_MODULUS + symbol_index s mod INDEX_MODULUS.

(** [operator++]: the index moves on, the key stays. *)
Definition symbol_succ (s : NodeSymbol) : NodeSymbol :=
  {| symbol_key := symbol_key s;
     symbol_index := (symbol_index s + 1) mod INDEX_MODULUS |}.

(** The key an id carries. *)
Definition key_of (id : NodeId) : Z := id / INDEX_MODULUS.

(** [ComponentInfo]: the segments, the objects made from them and the
    clusters of the workspace. *)
Record ComponentInfo : Type := {
  segments : list NodeId;
  objects : list NodeId;
  clusters : list (list NodeId)
}.

(** The collaborators the functor is configured with: the task set with its
    metric (the score of [tasks_->getBestScore]), the mutual
    information of the whole segment layer (lines 238-243), the agglomerative
    clustering run by the constructor of [ComponentInfo] and read back with
    [ws.getClusters()], and the attribute merge rule. *)
Record Collaborators : Type := {
  getBestScore : Matrix -> Q;
  mutualInformation : list SceneGraphNode -> Q;
  clusterAgglomerative : list SceneGraphNode -> list NodeId -> Q -> list (list NodeId);
  mergeObjectAttributes : MergeRule
}.

(** [ObjectUpdateFunctor::Config], without the members that only build the
    collaborators. *)
Record Config : Type := {
  prefix : Z;
  edge_checker : OverlapIntersection.Config;
  min_segment_score : Q;
  min_object_score : Q;
  neighbor_max_distance : Q
}.

(** What one cycle does, in the order it does it: the graph mutations and
    component changes together with the log lines of the source. *)
Inductive Event : Type :=
| AnchorAttached (object place : NodeId)
| DistanceWarning (object place : NodeId) (distance : Q)
| SegmentSkipped (segment : NodeId) (score : Q)
| SegmentEdge (source target : NodeId)
| ComponentRetired (component : size_t)
| GroupsDiscovered (groups : list (list NodeId))
| ComponentClustered (component : size_t) (found : list (list NodeId))
| EmptyCluster
| ObjectSkipped (score : Q)
| ObjectMaterialized (object : NodeId)
| ObjectWithoutParent (object : NodeId).

(** The mutable members of the functor, and the journal of events. *)
Record State : Type := {
  components_ids_ : IdTracker.t;
  components_ : list (size_t * ComponentInfo);
  node_to_component_ : list (NodeId * size_t);
  ignored_ : list NodeId;
  active_ : list NodeId;
  next_node_id_ : NodeSymbol;
  journal : list Event
}.

(** [ObjectUpdateFunctor::ObjectUpdateFunctor] *)
Definition initial_state (config : Config) : State :=
  {| components_ids_ := IdTracker.make 0;
     components_ := [];
     node_to_component_ := [];
     ignored_ := [];
     active_ := [];
     next_node_id_ := {| symbol_key := prefix config; symbol_index := 0 |};
     journal := [] |}.

Definition with_components_ids_ (v : IdTracker.t) (st : State) : State :=
  {| components_ids_ := v; components_ := components_ st;
     node_to_component_ := node_to_component_ st; ignored_ := ignored_ st;
     active_ := active_ st; next_node_id_ := next_node_id_ st;
     journal := journal st |}.

Definition with_components_ (v : list (size_t * ComponentInfo)) (st : State) : State :=
  {| components_ids_ := components_ids_ st; components_ := v;
     node_to_component_ := node_to_component_ st; ignored_ := ignored_ st;
     active_ := active_ st; next_node_id_ := next_node_id_ st;
     journal := journal st |}.

Definition with_node_to_component_ (v : list (NodeId * size_t)) (st : State) : State :=
  {| components_ids_ := components_ids_ st; components_ := components_ st;
     node_to_component_ := v; ignored_ := ignored_ st;
     active_ := active_ st; next_node_id_ := next_node_id_ st;
     journal := journal st |}.

Definition with_ignored_ (v : list NodeId) (st : State) : State :=
  {| components_ids_ := components_ids_ st; components_ := components_ st;
     node_to_component_ := node_to_component_ st; ignored_ := v;
     active_ := active_ st; next_node_id_ := next_node_id_ st;
     journal := journal st |}.

Definition with_active_ (v : list NodeId) (st : State) : State :=
  {| components_ids_ := components_ids_ st; components_ := components_ st;
     node_to_component_ := node_to_component_ st; ignored_ := ignored_ st;
     active_ := v; next_node_id_ := next_node_id_ st;
     journal := journal st |}.

Definition with_next_node_id_ (v : NodeSymbol) (st : State) : State :=
  {| components_ids_ := components_ids_ st; components_ := components_ st;
     node_to_component_ := node_to_component_ st; ignored_ := ignored_ st;
     active_ := active_ st; next_node_id_ := v;
     journal := journal st |}.

(** Append an event to the journal. *)
Definition record (e : Event) (st : State) : State :=
  {| components_ids_ := components_ids_ st; components_ := components_ st;
     node_to_component_ := node_to_component_ st; ignored_ := ignored_ st;
     active_ := active_ st; next_node_id_ := next_node_id_ st;
     journal := journal st ++ [e] |}.

(** [isNodeActive], which reads the node's id only. *)
Definition isNodeActive (id : NodeId) (node_to_component : list (NodeId * size_t))
  (invalid : list NodeId) : bool :=
  negb (map_count id node_to_component) && negb (set_count id invalid).

Definition Qlt_bool (a b : Q) : bool := negb (Qle_bool b a).

Section Functor.

Variable ext : Collaborators.
Variable config : Config.

(** *** [updateActiveParents] *)

(** One turn of the [while] loop over [active_], for the element [id]. *)
Definition attach_step (places : list SceneGraphNode)
  (acc : DynamicSceneGraph * State) (id : NodeId)
  : result (DynamicSceneGraph * State) :=
  let (graph, st) := acc in
  node <- require (getNode graph id) ;;
  match node_parent node with
  | Some parent_id =>
      parent <- require (getLayerNode PLACES graph parent_id) ;;
      if attributes_is_active (node_attributes parent)
      then Ok (graph, st)
      else Ok (graph, with_active_ (set_erase id (active_ st)) st)
  | None =>
      match nearest_node places (attributes_position (node_attributes node)) with
      | Some (place_id, distance) =>
          let st :=
            if Qlt_bool 0 (neighbor_max_distance config)
               && Qle_bool (neighbor_max_distance config) distance
            then record (DistanceWarning id place_id distance) st
            else st in
          let graph := insertEdge place_id id graph in
          let st := record (AnchorAttached id place_id) st in
          Ok (graph, with_active_ (set_erase id (active_ st)) st)
      | None => Ok (graph, st)
      end
  end.

Definition updateActiveParents (graph : DynamicSceneGraph) (st : State)
  : result (DynamicSceneGraph * State) :=
  let places := getLayer PLACES graph in
  let st :=
    with_active_ (fold_left (fun s n => set_insert (node_id n) s)
                            (getLayer OBJECTS graph) (active_ st)) st in
  for_each (attach_step places) (active_ st) (graph, st).

(** *** [addSegmentEdges] *)

(** One turn of the inner loop: the new segment [id] against [other]. *)
Definition edge_step (id : NodeId) (attrs : KhronosObjectAttributes)
  (acc : DynamicSceneGraph * State * list size_t) (other : SceneGraphNode)
  : result (DynamicSceneGraph * State * list size_t) :=
  let '(graph, st, active_components) := acc in
  if node_id other =? id then Ok acc
  else
    other_attrs <- as_khronos (node_attributes other) ;;
    if OverlapIntersection.call (edge_checker config) attrs other_attrs then
      let graph := insertEdge id (node_id other) graph in
      let st := record (SegmentEdge id (node_id other)) st in
      match map_find (node_id other) (node_to_component_ st) with
      | Some component => Ok (graph, st, set_insert component active_components)
      | None => Ok (graph, st, active_components)
      end
    else Ok acc.

(** One turn of the outer loop.  The loops run over the nodes of the segment
    layer as they were on entry: the body changes no bounding box or feature
    and adds no node. *)
Definition segment_step (layer : list SceneGraphNode)
  (acc : DynamicSceneGraph * State * list size_t) (node : SceneGraphNode)
  : result (DynamicSceneGraph * State * list size_t) :=
  let '(graph, st, active_components) := acc in
  attrs <- as_khronos (node_attributes node) ;;
  if set_count (node_id node) (ignored_ st) then Ok acc
  else if map_count (node_id node) (node_to_component_ st) then Ok acc
  else
    let feature := rowwise_mean (semantic_feature attrs) in
    let score := getBestScore ext feature in
    if Qlt_bool score (min_segment_score config) then
      let st := record (SegmentSkipped (node_id node) score) st in
      let st := with_ignored_ (set_insert (node_id node) (ignored_ st)) st in
      Ok (deactivate (node_id node) graph, st, active_components)
    else for_each (edge_step (node_id node) attrs) layer acc.

Definition addSegmentEdges (graph : DynamicSceneGraph) (st : State)
  : result (DynamicSceneGraph * State * list size_t) :=
  let layer := getLayer SEGMENTS graph in
  for_each (segment_step layer) layer (graph, st, []).

(** *** [clearActiveComponents] *)

Definition remove_object (acc : DynamicSceneGraph * State) (object : NodeId)
  : DynamicSceneGraph * State :=
  let (graph, st) := acc in
  (removeNode object graph, with_active_ (set_erase object (active_ st)) st).

(** The body of the loop for a component that is in [active]. *)
Definition retire (acc : DynamicSceneGraph * State) (entry : size_t * ComponentInfo)
  : DynamicSceneGraph * State :=
  let (graph, st) := acc in
  let (component, info) := entry in
  let st :=
    with_node_to_component_
      (fold_left (fun m s => map_erase s m) (segments info) (node_to_component_ st))
      st in
  let (graph, st) := fold_left remove_object (objects info) (graph, st) in
  let st :=
    with_components_ids_ (IdTracker.markFree component (components_ids_ st)) st in
  let st := with_components_ (map_erase component (components_ st)) st in
  (graph, record (ComponentRetired component) st).

Definition clear_step (active : list size_t) (acc : DynamicSceneGraph * State)
  (entry : size_t * ComponentInfo) : DynamicSceneGraph * State :=
  if set_count (fst entry) active then retire acc entry else acc.

Definition clearActiveComponents (graph : DynamicSceneGraph) (active : list size_t)
  (st : State) : DynamicSceneGraph * State :=
  fold_left (clear_step active) (components_ st) (graph, st).

(** *** [detectObjects] *)

(** The edges of the segment layer. *)
Definition segment_edges (graph : DynamicSceneGraph) : list (NodeId * NodeId) :=
  let is_segment id :=
    match getLayerNode SEGMENTS graph id with Some _ => true | None => false end in
  filter (fun e => is_segment (fst e) && is_segment (snd e)) (graph_edges graph).

(** The second lambda handed to [getConnectedComponents]. *)
Definition edge_is_active (graph : DynamicSceneGraph) (st : State)
  (edge : NodeId * NodeId) : result bool :=
  source <- require (getLayerNode SEGMENTS graph (fst edge)) ;;
  target <- require (getLayerNode SEGMENTS graph (snd edge)) ;;
  let source_active :=
    isNodeActive (node_id source) (node_to_component_ st) (ignored_ st) in
  let target_active :=
    isNodeActive (node_id target) (node_to_component_ st) (ignored_ st) in
  Ok (source_active && target_active).

(** The body of the loop over the clusters of a new component; [made] is
    [new_component->objects]. *)
Definition materialize (acc : DynamicSceneGraph * State * list NodeId)
  (cluster : list NodeId) : result (DynamicSceneGraph * State * list NodeId) :=
  let '(graph, st, made) := acc in
  attrs <- getMergedAttributes (mergeObjectAttributes ext) graph cluster ;;
  match attrs with
  | None => Ok (graph, record EmptyCluster st, made)
  | Some attrs =>
      let score := getBestScore ext (semantic_feature attrs) in
      if Qlt_bool score (min_object_score config) then
        Ok (graph, record (ObjectSkipped score) st, made)
      else
        let id := symbol_id (next_node_id_ st) in
        let graph := emplaceNode OBJECTS id (KhronosAttributes attrs) graph in
        let st := record (ObjectMaterialized id) st in
        let made := made ++ [id] in
        parent <- getBestParent graph cluster ;;
        let (graph, st) :=
          match parent with
          | None =>
              (graph,
               with_active_ (set_insert id (active_ st))
                            (record (ObjectWithoutParent id) st))
          | Some (parent_id, parent_active) =>
              (insertEdge id parent_id graph,
               if parent_active
               then with_active_ (set_insert id (active_ st)) st
               else st)
          end in
        Ok (graph, with_next_node_id_ (symbol_succ (next_node_id_ st)) st, made)
  end.

(** The body of the loop over the new connected groups. *)
Definition component_step (layer : list SceneGraphNode) (I_xy_all : Q)
  (acc : DynamicSceneGraph * State) (nodes : list NodeId)
  : result (DynamicSceneGraph * State) :=
  let (graph, st) := acc in
  let (new_id, ids) := IdTracker.next (components_ids_ st) in
  let st := with_components_ids_ ids st in
  let found := clusterAgglomerative ext layer nodes I_xy_all in
  let st := record (ComponentClustered new_id found) st in
  let st :=
    with_node_to_component_
      (fold_left (fun m n => map_assign n new_id m) nodes (node_to_component_ st))
      st in
  '(graph, st, made) <- for_each materialize found (graph, st, []) ;;
  let new_component := {| segments := nodes; objects := made; clusters := found |} in
  Ok (graph, with_components_ (map_emplace new_id new_component (components_ st)) st).

Definition detectObjects (graph : DynamicSceneGraph) (st : State)
  : result (DynamicSceneGraph * State) :=
  let layer := getLayer SEGMENTS graph in
  let I_xy_all := mutualInformation ext layer in
  new_components <-
    getConnectedComponents layer (segment_edges graph)
      (fun id => isNodeActive id (node_to_component_ st) (ignored_ st))
      (edge_is_active graph st) ;;
  let st := record (GroupsDiscovered new_components) st in
  for_each (component_step layer I_xy_all) new_components (graph, st).

(** *** [call]: one cycle.  The returned merge map is always empty and is
    left out. *)
Definition call (graph : DynamicSceneGraph) (st : State)
  : result (DynamicSceneGraph * State) :=
  '(graph, st) <- updateActiveParents graph st ;;
  '(graph, st, active_components) <- addSegmentEdges graph st ;;
  let (graph, st) := clearActiveComponents graph active_components st in
  detectObjects graph st.

End Functor.

(** ** Runs of the functor *)

(** The states the functor can be in: the state after construction, and the
    state after a cycle on any graph the caller hands in. *)
Inductive reachable (ext : Collaborators) (config : Config) : State -> Prop :=
| reachable_initial : reachable ext config (initial_state config)
| reachable_call graph st graph' st' :
    reachable ext config st ->
    call ext config graph st = Ok (graph', st') ->
    reachable ext config st'.

(** ** A worked scenario

    Two cycles.  The first graph holds a relevant segment, an irrelevant one
    and a stable place far away.  Before the second cycle a new relevant
    segment arrives whose box overlaps the irrelevant one. *)

Module Scenario.

(** The score of a feature is its first entry; every group is one cluster;
    the merge rule keeps the box and concatenates the payloads. *)
Definition ext : Collaborators :=
  {| getBestScore := fun m => match m with (x :: _) :: _ => x | _ => 0%Q end;
     mutualInformation := fun _ => 0%Q;
     clusterAgglomerative := fun _ nodes _ => [nodes];
     mergeObjectAttributes :=
       fun from into => (bounding_box into, auxiliary into ++ auxiliary from) |}.

Definition config : Config :=
  {| prefix := 79;
     edge_checker := {| OverlapIntersection.tolerance := 0 |};
     min_segment_score := 1 # 2;
     min_object_score := 1 # 2;
     neighbor_max_distance := 1 |}.

Definition segment (id : NodeId) (lo hi score : Q) : SceneGraphNode :=
  {| node_id := id; node_layer := SEGMENTS;
     node_attributes :=
       KhronosAttributes
         {| position := (lo, lo, lo); is_active := true;
            semantic_feature := [[score; score]];
            bounding_box := {| box_min := (lo, lo, lo); box_max := (hi, hi, hi) |};
            auxiliary := [id] |};
     node_parent := None |}.

Definition place (id : NodeId) (at_ : Q) (active : bool) : SceneGraphNode :=
  {| node_id := id; node_layer := PLACES;
     node_attributes := PlaceAttributes (at_, at_, at_) active;
     node_parent := None |}.

Definition graph1 : DynamicSceneGraph :=
  {| graph_nodes := [segment 1 0 1 1; segment 3 5 6 0; place 100 10 false];
     graph_edges := [] |}.

(** The graph and the state after the first cycle. *)
Definition after1 : DynamicSceneGraph * State :=
  Eval vm_compute in
    match call ext config graph1 (initial_state config) with
    | Ok r => r
    | Fatal => (graph1, initial_state config)
    end.

(** The new segment arrives. *)
Definition graph2 : DynamicSceneGraph :=
  {| graph_nodes := graph_nodes (fst after1) ++ [segment 4 (11 # 2) 7 1];
     graph_edges := graph_edges (fst after1) |}.

(** The graph and the state after the second cycle. *)
Definition after2 : DynamicSceneGraph * State :=
  Eval vm_compute in
    match call ext config graph2 (snd after1) with
    | Ok r => r
    | Fatal => (graph2, snd after1)
    end.

(** The two objects the scenario creates. *)
Definition object1 : NodeId := 79 * INDEX_MODULUS.
Definition object2 : NodeId := 79 * INDEX_MODULUS + 1.

(** The first object as the second cycle finds it: without a parent. *)
Definition object1_node : SceneGraphNode :=
  Eval vm_compute in
    match getNode graph2 object1 with
    | Some n => n
    | None => segment 0 0 0 0
    end.

(** Three segments whose parents are an active place, an archived place
    and another archived place. *)
Definition child (id parent : NodeId) : SceneGraphNode :=
  {| node_id := id; node_layer := SEGMENTS;
     node_attributes := node_attributes (segment id 0 1 1);
     node_parent := Some parent |}.

Definition family : DynamicSceneGraph :=
  {| graph_nodes := [child 11 201; child 12 202; child 13 203;
                     place 201 0 true; place 202 1 false; place 203 2 false];
     graph_edges := [] |}.

End Scenario.

(** ** Further episodes of the scenario *)

Module Episodes.

(** The graph of the second cycle without its place layer. *)
Definition unanchored : DynamicSceneGraph :=
  {| graph_nodes := getLayer SEGMENTS Scenario.graph2 ++ getLayer OBJECTS Scenario.graph2;
     graph_edges := graph_edges Scenario.graph2 |}.

(** The attachment phase of a third cycle, on the graph the second cycle
    left. *)
Definition attached3 : DynamicSceneGraph * State :=
  Eval vm_compute in
    match updateActiveParents Scenario.config (fst Scenario.after2)
                              (snd Scenario.after2) with
    | Ok r => r
    | Fatal => Scenario.after2
    end.

(** The first object after the second cycle: the child of place 100. *)
Definition object1_attached : SceneGraphNode :=
  Eval vm_compute in
    match getNode (fst Scenario.after2) Scenario.object1 with
    | Some n => n
    | None => Scenario.segment 0 0 0 0
    end.

(** The graph and the state after component 0 is retired. *)
Definition retired0 : DynamicSceneGraph * State :=
  Eval vm_compute in
    clearActiveComponents (fst Scenario.after2) [0] (snd Scenario.after2).

(** The second cycle after its first phase, and after its second. *)
Definition attached2 : DynamicSceneGraph * State :=
  Eval vm_compute in
    match updateActiveParents Scenario.config Scenario.graph2
                              (snd Scenario.after1) with
    | Ok r => r
    | Fatal => (Scenario.graph2, snd Scenario.after1)
    end.

Definition edges2 : DynamicSceneGraph * State * list size_t :=
  Eval vm_compute in
    match addSegmentEdges Scenario.ext Scenario.config (fst attached2)
                          (snd attached2) with
    | Ok r => r
    | Fatal => (fst attached2, snd attached2, [])
    end.

(** The second cycle after its third phase. *)
Definition retired2 : DynamicSceneGraph * State :=
  Eval vm_compute in
    clearActiveComponents (fst (fst edges2)) (snd edges2) (snd (fst edges2)).

(** A graph in which the first id of the functor's sequence is taken by a
    place. *)
Definition taken : DynamicSceneGraph :=
  {| graph_nodes := [Scenario.segment 1 0 1 1;
                     Scenario.place Scenario.object1 10 false];
     graph_edges := [] |}.

(** The first cycle of a new functor on that graph. *)
Definition after_taken : DynamicSceneGraph * State :=
  Eval vm_compute in
    match call Scenario.ext Scenario.config taken
               (initial_state Scenario.config) with
    | Ok r => r
    | Fatal => (taken, initial_state Scenario.config)
    end.

(** A coarse rounding: to the integer above. *)
Definition to_grid (x : Q) : Q := inject_Z (Qceiling x).

End Episodes.

(** * Statements

    The vocabulary of the properties: the phases of a cycle, the invariants
    of the functor's members, and the claims that fail as they are worded. *)

(** Attributes that carry a cube from [lo] to [hi] on every axis. *)
Definition cube_attributes (lo hi : Q) : KhronosObjectAttributes :=
  {| position := (lo, lo, lo); is_active := true; semantic_feature := [];
     bounding_box := {| box_min := (lo, lo, lo); box_max := (hi, hi, hi) |};
     auxiliary := [] |}.

(** The stable and the volatile parents of a list of parents, in order. *)
Definition stable_parents (parents : list (NodeId * bool)) : list NodeId :=
  map fst (filter (fun p => snd p) parents).

Definition volatile_parents (parents : list (NodeId * bool)) : list NodeId :=
  map fst (filter (fun p => negb (snd p)) parents).

(** The phases of a cycle. *)
Inductive Phase : Type :=
| Attachment | EdgeDetection | Retirement | Discovery | Materialization.

(** The phase an event belongs to, by the function that records it. *)
Definition phase_of (e : Event) : Phase :=
  match e with
  | AnchorAttached _ _ | DistanceWarning _ _ _ => Attachment
  | SegmentSkipped _ _ | SegmentEdge _ _ => EdgeDetection
  | ComponentRetired _ => Retirement
  | GroupsDiscovered _ => Discovery
  | ComponentClustered _ _ | EmptyCluster | ObjectSkipped _
  | ObjectMaterialized _ | ObjectWithoutParent _ => Materialization
  end.

(** [st'] has the journal of [st] followed by events of phase [p]. *)
Definition extends (p : Phase) (st st' : State) : Prop :=
  exists d, journal st' = journal st ++ d /\ Forall (fun e => phase_of e = p) d.

(** Case analysis on a successful run of a loop body. *)
Ltac run_body E :=
  repeat (cbn [bind require] in E;
          match type of E with
          | bind ?r _ = Ok _ =>
              let a := fresh "a" in
              let Ea := fresh "E" a in
              destruct r as [a|] eqn:Ea; [|discriminate E]
          | Ok _ = Ok _ => inversion E; subst; clear E
          | Fatal = Ok _ => discriminate E
          | (let (_, _) := ?x in _) = Ok _ => destruct x eqn:?
          | (match ?x with _ => _ end) = Ok _ => destruct x eqn:?
          | (if ?x then _ else _) = Ok _ => destruct x eqn:?
          end).

(** No event of phase [later] comes before an event of phase [earlier]. *)
Definition completes_before (earlier later : Phase) (d : list Event) : Prop :=
  forall pre e mid e' post,
    d = pre ++ e :: mid ++ e' :: post ->
    phase_of e = later -> phase_of e' = earlier -> False.

(** The order of C1 as it is worded, on the events of one cycle. *)
Definition claimed_phase_order : Prop :=
  forall ext config graph st graph' st' d,
    reachable ext config st ->
    call ext config graph st = Ok (graph', st') ->
    journal st' = journal st ++ d ->
    completes_before Retirement Discovery d
    /\ completes_before Discovery Materialization d
    /\ completes_before Materialization Attachment d.

(** Two graphs give every id the same layer. *)
Definition layers_agree (g g0 : DynamicSceneGraph) : Prop :=
  forall id, option_map node_layer (getNode g id) = option_map node_layer (getNode g0 id).

(** The ids of a graph with their layers. *)
Definition shape (g : DynamicSceneGraph) : list (NodeId * LayerId) :=
  map (fun n => (node_id n, node_layer n)) (graph_nodes g).

(** [id] is the id of an object node of the graph. *)
Definition object_present (g : DynamicSceneGraph) (id : NodeId) : Prop :=
  In (id, OBJECTS) (shape g).

(** Every id of the active set is the id of an object node of the graph. *)
Definition active_objects_present (g : DynamicSceneGraph) (st : State) : Prop :=
  forall id, In id (active_ st) -> object_present g id.

(** No node outside the object layer carries the key of the functor's ids. *)
Definition key_reserved (g : DynamicSceneGraph) (st : State) : Prop :=
  forall id layer, In (id, layer) (shape g) ->
    key_of id = symbol_key (next_node_id_ st) -> layer = OBJECTS.

(** The active set after the resynchronisation of [updateActiveParents]. *)
Definition resynchronised (g : DynamicSceneGraph) (st : State) : list NodeId :=
  fold_left (fun s n => set_insert (node_id n) s) (getLayer OBJECTS g) (active_ st).

(** What retirement may change, relative to the graph and the state on
    entry: nodes and active ids are only removed, and an active id that
    stays keeps its object node. *)
Definition retirement_keeps (g : DynamicSceneGraph) (st : State)
  (acc : DynamicSceneGraph * State) : Prop :=
  (forall x, In x (shape (fst acc)) -> In x (shape g))
  /\ next_node_id_ (snd acc) = next_node_id_ st
  /\ (forall id, In id (active_ (snd acc)) -> In id (active_ st))
  /\ (forall id, In id (active_ (snd acc)) -> object_present g id ->
                 object_present (fst acc) id).

(** Materialization under the reservation of the key: an id enters the
    active set only after its object node is in the graph. *)
Definition materialization_keeps (acc : DynamicSceneGraph * State) : Prop :=
  active_objects_present (fst acc) (snd acc) /\ key_reserved (fst acc) (snd acc).

(** Two lists of ids without a common member. *)
Definition disjoint (a b : list NodeId) : Prop := forall x, In x a -> ~ In x b.

(** Every listed node with this id has its active flag cleared. *)
Definition inactive (g : DynamicSceneGraph) (id : NodeId) : Prop :=
  forall n, In n (graph_nodes g) -> node_id n = id ->
            attributes_is_active (node_attributes n) = false.

(** What edge detection may change, relative to the state [st0] and the
    graph on entry: the components and the map of clustered segments stay;
    the ignored set only grows, by segments that are not clustered and whose
    nodes are deactivated; no new edge event starts at a segment that was
    ignored on entry. *)
Definition edge_detection_keeps (st0 : State)
  (acc : DynamicSceneGraph * State * list size_t) : Prop :=
  let g := fst (fst acc) in
  let s := snd (fst acc) in
  components_ s = components_ st0
  /\ node_to_component_ s = node_to_component_ st0
  /\ components_ids_ s = components_ids_ st0
  /\ incl (ignored_ st0) (ignored_ s)
  /\ (forall i, In i (ignored_ s) ->
                In i (ignored_ st0)
                \/ (~ In i (map fst (node_to_component_ st0)) /\ inactive g i))
  /\ (exists d, journal s = journal st0 ++ d
                /\ forall a b, In (SegmentEdge a b) d -> ~ In a (ignored_ st0)).

(** The segment lists of components with different ids are disjoint. *)
Definition components_disjoint (st : State) : Prop :=
  forall c1 i1 c2 i2,
    In (c1, i1) (components_ st) -> In (c2, i2) (components_ st) -> c1 <> c2 ->
    disjoint (segments i1) (segments i2).

(** Every segment of a live component is a key of [node_to_component_]. *)
Definition segments_clustered (st : State) : Prop :=
  forall c i s, In (c, i) (components_ st) -> In s (segments i) ->
                In s (map fst (node_to_component_ st)).

(** No ignored segment is a key of [node_to_component_]. *)
Definition ignored_unclustered (st : State) : Prop :=
  forall s, In s (ignored_ st) -> ~ In s (map fst (node_to_component_ st)).

(** The invariant of the component registry and the eligibility sets. *)
Definition registry_invariant (st : State) : Prop :=
  components_disjoint st /\ segments_clustered st /\ ignored_unclustered st.

(** The members that [registry_invariant] reads. *)
Definition same_registry (a b : State) : Prop :=
  components_ a = components_ b
  /\ node_to_component_ a = node_to_component_ b
  /\ ignored_ a = ignored_ b.


(** The ids can be looked up, and the parents they have are places. *)
Definition resolvable (g : DynamicSceneGraph) (ids : list NodeId) : Prop :=
  forall id, In id ids ->
    (exists layer, In (id, layer) (shape g))
    /\ forall n p, getNode g id = Some n -> node_parent n = Some p ->
                   In (p, PLACES) (shape g).

(** The statement of C9 as it is worded, for a whole cycle: the invariant
    of the active set is preserved without any condition on the graph. *)
Definition claimed_active_set_invariant : Prop :=
  forall ext config g st g' st',
    reachable ext config st ->
    active_objects_present g st ->
    call ext config g st = Ok (g', st') ->
    active_objects_present g' st'.

(** [OverlapIntersection::call] with the rounding of single precision
    written out.  The entries of the boxes are floats; the column-wise
    minimum and the comparisons are exact, and every entry of
    [combined.rowwise() -= min] is the exact difference rounded by [rnd].
    [OverlapIntersection.call] is the instance without rounding. *)
Definition round3 (rnd : Q -> Q) (a : Vector3) : Vector3 :=
  let '(x, y, z) := a in (rnd x, rnd y, rnd z).

Definition call_rounded (rnd : Q -> Q) (config : OverlapIntersection.Config)
  (lhs rhs : KhronosObjectAttributes) : bool :=
  let bbox_lhs := bounding_box lhs in
  let bbox_rhs := bounding_box rhs in
  let row0 := box_min bbox_lhs in
  let row1 := box_min bbox_rhs in
  let row2 := box_max bbox_lhs in
  let row3 := box_max bbox_rhs in
  let min := v3_min (v3_min row0 row1) (v3_min row2 row3) in
  let row0 := round3 rnd (v3_sub row0 min) in
  let row1 := round3 rnd (v3_sub row1 min) in
  let row2 := round3 rnd (v3_sub row2 min) in
  let row3 := round3 rnd (v3_sub row3 min) in
  v3_le row0 row3 && v3_le row1 row2.

(** What the theorems need of the rounding: it never reverses the order of
    two reals, as rounding to nearest does not. *)
Definition monotone (rnd : Q -> Q) : Prop :=
  forall a b : Q, (a <= b)%Q -> (rnd a <= rnd b)%Q.

(** Component-wise order of two vectors. *)
Definition v3_leq (a b : Vector3) : Prop :=
  let '(ax, ay, az) := a in
  let '(bx, by_, bz) := b in (ax <= bx)%Q /\ (ay <= by_)%Q /\ (az <= bz)%Q.


(** A member [getBestParent] can read: it is in the graph, and so is its
    parent if it has one. *)
Definition parent_resolves (g : DynamicSceneGraph) (id : NodeId) : Prop :=
  exists n, getNode g id = Some n
            /\ forall p, node_parent n = Some p -> exists pn, getNode g p = Some pn.

(** A node that awaits an anchor: its parent is a place that is still
    active, or it has no parent and there is no place to attach it to. *)
Definition awaits_anchor (places : list SceneGraphNode) (g : DynamicSceneGraph)
  (id : NodeId) : Prop :=
  exists n, getNode g id = Some n
            /\ match node_parent n with
               | Some p => exists pn, getLayerNode PLACES g p = Some pn
                                      /\ attributes_is_active (node_attributes pn) = true
               | None => places = []
               end.

(** The ids of the registry entries that are in the touched set, in the
    order of the registry. *)
Definition retired_ids (active : list size_t) (l : list (size_t * ComponentInfo))
  : list size_t :=
  map fst (filter (fun e => set_count (fst e) active) l).

(** An edge that edge detection may insert, on the layer and the state it
    started from: two different segments of the layer with overlapping
    boxes, the first of them new and relevant. *)
Definition sound_edge (ext : Collaborators) (config : Config)
  (layer : list SceneGraphNode) (st0 : State) (a b : NodeId) : Prop :=
  exists na nb ka kb,
    In na layer /\ In nb layer /\ node_id na = a /\ node_id nb = b /\ a <> b
    /\ node_attributes na = KhronosAttributes ka
    /\ node_attributes nb = KhronosAttributes kb
    /\ OverlapIntersection.call (edge_checker config) ka kb = true
    /\ ~ In a (ignored_ st0)
    /\ ~ In a (map fst (node_to_component_ st0))
    /\ Qlt_bool (getBestScore ext (rowwise_mean (semantic_feature ka)))
                (min_segment_score config) = false.

(** A segment that edge detection may ignore: a segment of the layer that
    scores below the threshold. *)
Definition sound_ignore (ext : Collaborators) (config : Config)
  (layer : list SceneGraphNode) (i : NodeId) : Prop :=
  exists n k,
    In n layer /\ node_id n = i /\ node_attributes n = KhronosAttributes k
    /\ Qlt_bool (getBestScore ext (rowwise_mean (semantic_feature k)))
                (min_segment_score config) = true.

(** The loop invariant of edge detection for the two notions above. *)
Definition edge_detection_sound (ext : Collaborators) (config : Config)
  (layer : list SceneGraphNode) (st0 : State)
  (acc : DynamicSceneGraph * State * list size_t) : Prop :=
  let s := snd (fst acc) in
  node_to_component_ s = node_to_component_ st0
  /\ incl (ignored_ st0) (ignored_ s)
  /\ (forall i, In i (ignored_ s) ->
                In i (ignored_ st0) \/ sound_ignore ext config layer i)
  /\ exists d,
       journal s = journal st0 ++ d
       /\ (forall a b, In (SegmentEdge a b) d -> sound_edge ext config layer st0 a b)
       /\ (forall c, In c (snd acc) ->
                     exists a b, map_find b (node_to_component_ st0) = Some c
                                 /\ In (SegmentEdge a b) d).

(** The identifier pool and the ids in use agree: no id is free twice or in
    use twice, no id is both, and all of them lie below the counter. *)
Definition pool_ok (ids : IdTracker.t) (live : list size_t) : Prop :=
  0 <= IdTracker.idx_ ids
  /\ NoDup (IdTracker.unused_ ids) /\ NoDup live
  /\ disjoint (IdTracker.unused_ ids) live
  /\ (forall i, In i (IdTracker.unused_ ids) \/ In i live -> i < IdTracker.idx_ ids).

(** The pool of the functor against the keys of its registry. *)
Definition pool_invariant (st : State) : Prop :=
  pool_ok (components_ids_ st) (map fst (components_ st)).

(** Every clustered segment is listed by the live component it is mapped
    to. *)
Definition registry_consistent (st : State) : Prop :=
  forall k c, map_find k (node_to_component_ st) = Some c ->
    exists info, In (c, info) (components_ st) /\ In k (segments info).

(** * Properties *)

(** ** The identifier pool *)

Module IdTrackerFacts.

Import IdTracker.

Lemma next_n_queue l : forall s,
  unused_ s = l -> next_n (length l) s = (l, mk (idx_ s) []).
Proof.
  induction l as [|x q IH]; intros [c u] Hu; simpl in *; subst u.
  - reflexivity.
  - unfold next; simpl. rewrite (IH (mk c q) eq_refl). reflexivity.
Qed.

Lemma markFree_all_below ids : forall s,
  Forall (fun i => i < idx_ s) ids ->
  markFree_all ids s = mk (idx_ s) (unused_ s ++ ids).
Proof.
  induction ids as [|i r IH]; intros [c u] H; simpl in *.
  - now rewrite app_nil_r.
  - inversion H as [|? ? Hi Hr]; subst.
    assert (E : markFree i (mk c u) = mk c (u ++ [i])).
    { unfold markFree; simpl. apply Z.ltb_lt in Hi. now rewrite Hi. }
    unfold markFree_all in *; simpl. rewrite E, (IH (mk c (u ++ [i])) Hr); simpl.
    now rewrite <- app_assoc.
Qed.

Lemma wf_markFree i s : wf s -> wf (markFree i s).
Proof.
  intros [H0 H]. unfold markFree.
  destruct (i <? idx_ s) eqn:E; [|now split].
  split; simpl; [assumption|].
  apply Forall_app; split; [assumption|].
  constructor; [now apply Z.ltb_lt|constructor].
Qed.

Lemma size_succ_small c : 0 <= c -> c + 1 < SIZE_MODULUS -> size_succ c = c + 1.
Proof. intros. unfold size_succ. apply Z.mod_small. lia. Qed.

(** The counter only moves forward as long as it does not wrap, and what
    the counter hands out lies at or above the counter of the start. *)
Lemma run_counter_lower ops : forall s,
  wf s -> idx_ s + Z.of_nat (length ops) < SIZE_MODULUS ->
  forall x b, In (x, b) (fst (run ops s)) ->
              (b = true -> idx_ s <= x) /\ (b = false -> x < idx_ s + Z.of_nat (length ops)).
Proof.
  induction ops as [|o r IH]; intros s Hwf Hb x b Hin.
  - destruct Hin.
  - destruct o as [|i].
    + cbn [run] in Hin. destruct Hwf as [H0 Hq].
      unfold next in Hin.
      destruct (unused_ s) as [|y q] eqn:Eu.
      * destruct (run r _) as [l s2] eqn:Er. cbn [fst] in Hin.
        change (length (Next :: r)) with (S (length r)) in *.
        destruct Hin as [Hin|Hin].
        -- inversion Hin; subst. split; [lia|discriminate].
        -- assert (Hs : size_succ (idx_ s) = idx_ s + 1)
             by (apply size_succ_small; lia).
           specialize (IH (mk (size_succ (idx_ s)) [])).
           rewrite Er in IH. cbn [fst idx_] in IH.
           destruct (IH ltac:(split; simpl; [lia|constructor]) ltac:(lia) x b Hin).
           split; intros; [specialize (H H2)|specialize (H1 H2)]; lia.
      * destruct (run r _) as [l s2] eqn:Er. cbn [fst] in Hin.
        change (length (Next :: r)) with (S (length r)) in *.
        inversion Hq as [|? ? Hy Hq']; subst.
        destruct Hin as [Hin|Hin].
        -- inversion Hin; subst. split; [discriminate|lia].
        -- specialize (IH (mk (idx_ s) q)).
           rewrite Er in IH. cbn [fst idx_] in IH.
           destruct (IH ltac:(split; simpl; assumption) ltac:(lia) x b Hin).
           split; intros; [specialize (H H2)|specialize (H1 H2)]; lia.
    + cbn [run] in Hin.
      change (length (MarkFree i :: r)) with (S (length r)) in *.
      assert (Hi : idx_ (markFree i s) = idx_ s)
        by (unfold markFree; destruct (i <? idx_ s); reflexivity).
      specialize (IH (markFree i s) (wf_markFree i s Hwf)).
      rewrite Hi in IH.
      destruct (IH ltac:(lia) x b Hin). split; intros; [auto|]. specialize (H0 H1). lia.
Qed.

(** Whatever the counter hands out is larger than everything handed out
    before it in the same call sequence. *)
Lemma run_counter_fresh ops : forall s,
  wf s -> idx_ s + Z.of_nat (length ops) < SIZE_MODULUS ->
  Forall (fun i => i < idx_ s) (unused_ s) ->
  forall pre x post, fst (run ops s) = pre ++ (x, true) :: post ->
                     Forall (fun p => fst p < x) pre.
Proof.
  induction ops as [|o r IH]; intros s Hwf Hb _ pre x post E.
  - destruct pre; discriminate.
  - destruct o as [|i].
    + cbn [run] in E. destruct (next s) as [i0 s1] eqn:En.
      destruct (run r s1) as [l s2] eqn:Er. cbn [fst] in E.
      change (length (Next :: r)) with (S (length r)) in Hb.
      destruct pre as [|p pre']; [constructor|].
      cbn [app] in E. inversion E as [[Hp Hl]]. subst p.
      assert (Hs1 : wf s1 /\ idx_ s1 + Z.of_nat (length r) < SIZE_MODULUS
                    /\ i0 < idx_ s1).
      { unfold next in En. destruct Hwf as [H0 Hq].
        destruct (unused_ s) as [|y q] eqn:Eu; inversion En; subst; cbn [idx_ unused_].
        - rewrite size_succ_small by lia.
          split; [split; cbn [idx_ unused_]; [lia|constructor]|split; lia].
        - inversion Hq; subst.
          split; [split; cbn [idx_ unused_]; [lia|assumption]|split; lia]. }
      destruct Hs1 as (Hwf1 & Hb1 & Hi0).
      assert (Hx : idx_ s1 <= x).
      { apply (run_counter_lower r s1 Hwf1 Hb1 x true); [|reflexivity].
        rewrite Er. cbn [fst]. rewrite Hl. apply in_or_app. right. now left. }
      constructor; [cbn [fst]; lia|].
      apply (IH s1 Hwf1 Hb1 (proj2 Hwf1) pre' x post). now rewrite Er.
    + cbn [run] in E.
      change (length (MarkFree i :: r)) with (S (length r)) in Hb.
      pose proof (wf_markFree i s Hwf) as Hwf'.
      assert (Hi : idx_ (markFree i s) = idx_ s)
        by (unfold markFree; destruct (i <? idx_ s); reflexivity).
      apply (IH (markFree i s) Hwf' ltac:(lia) (proj2 Hwf') pre x post E).
Qed.

(** C5.  [next] hands out the head of the free list, leaving the counter
    alone, when the free list is not empty; otherwise it hands out the counter
    and increments it.  Freed ids are served oldest first: after a batch of
    releases below the counter, successive calls of [next] return the ids that
    were already waiting and then the batch, in release order.  [markFree] of
    an id at or above the counter changes nothing.  In a call sequence on a
    pool built by the constructor, an id taken from the counter was not handed
    out earlier in that sequence (as long as the 64-bit counter does not wrap),
    so an id can only come back through the free list, where [markFree] alone
    puts it. *)
Theorem next_release_policy :
  (forall s x q, unused_ s = x :: q -> next s = (x, mk (idx_ s) q))
  /\ (forall s, unused_ s = [] -> next s = (idx_ s, mk (size_succ (idx_ s)) []))
  /\ (forall s ids, Forall (fun i => i < idx_ s) ids ->
        fst (next_n (length (unused_ s ++ ids)) (markFree_all ids s)) = unused_ s ++ ids)
  /\ (forall s id, idx_ s <= id -> markFree id s = s)
  /\ (forall start ops,
        0 <= start -> start + Z.of_nat (length ops) < SIZE_MODULUS ->
        forall pre x post,
          fst (run ops (make start)) = pre ++ (x, true) :: post ->
          ~ In x (map fst pre)).
Proof.
  repeat split.
  - intros s x q E. unfold next. now rewrite E.
  - intros s E. unfold next. now rewrite E.
  - intros s ids H. rewrite (markFree_all_below ids s H).
    now rewrite (next_n_queue (unused_ s ++ ids) (mk (idx_ s) (unused_ s ++ ids)) eq_refl).
  - intros s id H. unfold markFree.
    destruct (id <? idx_ s) eqn:E; [apply Z.ltb_lt in E; lia|reflexivity].
  - intros start ops H0 Hb pre x post E Hin.
    assert (Hwf : wf (make start)) by (split; simpl; [assumption|constructor]).
    pose proof (run_counter_fresh ops (make start) Hwf Hb (proj2 Hwf) pre x post E) as HF.
    apply in_map_iff in Hin. destruct Hin as (p & Hp & Hin).
    rewrite Forall_forall in HF. specialize (HF p Hin). cbn beta in HF.
    rewrite Hp in HF. apply (Z.lt_irrefl x HF).
Qed.

(** A run of the last part of the policy: two ids from the
    counter, a release, the released id again, and a fresh id after it. *)
Lemma next_release_policy_witness :
  fst (run [Next; Next; MarkFree 0; Next; Next] (make 0))
    = [(0, true); (1, true); (0, false); (2, true)]
  /\ ~ In 2 (map fst [(0, true); (1, true); (0, false)]).
Proof.
  split; [reflexivity|].
  apply (proj2 (proj2 (proj2 (proj2 next_release_policy)))
           0 [Next; Next; MarkFree 0; Next; Next] ltac:(lia) ltac:(vm_compute; reflexivity)
           [(0, true); (1, true); (0, false)] 2 []).
  reflexivity.
Defined.

(** With an older id still waiting in the free list, the first of the two
    calls returns the older id. *)
Lemma double_release_behind_older_id :
  fst (next_n 2 (markFree 3 (markFree 3 (mk 10 [5])))) = [5; 3]
  /\ ~ double_release_claim.
Proof.
  split; [reflexivity|].
  intro H. specialize (H (mk 10 [5]) 3 ltac:(simpl; lia)). discriminate H.
Qed.

(** C10 (amended).  [markFree] does not look for duplicates: two releases of
    an id below the counter append it twice to the free list and leave the
    counter unchanged.  The two copies are served after the ids that were
    already waiting, by two consecutive calls of [next]; when the free list
    was empty, these are the next two calls. *)
Theorem double_release :
  forall s id, id < idx_ s ->
    unused_ (markFree id (markFree id s)) = unused_ s ++ [id; id]
    /\ idx_ (markFree id (markFree id s)) = idx_ s
    /\ fst (next_n (length (unused_ s) + 2) (markFree id (markFree id s)))
       = unused_ s ++ [id; id]
    /\ (unused_ s = [] ->
        fst (next_n 2 (markFree id (markFree id s))) = [id; id]).
Proof.
  intros s id H.
  assert (E : markFree id (markFree id s) = mk (idx_ s) (unused_ s ++ [id; id])).
  { change (markFree id (markFree id s)) with (markFree_all [id; id] s).
    apply markFree_all_below. repeat constructor; assumption. }
  rewrite E; cbn [unused_ idx_]. repeat split.
  - replace (length (unused_ s) + 2)%nat with (length (unused_ s ++ [id; id]))
      by (rewrite length_app; reflexivity).
    now rewrite (next_n_queue (unused_ s ++ [id; id]) (mk (idx_ s) (unused_ s ++ [id; id])) eq_refl).
  - intros Hq. rewrite Hq. reflexivity.
Qed.

Lemma double_release_witness :
  3 < idx_ (mk 10 []) /\
  fst (next_n 2 (markFree 3 (markFree 3 (mk 10 [])))) = [3; 3].
Proof.
  split; [reflexivity|].
  apply (proj2 (proj2 (proj2 (double_release (mk 10 []) 3 ltac:(reflexivity))))).
  reflexivity.
Defined.

End IdTrackerFacts.

(** ** Rational arithmetic, up to syntactic equality *)





Lemma Qle_bool_sub (a b m : Q) : Qle_bool (a - m) (b - m) = Qle_bool a b.
Proof.
  apply eq_true_iff_eq. rewrite !Qle_bool_iff. split; intro H; lra.
Qed.

Lemma v3_le_sub (a b m : Vector3) : v3_le (v3_sub a m) (v3_sub b m) = v3_le a b.
Proof.
  destruct a as [[ax ay] az], b as [[bx by_] bz], m as [[mx my] mz].
  unfold v3_le, v3_sub, v3_map2, v3_all2. now rewrite !Qle_bool_sub.
Qed.

(** ** The connectivity predicate *)

(** After the alignment, the comparison is the comparison of the corners. *)
Lemma overlap_corners config lhs rhs :
  OverlapIntersection.call config lhs rhs
  = v3_le (box_min (bounding_box lhs)) (box_max (bounding_box rhs))
    && v3_le (box_min (bounding_box rhs)) (box_max (bounding_box lhs)).
Proof. unfold OverlapIntersection.call. now rewrite !v3_le_sub. Qed.

Lemma overlap_symmetric config lhs rhs :
  OverlapIntersection.call config lhs rhs = OverlapIntersection.call config rhs lhs.
Proof. rewrite !overlap_corners. apply andb_comm. Qed.

(** C2.  The predicate compares the corners of the two boxes and never reads
    the configured tolerance: whatever the tolerance, the answer is the same.
    Two unit cubes half a unit apart are reported as not overlapping under a
    tolerance of one unit, which is larger than the gap. *)
Theorem overlap_ignores_tolerance :
  (forall c1 c2 lhs rhs,
      OverlapIntersection.call c1 lhs rhs = OverlapIntersection.call c2 lhs rhs)
  /\ OverlapIntersection.call {| OverlapIntersection.tolerance := 1 |}
       (cube_attributes 0 1) (cube_attributes (3 # 2) (5 # 2)) = false
  /\ OverlapIntersection.call {| OverlapIntersection.tolerance := 1 |}
       (cube_attributes (3 # 2) (5 # 2)) (cube_attributes 0 1) = false.
Proof.
  split; [|split; reflexivity].
  intros c1 c2 lhs rhs. now rewrite !overlap_corners.
Qed.

(** ** Parent selection *)

(** The two vectors of [getBestParent] are the volatile and the stable
    parents, each in member order. *)
Lemma parent_step_collects graph nodes : forall active archived,
  for_each (parent_step graph) nodes (active, archived)
  = (parents <- member_parents graph nodes ;;
     Ok (active ++ volatile_parents parents, archived ++ stable_parents parents)).
Proof.
  induction nodes as [|id rest IH]; intros active archived; simpl.
  - unfold volatile_parents, stable_parents; simpl. now rewrite !app_nil_r.
  - unfold parent_step at 1.
    destruct (getNode graph id) as [node|]; simpl; [|reflexivity].
    destruct (node_parent node) as [parent|]; simpl; [|apply IH].
    destruct (getNode graph parent) as [parent_node|]; simpl; [|reflexivity].
    destruct (attributes_is_active (node_attributes parent_node)); simpl;
      rewrite IH; destruct (member_parents graph rest) as [others|]; simpl;
      try reflexivity;
      unfold volatile_parents, stable_parents; simpl; now rewrite <- app_assoc.
Qed.

Lemma find_first_of_filter {A : Type} (f : A -> bool) (l : list A) :
  find f l = hd_error (filter f l).
Proof.
  induction l as [|x l IH]; simpl; [reflexivity|]. now destruct (f x).
Qed.

(** C6.  [getBestParent] returns the first stable parent in member order if
    some member has a stable parent, otherwise the first volatile parent,
    otherwise nothing; it aborts exactly when a member or a parent is missing
    from the graph.  For three members whose parents are volatile, stable and
    stable, the answer is the parent of the second member. *)
Theorem getBestParent_first_stable :
  (forall graph nodes,
      getBestParent graph nodes
      = (parents <- member_parents graph nodes ;; Ok (preferred_parent parents)))
  /\ (forall graph a b c p0 p1 p2,
         member_parents graph [a; b; c] = Ok [(p0, false); (p1, true); (p2, true)] ->
         getBestParent graph [a; b; c] = Ok (Some (p1, false))).
Proof.
  assert (H : forall graph nodes,
             getBestParent graph nodes
             = (parents <- member_parents graph nodes ;; Ok (preferred_parent parents))).
  { intros graph nodes. unfold getBestParent. rewrite parent_step_collects.
    destruct (member_parents graph nodes) as [parents|]; simpl; [|reflexivity].
    unfold preferred_parent, stable_parents, volatile_parents.
    rewrite !find_first_of_filter.
    destruct (filter (fun p => snd p) parents) as [|s ?]; simpl; [|reflexivity].
    destruct (filter (fun p => negb (snd p)) parents) as [|v ?]; reflexivity. }
  split; [exact H|].
  intros graph a b c p0 p1 p2 E. rewrite H, E. reflexivity.
Qed.

(** Members 11, 12, 13 with parents 201 (volatile), 202 and 203 (stable):
    the answer is 202. *)
Lemma getBestParent_first_stable_witness :
  getBestParent Scenario.family [11; 12; 13] = Ok (Some (202, false)).
Proof.
  apply (proj2 getBestParent_first_stable Scenario.family 11 12 13 201 202 203).
  reflexivity.
Defined.

(** ** Attribute merging *)


(** ** Containers *)

Lemma set_count_In x s : set_count x s = true <-> In x s.
Proof.
  unfold set_count. rewrite existsb_exists. split.
  - intros (y & Hy & E). apply Z.eqb_eq in E. now subst.
  - intros H. exists x. split; [assumption|apply Z.eqb_refl].
Qed.

Lemma set_count_false x s : set_count x s = false <-> ~ In x s.
Proof.
  rewrite <- set_count_In. destruct (set_count x s); intuition congruence.
Qed.

Lemma set_insert_In x s y : In y (set_insert x s) <-> y = x \/ In y s.
Proof.
  induction s as [|z r IH]; simpl.
  - intuition.
  - destruct (x <? z); simpl; [intuition|].
    destruct (x =? z) eqn:E; simpl.
    + apply Z.eqb_eq in E. subst. intuition.
    + rewrite IH. intuition.
Qed.

Lemma set_erase_In x s y : In y (set_erase x s) <-> In y s /\ y <> x.
Proof.
  unfold set_erase. rewrite filter_In, negb_true_iff, Z.eqb_neq. reflexivity.
Qed.

Lemma map_count_In {V : Type} k (m : list (Z * V)) :
  map_count k m = true <-> In k (map fst m).
Proof.
  unfold map_count. rewrite existsb_exists, in_map_iff. split.
  - intros (e & He & E). apply Z.eqb_eq in E. now exists e.
  - intros (e & E & He). exists e. split; [assumption|now apply Z.eqb_eq].
Qed.

Lemma map_count_false {V : Type} k (m : list (Z * V)) :
  map_count k m = false <-> ~ In k (map fst m).
Proof.
  rewrite <- map_count_In. destruct (map_count k m); intuition congruence.
Qed.

Lemma map_find_In {V : Type} k (m : list (Z * V)) v :
  map_find k m = Some v -> In (k, v) m.
Proof.
  unfold map_find. destruct (find _ m) as [e|] eqn:E; simpl; [|discriminate].
  intros H. inversion H; subst. apply find_some in E. destruct E as [Hin Hk].
  apply Z.eqb_eq in Hk. destruct e as [k' v']. simpl in *. now subst.
Qed.


Lemma map_erase_In {V : Type} k (m : list (Z * V)) e :
  In e (map_erase k m) <-> In e m /\ fst e <> k.
Proof.
  unfold map_erase. rewrite filter_In, negb_true_iff, Z.eqb_neq. reflexivity.
Qed.

Lemma map_erase_keys {V : Type} k (m : list (Z * V)) k' :
  In k' (map fst (map_erase k m)) <-> In k' (map fst m) /\ k' <> k.
Proof.
  rewrite !in_map_iff. split.
  - intros (e & E & He). apply map_erase_In in He. destruct He as [He Hk].
    subst. split; [now exists e|assumption].
  - intros [(e & E & He) Hk]. exists e. split; [assumption|].
    apply map_erase_In. subst. now split.
Qed.

Lemma map_emplace_In {V : Type} k (v : V) m e :
  In e (map_emplace k v m) -> e = (k, v) \/ In e m.
Proof.
  induction m as [|z r IH]; simpl.
  - intuition.
  - destruct (k <? fst z); simpl; [intuition|].
    destruct (k =? fst z); simpl; [intuition|]. intuition.
Qed.

Lemma map_emplace_keys {V : Type} k (v : V) m k' :
  In k' (map fst (map_emplace k v m)) <-> k' = k \/ In k' (map fst m).
Proof.
  induction m as [|z r IH]; simpl.
  - intuition.
  - destruct (k <? fst z); simpl; [intuition|].
    destruct (k =? fst z) eqn:E; simpl.
    + apply Z.eqb_eq in E. intuition congruence.
    + rewrite IH. intuition.
Qed.

Lemma map_assign_keys {V : Type} k (v : V) m k' :
  In k' (map fst (map_assign k v m)) <-> k' = k \/ In k' (map fst m).
Proof.
  unfold map_assign. rewrite map_emplace_keys, map_erase_keys.
  destruct (Z.eq_dec k' k); intuition.
Qed.

(** ** Loops *)

Lemma for_each_preserves {A S : Type} (P : S -> Prop) (body : S -> A -> result S)
  (l : list A) :
  (forall s x s', In x l -> P s -> body s x = Ok s' -> P s') ->
  forall s s', P s -> for_each body l s = Ok s' -> P s'.
Proof.
  induction l as [|x r IH]; intros Hstep s s' Hs E; simpl in E.
  - inversion E. now subst.
  - destruct (body s x) as [s1|] eqn:E1; simpl in E; [|discriminate].
    apply (IH (fun s0 y s0' Hy => Hstep s0 y s0' (or_intror Hy)) s1 s').
    + apply (Hstep s x s1 (or_introl eq_refl) Hs E1).
    + exact E.
Qed.

Lemma fold_left_preserves {A S : Type} (P : S -> Prop) (body : S -> A -> S)
  (l : list A) :
  (forall s x, In x l -> P s -> P (body s x)) ->
  forall s, P s -> P (fold_left body l s).
Proof.
  induction l as [|x r IH]; intros Hstep s Hs; simpl.
  - exact Hs.
  - apply IH.
    + intros s0 y Hy. apply Hstep. now right.
    + apply Hstep; [now left|exact Hs].
Qed.

(** ** The order of the phases of a cycle *)

Lemma extends_refl p st : extends p st st.
Proof. exists []. split; [now rewrite app_nil_r|constructor]. Qed.

Lemma extends_trans p a b c : extends p a b -> extends p b c -> extends p a c.
Proof.
  intros (d1 & E1 & F1) (d2 & E2 & F2). exists (d1 ++ d2). split.
  - now rewrite E2, E1, app_assoc.
  - apply Forall_app. now split.
Qed.

Lemma extends_same p a b c : extends p a b -> journal c = journal b -> extends p a c.
Proof. intros (d & E & F) H. exists d. split; [congruence|assumption]. Qed.

Lemma extends_record p a b e : extends p a b -> phase_of e = p -> extends p a (record e b).
Proof.
  intros H He. apply (extends_trans p a b); [assumption|].
  exists [e]. split; [reflexivity|]. now constructor.
Qed.

Section FunctorFacts.

Variable ext : Collaborators.
Variable config : Config.

Lemma updateActiveParents_journal graph st graph' st' :
  updateActiveParents config graph st = Ok (graph', st') ->
  extends Attachment st st'.
Proof.
  unfold updateActiveParents. intros E.
  apply (for_each_preserves
           (fun acc : DynamicSceneGraph * State => extends Attachment st (snd acc))
           _ _) in E;
    [exact E| |apply (extends_same _ st st); [apply extends_refl|reflexivity]].
  intros [g s] x [g' s'] _ HP Es. cbn [snd] in *. unfold attach_step in Es.
  run_body Es; try assumption.
  - apply extends_record; [|reflexivity].
    destruct (_ && _); [apply extends_record; [assumption|reflexivity]|assumption].
Qed.

Lemma addSegmentEdges_journal graph st graph' st' touched :
  addSegmentEdges ext config graph st = Ok (graph', st', touched) ->
  extends EdgeDetection st st'.
Proof.
  unfold addSegmentEdges. intros E.
  apply (for_each_preserves
           (fun acc : DynamicSceneGraph * State * list Z =>
              extends EdgeDetection st (snd (fst acc))) _ _) in E;
    [exact E| |apply extends_refl].
  intros [[g s] t] node [[g' s'] t'] _ HP Es. cbn [fst snd] in *.
  unfold segment_step in Es. run_body Es; try assumption.
  - apply (extends_same _ st (record (SegmentSkipped (node_id node)
             (getBestScore ext (rowwise_mean (semantic_feature a)))) s));
      [|reflexivity].
    apply extends_record; [assumption|reflexivity].
  - apply (for_each_preserves
             (fun acc : DynamicSceneGraph * State * list Z =>
                extends EdgeDetection st (snd (fst acc))) _ _) in Es;
      [exact Es| |exact HP].
    intros [[g1 s1] t1] other [[g2 s2] t2] _ HP1 Eo. cbn [fst snd] in *.
    unfold edge_step in Eo. run_body Eo; try assumption;
      (apply extends_record; [assumption|reflexivity]).
Qed.

Lemma remove_object_journal l : forall g s,
  journal (snd (fold_left remove_object l (g, s))) = journal s.
Proof.
  induction l as [|o r IH]; intros g s; simpl; [reflexivity|]. now rewrite IH.
Qed.

Lemma clearActiveComponents_journal graph active st graph' st' :
  clearActiveComponents graph active st = (graph', st') ->
  extends Retirement st st'.
Proof.
  unfold clearActiveComponents. intros E.
  change st' with (snd (graph', st')). rewrite <- E.
  apply (fold_left_preserves
           (fun acc : DynamicSceneGraph * State => extends Retirement st (snd acc)));
    [|apply extends_refl].
  intros [g s] [c info] _ HP. unfold clear_step. cbn [fst snd] in *.
  destruct (set_count c active); [|exact HP].
  unfold retire.
  destruct (fold_left remove_object (objects info) _) as [g1 s1] eqn:Ef.
  apply extends_record; [|reflexivity].
  apply (extends_same _ st s); [exact HP|].
  cbn. change s1 with (snd (g1, s1)). rewrite <- Ef.
  now rewrite remove_object_journal.
Qed.

Lemma materialize_journal st0 acc cluster acc' :
  extends Materialization st0 (snd (fst acc)) ->
  materialize ext config acc cluster = Ok acc' ->
  extends Materialization st0 (snd (fst acc')).
Proof.
  destruct acc as [[g s] made], acc' as [[g' s'] made']. cbn [fst snd].
  intros HP E. unfold materialize in E. run_body E;
    repeat (first [assumption | apply extends_record; [|reflexivity]]).
  destruct a0 as [[parent_id parent_active]|]; inversion Heqp; subst; clear Heqp;
    [destruct parent_active|];
    repeat (first [assumption | apply extends_record; [|reflexivity]]).
Qed.

Lemma component_step_journal st0 layer I acc nodes acc' :
  extends Materialization st0 (snd acc) ->
  component_step ext config layer I acc nodes = Ok acc' ->
  extends Materialization st0 (snd acc').
Proof.
  destruct acc as [g s], acc' as [g' s']. cbn [snd].
  intros HP E. unfold component_step in E.
  destruct (IdTracker.next (components_ids_ s)) as [new_id ids].
  run_body E.
  apply (for_each_preserves
           (fun acc : DynamicSceneGraph * State * list Z =>
              extends Materialization st0 (snd (fst acc))) _ _) in Ea.
  - exact Ea.
  - intros a x a' _. apply materialize_journal.
  - cbn [fst snd]. apply (extends_same _ st0 (record (ComponentClustered new_id
        (clusterAgglomerative ext layer nodes I)) s)); [|reflexivity].
    apply extends_record; [assumption|reflexivity].
Qed.

Lemma detectObjects_journal graph st graph' st' :
  detectObjects ext config graph st = Ok (graph', st') ->
  exists groups made,
    journal st' = journal st ++ GroupsDiscovered groups :: made
    /\ Forall (fun e => phase_of e = Materialization) made.
Proof.
  unfold detectObjects. intros E. run_body E. rename a into groups.
  exists groups.
  apply (for_each_preserves
           (fun acc : DynamicSceneGraph * State =>
              extends Materialization (record (GroupsDiscovered groups) st) (snd acc))
           _ _) in E.
  - destruct E as (d & E & F). exists d. split; [|exact F].
    cbn [snd] in E. rewrite E. cbn. now rewrite <- app_assoc.
  - intros a x a' _. apply component_step_journal.
  - apply extends_refl.
Qed.

End FunctorFacts.

Lemma scenario_cycle1 :
  call Scenario.ext Scenario.config Scenario.graph1
       (initial_state Scenario.config)
  = Ok Scenario.after1.
Proof. vm_compute. reflexivity. Qed.

Lemma scenario_cycle2 :
  call Scenario.ext Scenario.config Scenario.graph2 (snd Scenario.after1)
  = Ok Scenario.after2.
Proof. vm_compute. reflexivity. Qed.

Lemma scenario_reachable1 :
  reachable Scenario.ext Scenario.config (snd Scenario.after1).
Proof.
  apply (reachable_call Scenario.ext Scenario.config Scenario.graph1
           (initial_state Scenario.config) (fst Scenario.after1)).
  - apply reachable_initial.
  - exact scenario_cycle1.
Qed.

Lemma scenario_reachable2 :
  reachable Scenario.ext Scenario.config (snd Scenario.after2).
Proof.
  apply (reachable_call Scenario.ext Scenario.config Scenario.graph2
           (snd Scenario.after1) (fst Scenario.after2)).
  - exact scenario_reachable1.
  - exact scenario_cycle2.
Qed.

(** In the second cycle of the scenario the first object is attached to its
    anchor before the second object is materialized, and the second object
    ends the cycle without a parent, still in the active set. *)
Lemma attachment_precedes_materialization :
  journal (snd Scenario.after2)
  = journal (snd Scenario.after1)
    ++ [DistanceWarning Scenario.object1 100 300;
        AnchorAttached Scenario.object1 100;
        SegmentEdge 4 3;
        GroupsDiscovered [[4]];
        ComponentClustered 1 [[4]];
        ObjectMaterialized Scenario.object2;
        ObjectWithoutParent Scenario.object2]
  /\ option_map node_parent (getNode (fst Scenario.after2) Scenario.object2)
     = Some None
  /\ active_ (snd Scenario.after2) = [Scenario.object2]
  /\ ~ claimed_phase_order.
Proof.
  split; [vm_compute; reflexivity|].
  split; [vm_compute; reflexivity|].
  split; [vm_compute; reflexivity|].
  intros H.
  destruct (H Scenario.ext Scenario.config Scenario.graph2 (snd Scenario.after1)
              (fst Scenario.after2) (snd Scenario.after2)
              [DistanceWarning Scenario.object1 100 300;
               AnchorAttached Scenario.object1 100;
               SegmentEdge 4 3;
               GroupsDiscovered [[4]];
               ComponentClustered 1 [[4]];
               ObjectMaterialized Scenario.object2;
               ObjectWithoutParent Scenario.object2]
              scenario_reachable1 scenario_cycle2 ltac:(vm_compute; reflexivity))
    as (_ & _ & Hlast).
  apply (Hlast [DistanceWarning Scenario.object1 100 300]
               (AnchorAttached Scenario.object1 100)
               [SegmentEdge 4 3; GroupsDiscovered [[4]]; ComponentClustered 1 [[4]]]
               (ObjectMaterialized Scenario.object2)
               [ObjectWithoutParent Scenario.object2]);
    reflexivity.
Qed.

(** ** Graph operations *)

Lemma getNode_id graph id n : getNode graph id = Some n -> node_id n = id.
Proof.
  unfold getNode. intros H. apply find_some in H. now apply Z.eqb_eq.
Qed.

Lemma getNode_In graph id n : getNode graph id = Some n -> In n (graph_nodes graph).
Proof. unfold getNode. intros H. now apply find_some in H. Qed.

Lemma getNode_map (f : SceneGraphNode -> SceneGraphNode) graph graph' id :
  (forall n, node_id (f n) = node_id n) ->
  graph_nodes graph' = map f (graph_nodes graph) ->
  getNode graph' id = option_map f (getNode graph id).
Proof.
  intros Hf E. unfold getNode. rewrite E. clear E.
  induction (graph_nodes graph) as [|n r IH]; simpl; [reflexivity|].
  rewrite Hf. destruct (node_id n =? id); [reflexivity|exact IH].
Qed.

Lemma distinct_NoDup l : distinct l = true -> NoDup l.
Proof.
  induction l as [|x r IH]; simpl; [constructor|].
  rewrite andb_true_iff, negb_true_iff, set_count_false.
  intros [Hx Hr]. constructor; auto.
Qed.

(** In a well-formed graph a listed node is the node of its id. *)
Lemma find_listed (nodes : list SceneGraphNode) n :
  NoDup (map node_id nodes) -> In n nodes ->
  find (fun m => node_id m =? node_id n) nodes = Some n.
Proof.
  induction nodes as [|m r IH]; simpl; [tauto|].
  intros Hwf. inversion Hwf as [|? ? Hm Hr]; subst. intros [E|Hin].
  - subst. now rewrite Z.eqb_refl.
  - destruct (node_id m =? node_id n) eqn:E; [|auto].
    apply Z.eqb_eq in E. exfalso. apply Hm. rewrite E. now apply in_map.
Qed.

Lemma getNode_listed graph n :
  graph_wf graph = true -> In n (graph_nodes graph) ->
  getNode graph (node_id n) = Some n.
Proof.
  unfold graph_wf, getNode. intros Hwf. apply distinct_NoDup in Hwf.
  now apply find_listed.
Qed.

Lemma set_parent_id c p n : node_id (set_parent c p n) = node_id n.
Proof. unfold set_parent. now destruct (node_id n =? c). Qed.

Lemma set_parent_layer c p n : node_layer (set_parent c p n) = node_layer n.
Proof. unfold set_parent. now destruct (node_id n =? c). Qed.

Lemma set_parent_attributes c p n :
  node_attributes (set_parent c p n) = node_attributes n.
Proof. unfold set_parent. now destruct (node_id n =? c). Qed.

Lemma layer_eqb_eq a b : layer_eqb a b = true <-> a = b.
Proof. destruct a, b; simpl; intuition congruence. Qed.

(** What [insertEdge] does to the nodes: nothing, or it makes the endpoint in
    the lower layer, which had no parent, the child of the other endpoint. *)
Lemma insertEdge_nodes source target graph :
  graph_nodes (insertEdge source target graph) = graph_nodes graph
  \/ exists child parent,
       graph_nodes (insertEdge source target graph)
       = map (set_parent (node_id child) (node_id parent)) (graph_nodes graph)
       /\ node_parent child = None
       /\ layer_rank (node_layer child) < layer_rank (node_layer parent)
       /\ ((getNode graph source = Some child /\ getNode graph target = Some parent)
           \/ (getNode graph target = Some child /\ getNode graph source = Some parent)).
Proof.
  unfold insertEdge.
  destruct (getNode graph source) as [s|] eqn:Es; [|now left].
  destruct (getNode graph target) as [t|] eqn:Et; [|now left].
  destruct (source =? target); [now left|].
  destruct (layer_eqb (node_layer s) (node_layer t)) eqn:El.
  - destruct (has_edge graph source target); now left.
  - destruct (layer_rank (node_layer s) <? layer_rank (node_layer t)) eqn:Er.
    + destruct (node_parent s) eqn:Ep; [now left|]. right. exists s, t.
      apply Z.ltb_lt in Er. repeat split; auto.
    + destruct (node_parent t) eqn:Ep; [now left|]. right. exists t, s.
      apply Z.ltb_ge in Er. repeat split; auto.
      assert (node_layer s <> node_layer t)
        by (intro H; apply layer_eqb_eq in H; congruence).
      destruct (node_layer s), (node_layer t); simpl in *; try lia; congruence.
Qed.

(** [insertEdge] changes the parent of a node only, and only from none. *)
Lemma insertEdge_getNode source target graph id n :
  getNode graph id = Some n ->
  exists n', getNode (insertEdge source target graph) id = Some n'
             /\ node_id n' = node_id n
             /\ node_layer n' = node_layer n
             /\ node_attributes n' = node_attributes n
             /\ (node_parent n' = node_parent n
                 \/ (node_parent n = None /\ (id = source \/ id = target))).
Proof.
  intros Hn. destruct (insertEdge_nodes source target graph)
    as [E|(child & parent & E & Hc & Hr & Hends)].
  - exists n. unfold getNode in *. rewrite E. repeat split; auto.
  - rewrite (getNode_map _ graph _ id (set_parent_id _ _) E), Hn. simpl.
    exists (set_parent (node_id child) (node_id parent) n).
    rewrite set_parent_id, set_parent_layer, set_parent_attributes.
    repeat split; auto.
    unfold set_parent. destruct (node_id n =? node_id child) eqn:Ec; [|now left].
    apply Z.eqb_eq in Ec. right.
    pose proof (getNode_id _ _ _ Hn) as Hid.
    destruct Hends as [[Hs _]|[Ht _]].
    + pose proof (getNode_id _ _ _ Hs) as Hsid.
      assert (id = source) by congruence. subst id.
      split; [congruence|now left].
    + pose proof (getNode_id _ _ _ Ht) as Htid.
      assert (id = target) by congruence. subst id.
      split; [congruence|now right].
Qed.

Lemma insertEdge_getNode_none source target graph id :
  getNode graph id = None -> getNode (insertEdge source target graph) id = None.
Proof.
  intros Hn. destruct (insertEdge_nodes source target graph)
    as [E|(child & parent & E & _)].
  - unfold getNode in *. now rewrite E.
  - now rewrite (getNode_map _ graph _ id (set_parent_id _ _) E), Hn.
Qed.

(** An edge from a place to an object without a parent makes the place the
    parent of the object. *)
Lemma insertEdge_place_object place object graph pn n :
  getNode graph place = Some pn -> node_layer pn = PLACES ->
  getNode graph object = Some n -> node_layer n = OBJECTS ->
  node_parent n = None ->
  exists n', getNode (insertEdge place object graph) object = Some n'
             /\ node_parent n' = Some place.
Proof.
  intros Hp Lp Ho Lo Pn.
  pose proof (getNode_id _ _ _ Hp) as Ip. pose proof (getNode_id _ _ _ Ho) as Io.
  assert (Hne : place <> object) by (intro; subst; congruence).
  assert (E : graph_nodes (insertEdge place object graph)
              = map (set_parent object place) (graph_nodes graph)).
  { unfold insertEdge. rewrite Hp, Ho.
    apply Z.eqb_neq in Hne. rewrite Hne, Lp, Lo. simpl. rewrite Pn. simpl.
    now rewrite Ip, Io. }
  rewrite (getNode_map _ graph _ object (set_parent_id _ _) E), Ho. simpl.
  exists (set_parent object place n). split; [reflexivity|].
  unfold set_parent. rewrite Io, Z.eqb_refl. reflexivity.
Qed.

Lemma nearest_node_In nodes query id d :
  nearest_node nodes query = Some (id, d) ->
  exists n, In n nodes /\ node_id n = id.
Proof.
  revert id d. induction nodes as [|n r IH]; intros id d; simpl; [discriminate|].
  destruct (nearest_node r query) as [[i d']|].
  - destruct (Qle_bool _ d'); intros H; inversion H; subst.
    + exists n. auto.
    + destruct (IH _ _ eq_refl) as (m & Hm & E). exists m. auto.
  - intros H. inversion H; subst. exists n. auto.
Qed.

Lemma resync_In l : forall s x,
  In x (fold_left (fun s n => set_insert (node_id n) s) l s)
  <-> In x s \/ In x (map node_id l).
Proof.
  induction l as [|n r IH]; intros s x; simpl; [tauto|].
  rewrite IH, set_insert_In. intuition.
Qed.

(** ** Anchor attachment *)

Lemma insertEdge_layers source target g g0 :
  layers_agree g g0 -> layers_agree (insertEdge source target g) g0.
Proof.
  intros H id. rewrite <- H. destruct (getNode g id) as [n|] eqn:E.
  - destruct (insertEdge_getNode source target g id n E) as (n' & E' & _ & L & _).
    rewrite E'. simpl. now rewrite L.
  - now rewrite (insertEdge_getNode_none source target g id E).
Qed.

Section Attachment.

Variable config : Config.
Variable places : list SceneGraphNode.

(** What one turn of the loop does to the graph, the active set and the
    journal. *)
Lemma attach_step_effect g s x g' s' :
  attach_step config places (g, s) x = Ok (g', s') ->
  (g' = g \/ exists place query d, g' = insertEdge place x g
                                   /\ nearest_node places query = Some (place, d))
  /\ incl (active_ s') (active_ s)
  /\ exists d, journal s' = journal s ++ d.
Proof.
  intros E. unfold attach_step in E. run_body E.
  - repeat split; [now left|apply incl_refl|exists []; now rewrite app_nil_r].
  - repeat split; [now left| |exists []; now rewrite app_nil_r].
    intros y Hy. cbn in Hy. now apply set_erase_In in Hy.
  - repeat split; [right; eauto| |].
    + intros y Hy. cbn in Hy. apply set_erase_In in Hy.
      destruct (_ && _); cbn in Hy; tauto.
    + cbn. destruct (_ && _); cbn; eexists; [rewrite <- app_assoc|]; reflexivity.
  - repeat split; [now left|apply incl_refl|exists []; now rewrite app_nil_r].
Qed.

(** Once an object has its parent and has left the active set, the rest of
    the loop leaves it so. *)
Lemma attach_loop_settled object place before known l : forall g s g' s',
  for_each (attach_step config places) l (g, s) = Ok (g', s') ->
  (exists n, getNode g object = Some n /\ node_parent n = Some place) ->
  ~ In object (active_ s) ->
  (exists d, journal s = before ++ d /\ incl known d) ->
  (exists n, getNode g' object = Some n /\ node_parent n = Some place)
  /\ ~ In object (active_ s')
  /\ (exists d, journal s' = before ++ d /\ incl known d).
Proof.
  intros g s g' s' E Hn Ha Hj.
  apply (for_each_preserves
           (fun acc : DynamicSceneGraph * State =>
              (exists n, getNode (fst acc) object = Some n /\ node_parent n = Some place)
              /\ ~ In object (active_ (snd acc))
              /\ (exists d, journal (snd acc) = before ++ d /\ incl known d))
           _ _) in E; [exact E| |auto].
  clear. intros [g s] x [g' s'] _ ((n & Hn & Hp) & Ha & (d0 & Hj & Hk)) E.
  cbn [fst snd] in *.
  destruct (attach_step_effect g s x g' s' E) as (Hg & Hact & (d1 & Hjournal)).
  repeat split.
  - destruct Hg as [->|(p & q & d & -> & _)]; [now exists n|].
    destruct (insertEdge_getNode p x g object n Hn) as (n' & E' & _ & _ & _ & [P|[P _]]).
    + exists n'. split; [assumption|congruence].
    + congruence.
  - intros H. apply Ha. now apply Hact.
  - exists (d0 ++ d1). split; [now rewrite Hjournal, Hj, app_assoc|].
    intros e He. apply in_or_app. left. now apply Hk.
Qed.

Variable graph0 : DynamicSceneGraph.

Hypothesis places_of_graph0 :
  forall query id d, nearest_node places query = Some (id, d) ->
    exists pn, getNode graph0 id = Some pn /\ node_layer pn = PLACES.

(** An object without a parent for which the query finds a place gets that
    place as its parent when its turn comes, whatever the distance. *)
Lemma attach_loop_attaches object place distance position0 before l :
  forall g s g' s',
  for_each (attach_step config places) l (g, s) = Ok (g', s') ->
  In object l ->
  (exists d, journal s = before ++ d) ->
  layers_agree g graph0 ->
  (exists n, getNode g object = Some n /\ node_layer n = OBJECTS
             /\ node_parent n = None
             /\ attributes_position (node_attributes n) = position0) ->
  nearest_node places position0 = Some (place, distance) ->
  (exists n, getNode g' object = Some n /\ node_parent n = Some place)
  /\ ~ In object (active_ s')
  /\ exists d, journal s' = before ++ d
               /\ In (AnchorAttached object place) d
               /\ (Qlt_bool 0 (neighbor_max_distance config)
                   && Qle_bool (neighbor_max_distance config) distance = true ->
                   In (DistanceWarning object place distance) d).
Proof.
  induction l as [|x r IH];
    intros g s g' s' E Hin (d0 & Hd0) Hl (n & Hn & Ln & Pn & Posn) Hq;
    [destruct Hin|].
  cbn [for_each] in E.
  destruct (attach_step config places (g, s) x) as [[g1 s1]|] eqn:E1;
    [|discriminate E]. cbn [bind] in E.
  destruct (places_of_graph0 _ _ _ Hq) as (pn0 & Hp0 & Lp0).
  assert (Hpg : exists pn, getNode g place = Some pn /\ node_layer pn = PLACES).
  { specialize (Hl place). rewrite Hp0 in Hl. simpl in Hl.
    destruct (getNode g place) as [pn|]; simpl in Hl; [|discriminate Hl].
    exists pn. split; [reflexivity|]. congruence. }
  destruct (Z.eq_dec x object) as [->|Hne].
  - (* the turn of the object *)
    clear IH Hin. destruct Hpg as (pn & Hp & Lp).
    unfold attach_step in E1. rewrite Hn in E1. cbn [require bind] in E1.
    rewrite Pn, Posn, Hq in E1. inversion E1; subst g1 s1; clear E1.
    destruct (insertEdge_place_object place object g pn n Hp Lp Hn Ln Pn)
      as (n' & Hn' & Pn').
    set (cap := Qlt_bool 0 (neighbor_max_distance config)
                && Qle_bool (neighbor_max_distance config) distance) in *.
    destruct (attach_loop_settled object place before
                ((if cap then [DistanceWarning object place distance] else [])
                   ++ [AnchorAttached object place])
                r _ _ g' s' E) as (Hres & Hact & (d & Hj & Hk)).
    + now exists n'.
    + cbn. intros H. apply set_erase_In in H. tauto.
    + exists (d0 ++ (if cap then [DistanceWarning object place distance] else [])
                ++ [AnchorAttached object place]).
      split; [|intros e He; apply in_or_app; now right].
      cbn. destruct cap; cbn; rewrite Hd0, <- !app_assoc; reflexivity.
    + repeat split; try assumption. exists d. repeat split; try assumption.
      * apply Hk. apply in_or_app. right. now left.
      * intros Hc. apply Hk. rewrite Hc. now left.
  - (* another element: the object is untouched *)
    destruct Hin as [->|Hin]; [congruence|].
    destruct (attach_step_effect g s x g1 s1 E1) as (Hg & _ & (d1 & Hd1)).
    apply (IH g1 s1 g' s' E Hin); try assumption.
    + exists (d0 ++ d1). now rewrite Hd1, Hd0, app_assoc.
    + destruct Hg as [->|(p & q & d & -> & _)]; [assumption|now apply insertEdge_layers].
    + destruct Hg as [->|(p & q & d & -> & Hnear)]; [now exists n|].
      destruct (insertEdge_getNode p x g object n Hn)
        as (n' & E' & _ & L' & A' & [P|[_ [P|P]]]).
      * exists n'. repeat split; congruence.
      * (* the other endpoint is the object itself: it would be a place *)
        exfalso. subst p.
        destruct (places_of_graph0 _ _ _ Hnear) as (qn & Hq0 & Lq0).
        specialize (Hl object). rewrite Hq0, Hn in Hl. simpl in Hl. congruence.
      * congruence.
Qed.

End Attachment.

(** ** The active set and the object layer *)

Lemma shape_map (f : SceneGraphNode -> SceneGraphNode) g g' :
  (forall n, node_id (f n) = node_id n) ->
  (forall n, node_layer (f n) = node_layer n) ->
  graph_nodes g' = map f (graph_nodes g) -> shape g' = shape g.
Proof.
  intros Hi Hl E. unfold shape. rewrite E, map_map.
  apply map_ext. intros n. now rewrite Hi, Hl.
Qed.

Lemma insertEdge_shape source target g : shape (insertEdge source target g) = shape g.
Proof.
  destruct (insertEdge_nodes source target g) as [E|(c & p & E & _)].
  - unfold shape. now rewrite E.
  - apply (shape_map _ g _ (set_parent_id _ _) (set_parent_layer _ _) E).
Qed.

Lemma deactivate_shape id g : shape (deactivate id g) = shape g.
Proof.
  unfold shape, deactivate; cbn [graph_nodes]. rewrite map_map.
  apply map_ext. intros n. now destruct (node_id n =? id).
Qed.

Lemma removeNode_shape id g x :
  In x (shape (removeNode id g)) <-> In x (shape g) /\ fst x <> id.
Proof.
  unfold shape, removeNode; cbn [graph_nodes]. rewrite map_map, !in_map_iff.
  assert (Hd : forall n, (node_id (drop_parent id n), node_layer (drop_parent id n))
                         = (node_id n, node_layer n)).
  { intros n. unfold drop_parent. destruct (node_parent n) as [p|]; [|reflexivity].
    now destruct (p =? id). }
  split.
  - intros (n & E & Hin). rewrite Hd in E. apply filter_In in Hin.
    destruct Hin as [Hin Hne]. apply negb_true_iff, Z.eqb_neq in Hne.
    subst x. split; [now exists n|assumption].
  - intros [(n & E & Hin) Hne]. exists n. rewrite Hd. split; [assumption|].
    apply filter_In. split; [assumption|].
    apply negb_true_iff, Z.eqb_neq. now subst x.
Qed.

Lemma hasNode_shape g id : hasNode g id = true <-> exists layer, In (id, layer) (shape g).
Proof.
  unfold hasNode, shape. rewrite existsb_exists. split.
  - intros (n & Hin & E). apply Z.eqb_eq in E. exists (node_layer n).
    apply in_map_iff. exists n. split; [now rewrite E|assumption].
  - intros (layer & Hin). apply in_map_iff in Hin. destruct Hin as (n & E & Hin).
    exists n. split; [assumption|]. inversion E. apply Z.eqb_refl.
Qed.

Lemma emplaceNode_shape layer id attrs g :
  shape (emplaceNode layer id attrs g)
  = if hasNode g id then shape g else shape g ++ [(id, layer)].
Proof.
  unfold emplaceNode. destruct (hasNode g id); [reflexivity|].
  unfold shape; cbn [graph_nodes]. now rewrite map_app.
Qed.

Lemma key_of_symbol s : key_of (symbol_id s) = symbol_key s.
Proof.
  unfold key_of, symbol_id.
  assert (0 < INDEX_MODULUS) by (unfold INDEX_MODULUS; lia).
  rewrite Z.div_add_l by lia.
  rewrite Z.div_small; [lia|]. apply Z.mod_pos_bound. assumption.
Qed.

Section ActiveSet.

Variable ext : Collaborators.
Variable config : Config.

(** The first three phases neither add a node nor move one to another layer,
    and leave the id sequence alone. *)
Lemma updateActiveParents_frame g st g' st' :
  updateActiveParents config g st = Ok (g', st') ->
  shape g' = shape g
  /\ next_node_id_ st' = next_node_id_ st
  /\ (forall id, In id (active_ st') -> In id (active_ st) \/ object_present g id).
Proof.
  unfold updateActiveParents. intros E.
  apply (for_each_preserves
           (fun acc : DynamicSceneGraph * State =>
              shape (fst acc) = shape g
              /\ next_node_id_ (snd acc) = next_node_id_ st
              /\ (forall id, In id (active_ (snd acc)) ->
                             In id (active_ st) \/ object_present g id)) _ _) in E;
    [exact E| |].
  - intros [g1 s1] x [g2 s2] _ (Hs & Hn & Ha) Es. cbn [fst snd] in *.
    destruct (attach_step_effect config _ g1 s1 x g2 s2 Es) as (Hg & Hact & _).
    repeat split.
    + destruct Hg as [->|(p & q & d & -> & _)]; [assumption|].
      now rewrite insertEdge_shape.
    + rewrite <- Hn. clear - Es. unfold attach_step in Es. run_body Es; try reflexivity.
      destruct (_ && _); reflexivity.
    + intros id Hid. apply Ha. now apply Hact.
  - cbn [fst snd]. repeat split; try reflexivity.
    intros id Hid. cbn in Hid. apply resync_In in Hid.
    destruct Hid as [Hid|Hid]; [now left|right].
    unfold object_present, shape. apply in_map_iff in Hid.
    destruct Hid as (n & E1 & Hin). apply filter_In in Hin. destruct Hin as [Hin L].
    apply layer_eqb_eq in L. apply in_map_iff. exists n. split; congruence.
Qed.

Lemma edge_step_frame id attrs acc other acc' :
  edge_step config id attrs acc other = Ok acc' ->
  shape (fst (fst acc')) = shape (fst (fst acc))
  /\ next_node_id_ (snd (fst acc')) = next_node_id_ (snd (fst acc))
  /\ active_ (snd (fst acc')) = active_ (snd (fst acc)).
Proof.
  destruct acc as [[g s] t], acc' as [[g' s'] t']. cbn [fst snd].
  intros E. unfold edge_step in E. run_body E;
    repeat split; try reflexivity; apply insertEdge_shape.
Qed.

Lemma addSegmentEdges_frame g st g' st' touched :
  addSegmentEdges ext config g st = Ok (g', st', touched) ->
  shape g' = shape g
  /\ next_node_id_ st' = next_node_id_ st
  /\ active_ st' = active_ st.
Proof.
  unfold addSegmentEdges. intros E.
  apply (for_each_preserves
           (fun acc : DynamicSceneGraph * State * list Z =>
              shape (fst (fst acc)) = shape g
              /\ next_node_id_ (snd (fst acc)) = next_node_id_ st
              /\ active_ (snd (fst acc)) = active_ st) _ _) in E;
    [exact E| |cbn; auto].
  intros [[g1 s1] t1] node [[g2 s2] t2] _ (Hs & Hn & Ha) Es. cbn [fst snd] in *.
  unfold segment_step in Es. run_body Es; try (repeat split; assumption).
  - repeat split; try assumption. now rewrite deactivate_shape.
  - apply (for_each_preserves
             (fun acc : DynamicSceneGraph * State * list Z =>
                shape (fst (fst acc)) = shape g
                /\ next_node_id_ (snd (fst acc)) = next_node_id_ st
                /\ active_ (snd (fst acc)) = active_ st) _ _) in Es;
      [exact Es| |cbn; auto].
    intros a0 other a1 _ (Hs1 & Hn1 & Ha1) Eo.
    destruct (edge_step_frame _ _ _ _ _ Eo) as (H1 & H2 & H3).
    repeat split; congruence.
Qed.

(** Removing the objects of a component: the nodes go and their ids leave
    the active set in the same step. *)
Lemma remove_object_effect g st object :
  (forall x, In x (shape (fst (remove_object (g, st) object)))
             <-> In x (shape g) /\ fst x <> object)
  /\ (forall id, In id (active_ (snd (remove_object (g, st) object)))
                 <-> In id (active_ st) /\ id <> object)
  /\ next_node_id_ (snd (remove_object (g, st) object)) = next_node_id_ st.
Proof.
  unfold remove_object; cbn [fst snd]. split; [|split].
  - intros x. apply removeNode_shape.
  - intros id. cbn. apply set_erase_In.
  - reflexivity.
Qed.

Lemma remove_objects_keep g st l : forall acc,
  retirement_keeps g st acc -> retirement_keeps g st (fold_left remove_object l acc).
Proof.
  intros acc H. apply fold_left_preserves; [|exact H].
  clear. intros [g1 s1] o _ (Hs & Hn & Ha & Hp).
  destruct (remove_object_effect g1 s1 o) as (Rs & Ra & Rn).
  repeat split.
  - intros x Hx. apply Rs in Hx. now apply Hs.
  - now rewrite Rn.
  - intros id Hid. apply Ra in Hid. now apply Ha.
  - intros id Hid Hpres. apply Ra in Hid. destruct Hid as [Hid Hne].
    apply Rs. split; [now apply Hp|exact Hne].
Qed.

Lemma clearActiveComponents_frame g active st :
  retirement_keeps g st (clearActiveComponents g active st).
Proof.
  unfold clearActiveComponents.
  apply fold_left_preserves; [|repeat split; auto].
  intros [g1 s1] [c info] _ H. unfold clear_step. cbn [fst].
  destruct (set_count c active); [|exact H].
  unfold retire.
  pose proof (remove_objects_keep g st (objects info)
                (g1, with_node_to_component_
                       (fold_left (fun m s => map_erase s m) (segments info)
                                  (node_to_component_ s1)) s1) H) as H1.
  destruct (fold_left remove_object (objects info) _) as [g2 s2].
  exact H1.
Qed.

Lemma materialize_keeps acc cluster acc' :
  materialize ext config acc cluster = Ok acc' ->
  materialization_keeps (fst acc) -> materialization_keeps (fst acc').
Proof.
  destruct acc as [[g s] made], acc' as [[g' s'] made'].
  unfold materialization_keeps. cbn [fst snd].
  intros E [Ha Hk]. unfold materialize in E. run_body E; try (split; assumption).
  set (id := symbol_id (next_node_id_ s)) in *.
  set (g1 := emplaceNode OBJECTS id (KhronosAttributes k) g) in *.
  assert (Hsub : forall x, In x (shape g) -> In x (shape g1)).
  { intros x Hx. unfold g1. rewrite emplaceNode_shape.
    destruct (hasNode g id); [assumption|apply in_or_app; now left]. }
  assert (Hnew : forall x, In x (shape g1) -> In x (shape g) \/ x = (id, OBJECTS)).
  { intros x Hx. unfold g1 in Hx. rewrite emplaceNode_shape in Hx.
    destruct (hasNode g id); [now left|].
    apply in_app_or in Hx. destruct Hx as [Hx|[Hx|[]]]; auto. }
  assert (Hid : object_present g1 id).
  { unfold object_present, g1. rewrite emplaceNode_shape.
    destruct (hasNode g id) eqn:Eh.
    - apply hasNode_shape in Eh. destruct Eh as (layer & Hin).
      rewrite <- (Hk id layer Hin (key_of_symbol _)). exact Hin.
    - apply in_or_app. right. now left. }
  assert (Hshape : shape g' = shape g1
                   /\ (forall x, In x (active_ s0) -> x = id \/ In x (active_ s))
                   /\ next_node_id_ s0 = next_node_id_ s).
  { destruct a0 as [[parent_id parent_active]|]; inversion Heqp; subst; clear Heqp.
    - split; [apply insertEdge_shape|].
      destruct parent_active; cbn; split; try reflexivity.
      + intros x Hx. now apply set_insert_In in Hx.
      + intros x Hx. now right.
    - split; [reflexivity|]. cbn. split; [|reflexivity].
      intros x Hx. now apply set_insert_In in Hx. }
  destruct Hshape as (Hs & Hact & Hnext). split.
  - intros x Hx. cbn in Hx. unfold object_present. rewrite Hs.
    destruct (Hact x Hx) as [->|Hold]; [exact Hid|]. apply Hsub. now apply Ha.
  - intros x layer Hx Hkey. cbn in Hkey. rewrite Hnext in Hkey. rewrite Hs in Hx.
    destruct (Hnew _ Hx) as [Hold|Hne].
    + now apply (Hk x layer).
    + now inversion Hne.
Qed.

Lemma component_step_keeps layer I acc nodes acc' :
  component_step ext config layer I acc nodes = Ok acc' ->
  materialization_keeps acc -> materialization_keeps acc'.
Proof.
  destruct acc as [g s], acc' as [g' s'].
  intros E H. unfold component_step in E.
  destruct (IdTracker.next (components_ids_ s)) as [new_id ids].
  run_body E.
  apply (for_each_preserves
           (fun acc : DynamicSceneGraph * State * list Z =>
              materialization_keeps (fst acc)) _ _) in Ea.
  - exact Ea.
  - intros a x a' _ Hk Em. exact (materialize_keeps a x a' Em Hk).
  - exact H.
Qed.

Lemma detectObjects_keeps g st g' st' :
  detectObjects ext config g st = Ok (g', st') ->
  key_reserved g st -> active_objects_present g st ->
  active_objects_present g' st' /\ key_reserved g' st'.
Proof.
  unfold detectObjects. intros E Hk Ha. run_body E.
  apply (for_each_preserves materialization_keeps _ _) in E.
  - exact E.
  - intros acc x acc' _ H Es. exact (component_step_keeps _ _ acc x acc' Es H).
  - split; assumption.
Qed.

End ActiveSet.

(** A new functor on a graph in which a place carries the first id of the
    functor's sequence.  The cycle clusters segment 1; the graph refuses the
    object node, because the id is taken, and the id is filed in the active
    set all the same: the active set ends with the id of a place. *)
Lemma taken_id_enters_active_set :
  call Scenario.ext Scenario.config Episodes.taken
       (initial_state Scenario.config)
  = Ok Episodes.after_taken
  /\ shape (fst Episodes.after_taken)
     = [(1, SEGMENTS); (Scenario.object1, PLACES)]
  /\ active_ (snd Episodes.after_taken) = [Scenario.object1]
  /\ ~ object_present (fst Episodes.after_taken) Scenario.object1
  /\ ~ claimed_active_set_invariant.
Proof.
  assert (Hno : ~ object_present (fst Episodes.after_taken) Scenario.object1).
  { unfold object_present. vm_compute. intros [H|[H|[]]]; discriminate H. }
  split; [vm_compute; reflexivity|]. split; [vm_compute; reflexivity|].
  split; [vm_compute; reflexivity|]. split; [exact Hno|].
  intros H. apply Hno.
  apply (H Scenario.ext Scenario.config Episodes.taken
           (initial_state Scenario.config)
           (fst Episodes.after_taken) (snd Episodes.after_taken)).
  - apply reachable_initial.
  - intros id [].
  - vm_compute. reflexivity.
  - vm_compute. now left.
Qed.

(** C9 (amended).  Each of the four phases, and hence a whole cycle, takes a
    state whose active set holds only ids of object nodes of the graph to such
    a state; for [detectObjects], and so for the cycle, on the condition that
    no node outside the object layer carries the key of the functor's ids.
    Retiring a component removes each of its objects from the graph and from
    the active set in one step, and the resynchronisation adds only ids of
    object nodes of the graph.  Materialization files an id in the active set
    whether or not the graph accepted the node, so it needs the condition. *)
Theorem active_set_holds_present_objects :
  (forall config g st g' st',
      updateActiveParents config g st = Ok (g', st') ->
      active_objects_present g st -> active_objects_present g' st')
  /\ (forall g st id,
         In id (resynchronised g st) -> In id (active_ st) \/ object_present g id)
  /\ (forall ext config g st g' st' touched,
         addSegmentEdges ext config g st = Ok (g', st', touched) ->
         active_objects_present g st -> active_objects_present g' st')
  /\ (forall g st object,
         ~ object_present (fst (remove_object (g, st) object)) object
         /\ ~ In object (active_ (snd (remove_object (g, st) object))))
  /\ (forall g active st,
         active_objects_present g st ->
         active_objects_present (fst (clearActiveComponents g active st))
                                (snd (clearActiveComponents g active st)))
  /\ (forall ext config g st g' st',
         detectObjects ext config g st = Ok (g', st') ->
         key_reserved g st ->
         active_objects_present g st -> active_objects_present g' st')
  /\ (forall ext config g st g' st',
         call ext config g st = Ok (g', st') ->
         key_reserved g st ->
         active_objects_present g st -> active_objects_present g' st').
Proof.
  assert (H1 : forall config g st g' st',
             updateActiveParents config g st = Ok (g', st') ->
             active_objects_present g st -> active_objects_present g' st').
  { intros config g st g' st' E Ha id Hid.
    destruct (updateActiveParents_frame config g st g' st' E) as (Hs & _ & Hact).
    unfold object_present. rewrite Hs.
    destruct (Hact id Hid) as [Hold|Hnew]; [now apply Ha|exact Hnew]. }
  assert (H2 : forall ext config g st g' st' touched,
             addSegmentEdges ext config g st = Ok (g', st', touched) ->
             active_objects_present g st -> active_objects_present g' st').
  { intros ext config g st g' st' touched E Ha id Hid.
    destruct (addSegmentEdges_frame ext config g st g' st' touched E) as (Hs & _ & Hact).
    unfold object_present. rewrite Hs. apply Ha. now rewrite <- Hact. }
  assert (H3 : forall g active st,
             active_objects_present g st ->
             active_objects_present (fst (clearActiveComponents g active st))
                                    (snd (clearActiveComponents g active st))).
  { intros g active st Ha id Hid.
    destruct (clearActiveComponents_frame g active st) as (_ & _ & Hact & Hp).
    apply Hp; [assumption|]. apply Ha. now apply Hact. }
  assert (H4 : forall ext config g st g' st',
             detectObjects ext config g st = Ok (g', st') ->
             key_reserved g st ->
             active_objects_present g st -> active_objects_present g' st').
  { intros ext config g st g' st' E Hk Ha.
    exact (proj1 (detectObjects_keeps ext config g st g' st' E Hk Ha)). }
  split; [exact H1|]. split; [|split; [exact H2|split; [|split; [exact H3|split; [exact H4|]]]]].
  - intros g st id Hid. unfold resynchronised in Hid. apply resync_In in Hid.
    destruct Hid as [Hid|Hid]; [now left|right].
    unfold object_present, shape. apply in_map_iff in Hid.
    destruct Hid as (n & E1 & Hin). apply filter_In in Hin. destruct Hin as [Hin L].
    apply layer_eqb_eq in L. apply in_map_iff. exists n. split; congruence.
  - intros g st object.
    destruct (remove_object_effect g st object) as (Rs & Ra & _). split.
    + intros H. apply Rs in H. now destruct H.
    + intros H. apply Ra in H. now destruct H.
  - intros ext config g st g' st' E Hk Ha. unfold call in E.
    destruct (updateActiveParents config g st) as [[g1 s1]|] eqn:E1;
      [|discriminate E]. cbn [bind] in E.
    destruct (addSegmentEdges ext config g1 s1) as [[[g2 s2] touched]|] eqn:E2;
      [|discriminate E]. cbn [bind] in E.
    destruct (clearActiveComponents g2 touched s2) as [g3 s3] eqn:E3.
    destruct (updateActiveParents_frame config g st g1 s1 E1) as (S1 & N1 & _).
    destruct (addSegmentEdges_frame ext config g1 s1 g2 s2 touched E2) as (S2 & N2 & _).
    pose proof (clearActiveComponents_frame g2 touched s2) as (S3 & N3 & _).
    rewrite E3 in S3, N3. cbn [fst snd] in S3, N3.
    apply (H4 ext config g3 s3 g' st' E).
    + intros id layer Hin Hkey. apply (Hk id layer).
      * rewrite <- S1, <- S2. now apply S3.
      * congruence.
    + change g3 with (fst (g3, s3)). change s3 with (snd (g3, s3)) at 2.
      rewrite <- E3. apply H3. apply (H2 ext config g1 s1 g2 s2 touched E2).
      now apply (H1 config g st g1 s1 E1).
Qed.

Lemma active_set_holds_present_objects_witness :
  active_objects_present (fst Scenario.after2) (snd Scenario.after2).
Proof.
  apply (proj2 (proj2 (proj2 (proj2 (proj2 (proj2 active_set_holds_present_objects)))))
           Scenario.ext Scenario.config Scenario.graph2 (snd Scenario.after1)
           (fst Scenario.after2) (snd Scenario.after2) scenario_cycle2).
  - intros id layer Hin Hkey. vm_compute in Hin.
    repeat (destruct Hin as [Hin|Hin];
            [inversion Hin; subst; first [reflexivity|discriminate Hkey]|]).
    destruct Hin.
  - intros id Hin. vm_compute in Hin. destruct Hin as [<-|[]].
    vm_compute. tauto.
Defined.

(** ** Connected components *)

Section ConnectedComponentsFacts.

Variable node_filter : NodeId -> bool.
Variable edge_filter : NodeId * NodeId -> result bool.
Variable edges : list (NodeId * NodeId).

(** A queued node is new to the visited set and passes the node filter. *)
Lemma enqueue_all found : forall frontier visited frontier' visited',
  fold_left (enqueue node_filter) found (frontier, visited) = (frontier', visited') ->
  incl visited visited'
  /\ forall x, In x frontier' ->
               In x frontier
               \/ (~ In x visited /\ In x visited' /\ node_filter x = true).
Proof.
  induction found as [|m r IH]; intros fr vis fr' vis' E; simpl in E.
  - inversion E; subst. split; [apply incl_refl|auto].
  - destruct (node_filter m && negb (set_count m vis)) eqn:Em.
    + apply andb_true_iff in Em. destruct Em as [Hf Hv].
      apply negb_true_iff, set_count_false in Hv.
      destruct (IH _ _ _ _ E) as [Hincl Hfr]. split.
      * intros x Hx. apply Hincl. now right.
      * intros x Hx. destruct (Hfr x Hx) as [Hin|(Hn & Hin & Hok)].
        -- apply in_app_or in Hin. destruct Hin as [Hin|[<-|[]]]; [now left|].
           right. repeat split; auto. apply Hincl. now left.
        -- right. repeat split; auto. intros H. apply Hn. now right.
    + exact (IH _ _ _ _ E).
Qed.

Lemma breadthFirstSearch_spec fuel : forall frontier visited component visited' component',
  breadthFirstSearch node_filter edge_filter edges fuel frontier visited component
  = Ok (visited', component') ->
  incl visited visited'
  /\ forall x, In x component' ->
               In x component \/ In x frontier
               \/ (~ In x visited /\ In x visited' /\ node_filter x = true).
Proof.
  induction fuel as [|fuel IH]; intros fr vis comp vis' comp' E; simpl in E.
  - inversion E; subst. split; [apply incl_refl|auto].
  - destruct fr as [|n rest].
    + inversion E; subst. split; [apply incl_refl|auto].
    + destruct (siblings edge_filter n edges) as [found|]; [|discriminate E].
      cbn [bind] in E.
      destruct (fold_left (enqueue node_filter) found (rest, vis)) as [fr1 vis1] eqn:Ef.
      destruct (enqueue_all found _ _ _ _ Ef) as [Hincl1 Hfr1].
      destruct (IH _ _ _ _ _ E) as [Hincl Hcomp]. split.
      * intros x Hx. apply Hincl. now apply Hincl1.
      * intros x Hx. destruct (Hcomp x Hx) as [Hin|[Hin|(Hn & Hin & Hok)]].
        -- apply in_app_or in Hin. destruct Hin as [Hin|[<-|[]]]; [now left|].
           right. left. now left.
        -- destruct (Hfr1 x Hin) as [Hr|(Hn & Hv & Hok)].
           ++ right. left. now right.
           ++ right. right. repeat split; auto.
        -- right. right. repeat split; auto.
Qed.

(** The groups are pairwise disjoint, and every member of a group passes the
    node filter and was not visited before. *)
Lemma components_from_spec fuel nodes : forall visited groups,
  components_from node_filter edge_filter edges fuel nodes visited = Ok groups ->
  ForallOrdPairs disjoint groups
  /\ Forall (fun group => forall x, In x group ->
                                    ~ In x visited /\ node_filter x = true) groups.
Proof.
  induction nodes as [|n rest IH]; intros vis groups E; simpl in E.
  - inversion E; subst. split; constructor.
  - destruct (set_count n vis || negb (node_filter n)) eqn:Es; [exact (IH _ _ E)|].
    apply orb_false_iff in Es. destruct Es as [Hv Hf].
    apply set_count_false in Hv. apply negb_false_iff in Hf.
    destruct (breadthFirstSearch _ _ _ fuel [n] (n :: vis) []) as [[vis' comp]|] eqn:Eb;
      [|discriminate E]. cbn [bind] in E.
    destruct (components_from _ _ _ fuel rest vis') as [others|] eqn:Eo;
      [|discriminate E]. cbn [bind] in E. inversion E; subst; clear E.
    destruct (breadthFirstSearch_spec _ _ _ _ _ _ Eb) as [Hincl Hcomp].
    destruct (IH _ _ Eo) as [Hpairs Hothers].
    assert (Hmember : forall x, In x comp ->
                                ~ In x vis /\ node_filter x = true /\ In x vis').
    { intros x Hx. destruct (Hcomp x Hx) as [[]|[[<-|[]]|(Hn & Hin & Hok)]].
      - repeat split; auto. apply Hincl. now left.
      - repeat split; auto. intros H. apply Hn. now right. }
    split.
    + constructor; [|exact Hpairs].
      rewrite Forall_forall in *. intros other Ho x Hx Hxo.
      destruct (Hothers other Ho x Hxo) as [Hn _].
      apply Hn. now apply Hmember.
    + constructor.
      * intros x Hx. destruct (Hmember x Hx) as (H1 & H2 & _). now split.
      * rewrite Forall_forall in *. intros other Ho x Hx.
        destruct (Hothers other Ho x Hx) as [Hn Hok]. split; [|exact Hok].
        intros H. apply Hn. apply Hincl. now right.
Qed.

End ConnectedComponentsFacts.

Lemma getConnectedComponents_spec layer edges node_filter edge_filter groups :
  getConnectedComponents layer edges node_filter edge_filter = Ok groups ->
  ForallOrdPairs disjoint groups
  /\ Forall (fun group => forall x, In x group -> node_filter x = true) groups.
Proof.
  unfold getConnectedComponents. intros E.
  destruct (components_from_spec _ _ _ _ _ _ _ E) as [Hp Hf]. split; [exact Hp|].
  rewrite Forall_forall in *. intros group Hg x Hx. now apply (Hf group Hg x).
Qed.

Lemma isNodeActive_true id node_to_component invalid :
  isNodeActive id node_to_component invalid = true
  <-> ~ In id (map fst node_to_component) /\ ~ In id invalid.
Proof.
  unfold isNodeActive.
  rewrite andb_true_iff, !negb_true_iff, map_count_false, set_count_false.
  reflexivity.
Qed.

(** ** Eligibility: clustered and ignored segments *)

Lemma insertEdge_inactive source target g id :
  inactive g id -> inactive (insertEdge source target g) id.
Proof.
  intros H n Hin Hid.
  destruct (insertEdge_nodes source target g) as [E|(c & p & E & _)];
    rewrite E in Hin; [now apply H|].
  apply in_map_iff in Hin. destruct Hin as (m & <- & Hm).
  rewrite set_parent_attributes. apply H; [assumption|].
  now rewrite set_parent_id in Hid.
Qed.

Lemma clear_is_active_false a : attributes_is_active (clear_is_active a) = false.
Proof. now destruct a. Qed.

Lemma deactivate_inactive id g other :
  inactive g other -> inactive (deactivate id g) other.
Proof.
  intros H n Hin Hid. unfold deactivate in Hin; cbn [graph_nodes] in Hin.
  apply in_map_iff in Hin. destruct Hin as (m & <- & Hm).
  destruct (node_id m =? id); cbn [node_attributes node_id] in *.
  - apply clear_is_active_false.
  - now apply H.
Qed.

Lemma deactivate_makes_inactive id g : inactive (deactivate id g) id.
Proof.
  intros n Hin Hid. unfold deactivate in Hin; cbn [graph_nodes] in Hin.
  apply in_map_iff in Hin. destruct Hin as (m & <- & Hm).
  destruct (node_id m =? id) eqn:E; cbn [node_attributes node_id] in *.
  - apply clear_is_active_false.
  - apply Z.eqb_neq in E. contradiction.
Qed.

Section Eligibility.

Variable ext : Collaborators.
Variable config : Config.

Lemma edge_step_keeps st0 id attrs acc other acc' :
  ~ In id (ignored_ st0) ->
  edge_step config id attrs acc other = Ok acc' ->
  edge_detection_keeps st0 acc -> edge_detection_keeps st0 acc'.
Proof.
  destruct acc as [[g s] t], acc' as [[g' s'] t'].
  unfold edge_detection_keeps. cbn [fst snd].
  intros Hid E (Hc & Hm & Hi & Hincl & Hnew & (d & Hj & Hd)).
  unfold edge_step in E. run_body E; try (repeat split; try assumption; eauto; fail).
  all: repeat split; try assumption.
  all: try (intros i Hin; destruct (Hnew i Hin) as [?|[? ?]];
            [now left|right; split; [assumption|now apply insertEdge_inactive]]).
  all: exists (d ++ [SegmentEdge id (node_id other)]); split;
    [cbn; now rewrite Hj, app_assoc|];
    intros x y Hin; apply in_app_or in Hin; destruct Hin as [Hin|[Hin|[]]];
    [now apply (Hd x y)|inversion Hin; subst; assumption].
Qed.

Lemma segment_step_keeps st0 layer acc node acc' :
  segment_step ext config layer acc node = Ok acc' ->
  edge_detection_keeps st0 acc -> edge_detection_keeps st0 acc'.
Proof.
  destruct acc as [[g s] t], acc' as [[g' s'] t'].
  intros E H. unfold segment_step in E. run_body E; try exact H.
  - (* the segment is ignored from now on *)
    unfold edge_detection_keeps in *. cbn [fst snd] in *.
    destruct H as (Hc & Hm & Hi & Hincl & Hnew & (d & Hj & Hd)).
    repeat split; try assumption.
    + intros i Hin. cbn. apply set_insert_In. right. now apply Hincl.
    + intros i Hin. cbn in Hin. apply set_insert_In in Hin.
      destruct Hin as [->|Hin].
      * right. split; [|apply deactivate_makes_inactive].
        rewrite <- Hm. now apply map_count_false.
      * destruct (Hnew i Hin) as [?|[? ?]]; [now left|right].
        split; [assumption|now apply deactivate_inactive].
    + exists (d ++ [SegmentSkipped (node_id node)
                      (getBestScore ext (rowwise_mean (semantic_feature a)))]).
      split; [cbn; now rewrite Hj, app_assoc|].
      intros x y Hin. apply in_app_or in Hin. destruct Hin as [Hin|[Hin|[]]];
        [now apply (Hd x y)|discriminate Hin].
  - (* the segment is compared with the whole layer *)
    assert (Hid : ~ In (node_id node) (ignored_ st0)).
    { destruct H as (_ & _ & _ & Hincl & _). cbn [fst snd] in Hincl.
      apply set_count_false in Heqb. intros Hin. apply Heqb. now apply Hincl. }
    apply (for_each_preserves (edge_detection_keeps st0) _ _) in E; [exact E| |exact H].
    intros a0 other a1 _ Hk Eo. exact (edge_step_keeps st0 _ _ a0 other a1 Hid Eo Hk).
Qed.

Lemma addSegmentEdges_keeps g st g' st' touched :
  addSegmentEdges ext config g st = Ok (g', st', touched) ->
  edge_detection_keeps st (g', st', touched).
Proof.
  unfold addSegmentEdges. intros E.
  apply (for_each_preserves (edge_detection_keeps st) _ _) in E; [exact E| |].
  - intros a node a' _ Hk Es. exact (segment_step_keeps st _ a node a' Es Hk).
  - unfold edge_detection_keeps. cbn [fst snd]. repeat split; try apply incl_refl.
    + intros i Hin. now left.
    + exists []. split; [now rewrite app_nil_r|]. intros a b [].
Qed.


End Eligibility.

(** ** The invariant of the component registry *)

Lemma erase_segments_keys {V : Type} segs : forall (m : list (Z * V)) k,
  In k (map fst (fold_left (fun m s => map_erase s m) segs m))
  <-> In k (map fst m) /\ ~ In k segs.
Proof.
  induction segs as [|s r IH]; intros m k; simpl; [tauto|].
  rewrite IH, map_erase_keys. intuition.
Qed.

Lemma assign_all_keys {V : Type} (v : V) nodes : forall (m : list (Z * V)) k,
  In k (map fst (fold_left (fun m n => map_assign n v m) nodes m))
  <-> In k nodes \/ In k (map fst m).
Proof.
  induction nodes as [|n r IH]; intros m k; simpl; [tauto|].
  rewrite IH, map_assign_keys. intuition.
Qed.

Lemma same_registry_invariant a b :
  same_registry a b -> registry_invariant b -> registry_invariant a.
Proof.
  intros (Hc & Hm & Hi) (H1 & H2 & H3).
  unfold registry_invariant, components_disjoint, segments_clustered,
    ignored_unclustered. rewrite Hc, Hm, Hi. auto.
Qed.

Section Registry.

Variable ext : Collaborators.
Variable config : Config.

Lemma updateActiveParents_registry g st g' st' :
  updateActiveParents config g st = Ok (g', st') -> same_registry st' st.
Proof.
  unfold updateActiveParents. intros E.
  apply (for_each_preserves
           (fun acc : DynamicSceneGraph * State => same_registry (snd acc) st) _ _) in E;
    [exact E| |repeat split].
  intros [g1 s1] x [g2 s2] _ H Es. cbn [snd] in *.
  unfold attach_step in Es. run_body Es; try exact H.
  destruct (_ && _); exact H.
Qed.

Lemma remove_objects_registry l : forall acc,
  same_registry (snd (fold_left remove_object l acc)) (snd acc)
  /\ components_ids_ (snd (fold_left remove_object l acc)) = components_ids_ (snd acc).
Proof.
  induction l as [|o r IH]; intros [g s]; simpl; [repeat split|].
  destruct (IH (removeNode o g, with_active_ (set_erase o (active_ s)) s)) as [H1 H2].
  split; assumption.
Qed.

(** One retirement: the component leaves the registry and its segments
    leave the map. *)
Lemma retire_effect g s c info :
  components_ (snd (retire (g, s) (c, info))) = map_erase c (components_ s)
  /\ node_to_component_ (snd (retire (g, s) (c, info)))
     = fold_left (fun m x => map_erase x m) (segments info) (node_to_component_ s)
  /\ ignored_ (snd (retire (g, s) (c, info))) = ignored_ s.
Proof.
  unfold retire.
  pose proof (remove_objects_registry (objects info)
                (g, with_node_to_component_
                      (fold_left (fun m x => map_erase x m) (segments info)
                                 (node_to_component_ s)) s)) as [(Hc & Hm & Hi) _].
  destruct (fold_left remove_object (objects info) _) as [g1 s1].
  cbn [snd components_ node_to_component_ ignored_ record with_components_
       with_components_ids_ with_node_to_component_] in *.
  rewrite Hc. repeat split; assumption.
Qed.

Lemma clear_loop_effect active l : forall g s,
  let s' := snd (fold_left (clear_step active) l (g, s)) in
  ignored_ s' = ignored_ s
  /\ (forall e, In e (components_ s') ->
                In e (components_ s)
                /\ forall e0, In e0 l -> fst e0 = fst e ->
                              set_count (fst e) active = false)
  /\ (forall k, In k (map fst (node_to_component_ s'))
                <-> In k (map fst (node_to_component_ s))
                    /\ forall e0, In e0 l -> set_count (fst e0) active = true ->
                                  ~ In k (segments (snd e0))).
Proof.
  induction l as [|[c info] r IH]; intros g s; cbn zeta.
  - simpl. repeat split; try tauto.
  - cbn [fold_left].
    replace (clear_step active (g, s) (c, info))
      with (if set_count c active then retire (g, s) (c, info) else (g, s))
      by reflexivity.
    destruct (set_count c active) eqn:Ec.
    + destruct (retire_effect g s c info) as (Rc & Rm & Ri).
      destruct (retire (g, s) (c, info)) as [g1 s1]. cbn [snd] in *.
      destruct (IH g1 s1) as (Hi & Hcomp & Hkeys).
      split; [congruence|]. split.
      * intros e He. apply Hcomp in He. destruct He as [He Hrest].
        rewrite Rc in He. apply map_erase_In in He. destruct He as [He Hne].
        split; [exact He|].
        intros e0 [<-|Hin] Hk; [cbn in Hk; congruence|now apply (Hrest e0)].
      * intros k. rewrite Hkeys, Rm, erase_segments_keys. split.
        -- intros [[Hk Hseg] Hall]. split; [exact Hk|].
           intros e0 [<-|Hin] Ha; [exact Hseg|now apply (Hall e0)].
        -- intros [Hk Hall]. split; [split; [exact Hk|]|].
           ++ apply (Hall (c, info)); [now left|exact Ec].
           ++ intros e0 Hin. apply Hall. now right.
    + destruct (IH g s) as (Hi & Hcomp & Hkeys).
      split; [exact Hi|]. split.
      * intros e He. apply Hcomp in He. destruct He as [He Hrest].
        split; [exact He|].
        intros e0 [<-|Hin] Hk; [cbn in Hk; now rewrite <- Hk|now apply (Hrest e0)].
      * intros k. rewrite Hkeys. split.
        -- intros [Hk Hall]. split; [exact Hk|].
           intros e0 [<-|Hin] Ha; [cbn in Ha; congruence|now apply (Hall e0)].
        -- intros [Hk Hall]. split; [exact Hk|].
           intros e0 Hin. apply Hall. now right.
Qed.

Lemma clearActiveComponents_invariant g active st :
  registry_invariant st ->
  registry_invariant (snd (clearActiveComponents g active st)).
Proof.
  intros (Hd & Hs & Hi). unfold clearActiveComponents.
  destruct (clear_loop_effect active (components_ st) g st) as (Ei & Hcomp & Hkeys).
  set (st' := snd (fold_left (clear_step active) (components_ st) (g, st))) in *.
  repeat split.
  - intros c1 i1 c2 i2 H1 H2 Hne.
    apply Hcomp in H1, H2. destruct H1 as [H1 _], H2 as [H2 _].
    exact (Hd c1 i1 c2 i2 H1 H2 Hne).
  - intros c i s Hin Hseg. destruct (Hcomp _ Hin) as [Hold Hkeep].
    apply Hkeys. split; [exact (Hs c i s Hold Hseg)|].
    intros [c0 i0] Hin0 Ha Hseg0. cbn [fst snd] in *.
    assert (Hne : c <> c0).
    { intros ->. specialize (Hkeep (c0, i0) Hin0 eq_refl). cbn in Hkeep. congruence. }
    exact (Hd c i c0 i0 Hold Hin0 Hne s Hseg Hseg0).
  - intros s Hin Hk. rewrite Ei in Hin. apply Hkeys in Hk. destruct Hk as [Hk _].
    exact (Hi s Hin Hk).
Qed.

Lemma materialize_registry acc cluster acc' :
  materialize ext config acc cluster = Ok acc' ->
  same_registry (snd (fst acc')) (snd (fst acc))
  /\ components_ids_ (snd (fst acc')) = components_ids_ (snd (fst acc)).
Proof.
  destruct acc as [[g s] made], acc' as [[g' s'] made']. cbn [fst snd].
  intros E. unfold materialize in E. run_body E; try (repeat split; fail).
  destruct a0 as [[parent_id parent_active]|]; inversion Heqp; subst;
    [destruct parent_active|]; repeat split.
Qed.

(** One new component: its segments are the group, they become keys of the
    map, and the registry gains at most the new entry. *)
Lemma component_step_effect layer I g s nodes g' s' :
  component_step ext config layer I (g, s) nodes = Ok (g', s') ->
  ignored_ s' = ignored_ s
  /\ (forall k, In k (map fst (node_to_component_ s'))
                <-> In k nodes \/ In k (map fst (node_to_component_ s)))
  /\ exists new_id info,
       segments info = nodes
       /\ forall e, In e (components_ s') -> e = (new_id, info) \/ In e (components_ s).
Proof.
  intros E. unfold component_step in E.
  destruct (IdTracker.next (components_ids_ s)) as [new_id ids].
  run_body E.
  apply (for_each_preserves
           (fun acc : DynamicSceneGraph * State * list Z =>
              components_ (snd (fst acc)) = components_ s
              /\ node_to_component_ (snd (fst acc))
                 = fold_left (fun m n => map_assign n new_id m) nodes
                             (node_to_component_ s)
              /\ ignored_ (snd (fst acc)) = ignored_ s) _ _) in Ea.
  - cbn [fst snd] in Ea. destruct Ea as (Hc & Hm & Hi).
    split; [exact Hi|]. split.
    + intros k. cbn. rewrite Hm. apply assign_all_keys.
    + exists new_id,
        {| segments := nodes; objects := l;
           clusters := clusterAgglomerative ext layer nodes I |}.
      split; [reflexivity|].
      intros e He. cbn in He. apply map_emplace_In in He. rewrite Hc in He. exact He.
  - intros a x a' _ (Hc & Hm & Hi) Em.
    destruct (materialize_registry a x a' Em) as [(Rc & Rm & Ri) _].
    repeat split; congruence.
  - cbn. repeat split.
Qed.

Lemma detect_loop_invariant layer I groups : forall g s g' s',
  for_each (component_step ext config layer I) groups (g, s) = Ok (g', s') ->
  ForallOrdPairs disjoint groups ->
  Forall (fun group => forall x, In x group ->
            ~ In x (map fst (node_to_component_ s)) /\ ~ In x (ignored_ s)) groups ->
  registry_invariant s -> registry_invariant s'.
Proof.
  induction groups as [|nodes rest IH]; intros g s g' s' E Hp Hf Hinv;
    cbn [for_each] in E.
  - inversion E; now subst.
  - destruct (component_step ext config layer I (g, s) nodes) as [[g1 s1]|] eqn:E1;
      [|discriminate E]. cbn [bind] in E.
    destruct (component_step_effect layer I g s nodes g1 s1 E1)
      as (Hi & Hkeys & new_id & info & Hseg & Hcomp).
    inversion Hp as [|? ? Hfirst Hrest]; subst.
    inversion Hf as [|? ? Hnodes Hothers]; subst.
    destruct Hinv as (Hd & Hs & Hign).
    apply (IH g1 s1 g' s' E Hrest).
    + rewrite Forall_forall in *. intros other Ho x Hx.
      destruct (Hothers other Ho x Hx) as [Hk Hig]. rewrite Hi. split; [|exact Hig].
      intros H. apply Hkeys in H. destruct H as [H|H]; [|contradiction].
      exact (Hfirst other Ho x H Hx).
    + repeat split.
      * intros c1 i1 c2 i2 H1 H2 Hne x Hx1 Hx2.
        destruct (Hcomp _ H1) as [N1|O1], (Hcomp _ H2) as [N2|O2].
        -- congruence.
        -- inversion N1; subst. destruct (Hnodes x Hx1) as [Hk _].
           apply Hk. exact (Hs c2 i2 x O2 Hx2).
        -- inversion N2; subst. destruct (Hnodes x Hx2) as [Hk _].
           apply Hk. exact (Hs c1 i1 x O1 Hx1).
        -- exact (Hd c1 i1 c2 i2 O1 O2 Hne x Hx1 Hx2).
      * intros c i x Hin Hx. apply Hkeys. destruct (Hcomp _ Hin) as [N|O].
        -- inversion N; subst. now left.
        -- right. exact (Hs c i x O Hx).
      * intros x Hx Hk. rewrite Hi in Hx. apply Hkeys in Hk.
        destruct Hk as [Hk|Hk]; [|exact (Hign x Hx Hk)].
        destruct (Hnodes x Hk) as [_ Hig]. contradiction.
Qed.

Lemma detectObjects_invariant g st g' st' :
  detectObjects ext config g st = Ok (g', st') ->
  registry_invariant st -> registry_invariant st'.
Proof.
  unfold detectObjects. intros E Hinv. run_body E.
  destruct (getConnectedComponents_spec _ _ _ _ _ Ea) as [Hp Hf].
  apply (detect_loop_invariant _ _ a g _ g' st' E Hp).
  - rewrite Forall_forall in *. intros group Hg x Hx.
    apply isNodeActive_true. exact (Hf group Hg x Hx).
  - exact (same_registry_invariant _ st ltac:(repeat split) Hinv).
Qed.

Lemma addSegmentEdges_invariant g st g' st' touched :
  addSegmentEdges ext config g st = Ok (g', st', touched) ->
  registry_invariant st -> registry_invariant st'.
Proof.
  intros E (Hd & Hs & Hi).
  destruct (addSegmentEdges_keeps ext config g st g' st' touched E)
    as (Hc & Hm & _ & _ & Hnew & _). cbn [fst snd] in *.
  unfold registry_invariant, components_disjoint, segments_clustered,
    ignored_unclustered. rewrite Hc, Hm. repeat split; try assumption.
  intros s Hin. destruct (Hnew s Hin) as [Hold|[Hk _]]; [now apply Hi|exact Hk].
Qed.

Lemma call_invariant g st g' st' :
  call ext config g st = Ok (g', st') ->
  registry_invariant st -> registry_invariant st'.
Proof.
  intros E Hinv. unfold call in E.
  destruct (updateActiveParents config g st) as [[g1 s1]|] eqn:E1;
    [|discriminate E]. cbn [bind] in E.
  destruct (addSegmentEdges ext config g1 s1) as [[[g2 s2] touched]|] eqn:E2;
    [|discriminate E]. cbn [bind] in E.
  destruct (clearActiveComponents g2 touched s2) as [g3 s3] eqn:E3.
  apply (detectObjects_invariant g3 s3 g' st' E).
  change s3 with (snd (g3, s3)). rewrite <- E3.
  apply clearActiveComponents_invariant.
  apply (addSegmentEdges_invariant g1 s1 g2 s2 touched E2).
  exact (same_registry_invariant _ _ (updateActiveParents_registry g st g1 s1 E1) Hinv).
Qed.

Lemma reachable_invariant st :
  reachable ext config st -> registry_invariant st.
Proof.
  intros H. induction H as [|g st g' st' _ IH E].
  - split; [|split].
    + intros c1 i1 c2 i2 H. destruct H.
    + intros c i s H. destruct H.
    + intros s H. destruct H.
  - exact (call_invariant g st g' st' E IH).
Qed.

End Registry.

Section Cycle.

Variable ext : Collaborators.
Variable config : Config.

Lemma detectObjects_ignored g st g' st' :
  detectObjects ext config g st = Ok (g', st') -> ignored_ st' = ignored_ st.
Proof.
  unfold detectObjects. intros E. run_body E.
  apply (for_each_preserves
           (fun acc : DynamicSceneGraph * State => ignored_ (snd acc) = ignored_ st)
           _ _) in E; [exact E| |reflexivity].
  intros [g1 s1] x [g2 s2] _ H Es. cbn [snd] in *.
  destruct (component_step_effect ext config _ _ g1 s1 x g2 s2 Es) as (Hi & _).
  congruence.
Qed.


(** The events of a cycle, phase by phase; the edge events start at
    segments that were not ignored when the cycle began. *)
Lemma call_journal g st g' st' :
  call ext config g st = Ok (g', st') ->
  exists attached edges retired groups made,
    journal st'
    = journal st ++ attached ++ edges ++ retired ++ GroupsDiscovered groups :: made
    /\ Forall (fun e => phase_of e = Attachment) attached
    /\ Forall (fun e => phase_of e = EdgeDetection) edges
    /\ Forall (fun e => phase_of e = Retirement) retired
    /\ Forall (fun e => phase_of e = Materialization) made
    /\ forall a b, In (SegmentEdge a b) edges -> ~ In a (ignored_ st).
Proof.
  intros E. unfold call in E.
  destruct (updateActiveParents config g st) as [[g1 s1]|] eqn:E1;
    [|discriminate E]. cbn [bind] in E.
  destruct (addSegmentEdges ext config g1 s1) as [[[g2 s2] touched]|] eqn:E2;
    [|discriminate E]. cbn [bind] in E.
  destruct (clearActiveComponents g2 touched s2) as [g3 s3] eqn:E3.
  destruct (updateActiveParents_journal config g st g1 s1 E1) as (d1 & J1 & F1).
  destruct (addSegmentEdges_journal ext config g1 s1 g2 s2 touched E2) as (d2 & J2 & F2).
  destruct (clearActiveComponents_journal g2 touched s2 g3 s3 E3) as (d3 & J3 & F3).
  destruct (detectObjects_journal ext config g3 s3 g' st' E)
    as (groups & made & J4 & F4).
  destruct (updateActiveParents_registry config g st g1 s1 E1) as (_ & _ & I1).
  destruct (addSegmentEdges_keeps ext config g1 s1 g2 s2 touched E2)
    as (_ & _ & _ & _ & _ & (d2' & J2' & Hsrc)). cbn [fst snd] in J2'.
  assert (d2' = d2) by (rewrite J2 in J2'; now apply app_inv_head in J2').
  subst d2'.
  exists d1, d2, d3, groups, made. repeat split; try assumption.
  - rewrite J4, J3, J2, J1. now rewrite <- !app_assoc.
  - intros a b Hin. rewrite <- I1. exact (Hsrc a b Hin).
Qed.

End Cycle.
(** C1 (amended).  The events of one cycle come in this order: the anchor
    attachments of the objects that were active on entry; then the edge
    detection; then the retirement of the touched components; then the
    discovery of the new connected groups, once; then clustering and
    materialization.  Retirement completes before discovery and discovery
    before clustering and materialization; anchor attachment runs first, so
    an object is attached no earlier than the cycle after the one that
    materialized it. *)
Theorem call_phase_order :
  forall ext config graph st graph' st',
    call ext config graph st = Ok (graph', st') ->
    exists attached edges retired groups made,
      journal st'
      = journal st ++ attached ++ edges ++ retired ++ GroupsDiscovered groups :: made
      /\ Forall (fun e => phase_of e = Attachment) attached
      /\ Forall (fun e => phase_of e = EdgeDetection) edges
      /\ Forall (fun e => phase_of e = Retirement) retired
      /\ Forall (fun e => phase_of e = Materialization) made.
Proof.
  intros ext config graph st graph' st' E.
  destruct (call_journal ext config graph st graph' st' E)
    as (d1 & d2 & d3 & groups & made & J & F1 & F2 & F3 & F4 & _).
  exists d1, d2, d3, groups, made. repeat split; assumption.
Qed.

Lemma call_phase_order_witness :
  exists attached edges retired groups made,
    journal (snd Scenario.after2)
    = journal (snd Scenario.after1)
      ++ attached ++ edges ++ retired ++ GroupsDiscovered groups :: made
    /\ Forall (fun e => phase_of e = Attachment) attached
    /\ Forall (fun e => phase_of e = EdgeDetection) edges
    /\ Forall (fun e => phase_of e = Retirement) retired
    /\ Forall (fun e => phase_of e = Materialization) made.
Proof.
  exact (call_phase_order Scenario.ext Scenario.config Scenario.graph2
           (snd Scenario.after1) (fst Scenario.after2) (snd Scenario.after2)
           scenario_cycle2).
Defined.

(** C7.  In every state the functor can reach, whatever graphs the cycles
    were run on, two live components with different ids have no segment in
    common. *)
Theorem live_components_disjoint :
  forall ext config st,
    reachable ext config st ->
    forall c1 i1 c2 i2,
      map_find c1 (components_ st) = Some i1 ->
      map_find c2 (components_ st) = Some i2 ->
      c1 <> c2 ->
      forall s, In s (segments i1) -> ~ In s (segments i2).
Proof.
  intros ext config st Hr c1 i1 c2 i2 H1 H2 Hne.
  destruct (reachable_invariant ext config st Hr) as (Hd & _ & _).
  apply (Hd c1 i1 c2 i2); [now apply map_find_In|now apply map_find_In|exact Hne].
Qed.

(** After the second cycle of the scenario, components 0 and 1 hold the
    segments 1 and 4: segment 1, of component 0, is not in component 1. *)
Lemma live_components_disjoint_witness :
  ~ In 1 (segments {| segments := [4]; objects := [Scenario.object2];
                      clusters := [[4]] |}).
Proof.
  apply (live_components_disjoint Scenario.ext Scenario.config
           (snd Scenario.after2) scenario_reachable2
           0 {| segments := [1]; objects := [Scenario.object1]; clusters := [[1]] |}
           1 {| segments := [4]; objects := [Scenario.object2]; clusters := [[4]] |});
    [vm_compute; reflexivity|vm_compute; reflexivity|discriminate|now left].
Defined.




(** ** Anchor attachment returns *)

Lemma getNode_present g id layer :
  In (id, layer) (shape g) -> exists n, getNode g id = Some n.
Proof.
  intros H. unfold shape in H. apply in_map_iff in H. destruct H as (m & E & Hin).
  unfold getNode. destruct (find _ (graph_nodes g)) as [n|] eqn:Ef; [now exists n|].
  apply (find_none _ _ Ef) in Hin. inversion E; subst.
  now rewrite Z.eqb_refl in Hin.
Qed.

Lemma getLayerNode_present g id layer :
  In (id, layer) (shape g) -> exists n, getLayerNode layer g id = Some n.
Proof.
  intros H. unfold shape in H. apply in_map_iff in H. destruct H as (m & E & Hin).
  inversion E; subst.
  unfold getLayerNode. destruct (find _ (getLayer _ g)) as [n|] eqn:Ef; [now exists n|].
  assert (Hm : In m (getLayer (node_layer m) g)).
  { apply filter_In. split; [assumption|]. now apply layer_eqb_eq. }
  apply (find_none _ _ Ef) in Hm. now rewrite Z.eqb_refl in Hm.
Qed.

Lemma getNode_shape g id n :
  getNode g id = Some n -> In (id, node_layer n) (shape g).
Proof.
  intros H. unfold shape. apply in_map_iff. exists n.
  split; [now rewrite (getNode_id _ _ _ H)|exact (getNode_In _ _ _ H)].
Qed.

Lemma graph_wf_shape g g' : shape g' = shape g -> graph_wf g = true -> graph_wf g' = true.
Proof.
  unfold graph_wf. intros E H.
  replace (map node_id (graph_nodes g')) with (map fst (shape g'))
    by (unfold shape; rewrite map_map; reflexivity).
  rewrite E. unfold shape. now rewrite map_map.
Qed.

(** In a well-formed graph an id has one layer. *)
Lemma shape_functional g id l1 l2 :
  graph_wf g = true -> In (id, l1) (shape g) -> In (id, l2) (shape g) -> l1 = l2.
Proof.
  intros Hwf H1 H2. unfold shape in *.
  apply in_map_iff in H1, H2.
  destruct H1 as (n1 & E1 & I1), H2 as (n2 & E2 & I2).
  inversion E1 as [[Hid1 Hl1]]. inversion E2 as [[Hid2 Hl2]].
  pose proof (getNode_listed g n1 Hwf I1) as G1.
  pose proof (getNode_listed g n2 Hwf I2) as G2.
  rewrite Hid1 in G1. rewrite Hid2 in G2. congruence.
Qed.

(** The new parent [insertEdge] may give a node is the other endpoint, and
    lies in a higher layer. *)
Lemma insertEdge_parent source target g id n :
  getNode g id = Some n ->
  exists n', getNode (insertEdge source target g) id = Some n'
             /\ (node_parent n' = node_parent n
                 \/ exists other,
                      layer_rank (node_layer n) < layer_rank (node_layer other)
                      /\ ((id = source /\ getNode g target = Some other
                           /\ node_parent n' = Some target)
                          \/ (id = target /\ getNode g source = Some other
                              /\ node_parent n' = Some source))).
Proof.
  intros Hn. destruct (insertEdge_nodes source target g)
    as [E|(child & parent & E & Hc & Hr & Hends)].
  - exists n. unfold getNode in *. rewrite E. auto.
  - rewrite (getNode_map _ g _ id (set_parent_id _ _) E), Hn. simpl.
    exists (set_parent (node_id child) (node_id parent) n). split; [reflexivity|].
    unfold set_parent. destruct (node_id n =? node_id child) eqn:Ec; [|now left].
    apply Z.eqb_eq in Ec. right. cbn [node_parent].
    pose proof (getNode_id _ _ _ Hn) as Hid.
    destruct Hends as [[Hs Ht]|[Ht Hs]].
    + pose proof (getNode_id _ _ _ Hs). pose proof (getNode_id _ _ _ Ht).
      assert (id = source) by congruence. subst id.
      assert (n = child) by congruence. subst n.
      exists parent. split; [assumption|]. left. repeat split; congruence.
    + pose proof (getNode_id _ _ _ Hs). pose proof (getNode_id _ _ _ Ht).
      assert (id = target) by congruence. subst id.
      assert (n = child) by congruence. subst n.
      exists parent. split; [assumption|]. right. repeat split; congruence.
Qed.

Lemma insertEdge_resolvable place x g ids :
  graph_wf g = true -> In (place, PLACES) (shape g) ->
  resolvable g ids -> resolvable (insertEdge place x g) ids.
Proof.
  intros Hwf Hp Hres id Hin. destruct (Hres id Hin) as [Hpres Hpar].
  rewrite insertEdge_shape. split; [exact Hpres|].
  intros n' p Hn' Pp.
  destruct Hpres as (layer & Hl). destruct (getNode_present g id layer Hl) as (n & Hn).
  destruct (insertEdge_parent place x g id n Hn) as (m & Hm & Hcase).
  rewrite Hn' in Hm. inversion Hm; subst m; clear Hm.
  destruct Hcase as [Same|(other & Hrank & [(-> & Ho & Pn)|(-> & Ho & Pn)])].
  - apply (Hpar n p Hn). congruence.
  - (* the place would be the child *)
    exfalso. pose proof (getNode_shape g place n Hn) as Hs.
    rewrite (shape_functional g place _ _ Hwf Hs Hp) in Hrank.
    destruct (node_layer other); simpl in Hrank; lia.
  - assert (p = place) by congruence. now subst p.
Qed.

Section AttachmentReturns.

Variable config : Config.
Variable places : list SceneGraphNode.

Lemma attach_loop_returns l : forall g s,
  graph_wf g = true ->
  (forall n, In n places -> In (node_id n, PLACES) (shape g)) ->
  resolvable g l ->
  exists r, for_each (attach_step config places) l (g, s) = Ok r.
Proof.
  induction l as [|x r IH]; intros g s Hwf Hpl Hres; [now exists (g, s)|].
  cbn [for_each].
  assert (Hrest : forall g1, shape g1 = shape g -> resolvable g1 r ->
                             forall s1, exists res,
                               for_each (attach_step config places) r (g1, s1) = Ok res).
  { intros g1 Hs Hr1 s1. apply IH; [exact (graph_wf_shape g g1 Hs Hwf)| |exact Hr1].
    intros n Hn. rewrite Hs. now apply Hpl. }
  assert (Hr : resolvable g r) by (intros id Hin; apply Hres; now right).
  destruct (Hres x (or_introl eq_refl)) as [(layer & Hl) Hpar].
  destruct (getNode_present g x layer Hl) as (n & Hn).
  unfold attach_step at 1. rewrite Hn. cbn [require bind].
  destruct (node_parent n) as [p|] eqn:Pn.
  - destruct (getLayerNode_present g p PLACES (Hpar n p Hn Pn)) as (pn & Hpn).
    rewrite Hpn. cbn [require bind].
    destruct (attributes_is_active (node_attributes pn)); cbn [bind];
      now apply Hrest.
  - destruct (nearest_node places _) as [[place d]|] eqn:Hq; cbn [bind];
      [|now apply Hrest].
    apply Hrest; [apply insertEdge_shape|].
    apply insertEdge_resolvable; try assumption.
    destruct (nearest_node_In _ _ _ _ Hq) as (pn & Hin & <-). now apply Hpl.
Qed.

End AttachmentReturns.

Lemma updateActiveParents_returns config g st :
  graph_wf g = true ->
  resolvable g (resynchronised g st) ->
  exists g' st', updateActiveParents config g st = Ok (g', st').
Proof.
  intros Hwf Hres. unfold updateActiveParents.
  destruct (attach_loop_returns config (getLayer PLACES g) (resynchronised g st) g
              (with_active_ (resynchronised g st) st) Hwf) as ([g' st'] & E).
  - intros n Hn. apply filter_In in Hn. destruct Hn as [Hin L].
    apply layer_eqb_eq in L. unfold shape. apply in_map_iff. exists n.
    split; [now rewrite L|assumption].
  - exact Hres.
  - exists g', st'. exact E.
Qed.

(** C4.  On a well-formed graph whose active ids can be looked up,
    [updateActiveParents] returns, and an object node without a parent for
    which the nearest-neighbour query finds a place has that place as its
    parent afterwards and is not in the active set; the cycle's events
    contain the attachment.  This holds for every configured maximum distance
    and every distance of the place found: when the cap is positive and
    reached, the events contain the warning as well, and the attachment still
    takes place. *)
Theorem nearest_anchor_attached_despite_cap :
  forall config graph st object node place distance,
    graph_wf graph = true ->
    resolvable graph (resynchronised graph st) ->
    getNode graph object = Some node ->
    node_layer node = OBJECTS ->
    node_parent node = None ->
    nearest_node (getLayer PLACES graph)
                 (attributes_position (node_attributes node))
    = Some (place, distance) ->
    exists graph' st',
      updateActiveParents config graph st = Ok (graph', st')
      /\ option_map node_parent (getNode graph' object) = Some (Some place)
      /\ ~ In object (active_ st')
      /\ exists d, journal st' = journal st ++ d
                   /\ In (AnchorAttached object place) d
                   /\ (Qlt_bool 0 (neighbor_max_distance config)
                       && Qle_bool (neighbor_max_distance config) distance = true ->
                       In (DistanceWarning object place distance) d).
Proof.
  intros config graph st object node place distance Hwf Hres Hn Ln Pn Hq.
  destruct (updateActiveParents_returns config graph st Hwf Hres) as (graph' & st' & E).
  exists graph', st'. split; [exact E|].
  unfold updateActiveParents in E.
  destruct (attach_loop_attaches config (getLayer PLACES graph) graph
              ltac:(intros query id d H;
                    destruct (nearest_node_In _ _ _ _ H) as (pn & Hin & <-);
                    apply filter_In in Hin; destruct Hin as [Hin L];
                    exists pn; split;
                    [now apply getNode_listed|now apply layer_eqb_eq])
              object place distance
              (attributes_position (node_attributes node)) (journal st)
              _ _ _ graph' st' E)
    as ((n' & Hn' & Pn') & Hact & Hj).
  - cbn. apply resync_In. right. apply in_map_iff. exists node. split.
    + now apply getNode_id in Hn.
    + apply filter_In. split; [now apply getNode_In in Hn|].
      rewrite Ln. reflexivity.
  - exists []. cbn. now rewrite app_nil_r.
  - intros id. reflexivity.
  - exists node. auto.
  - exact Hq.
  - repeat split; try assumption. rewrite Hn'. simpl. now rewrite Pn'.
Qed.

(** In the scenario the place found lies at squared distance 300, far beyond
    the configured cap of 1, and the object is attached to it all the same. *)
Lemma nearest_anchor_attached_despite_cap_witness :
  exists graph' st',
    updateActiveParents Scenario.config Scenario.graph2 (snd Scenario.after1)
    = Ok (graph', st')
    /\ option_map node_parent (getNode graph' Scenario.object1) = Some (Some 100)
    /\ ~ In Scenario.object1 (active_ st')
    /\ exists d, journal st' = journal (snd Scenario.after1) ++ d
                 /\ In (AnchorAttached Scenario.object1 100) d
                 /\ (Qlt_bool 0 (neighbor_max_distance Scenario.config)
                     && Qle_bool (neighbor_max_distance Scenario.config) 300 = true ->
                     In (DistanceWarning Scenario.object1 100 300) d).
Proof.
  apply (nearest_anchor_attached_despite_cap Scenario.config Scenario.graph2
           (snd Scenario.after1) Scenario.object1 Scenario.object1_node 100 300);
    try (vm_compute; reflexivity).
  intros id Hin. vm_compute in Hin. destruct Hin as [<-|[]]. split.
  - exists OBJECTS. vm_compute. tauto.
  - intros n p Hn Pn. vm_compute in Hn. inversion Hn; subst. discriminate Pn.
Defined.

(** * Further properties *)

(** ** The identifier pool in use *)

(** X1.  On a pool whose free list is empty, releasing an id below the
    counter and asking for an id gives that id back and restores the pool. *)
Theorem release_then_next_round_trip :
  forall s id,
    IdTracker.unused_ s = [] -> id < IdTracker.idx_ s ->
    IdTracker.next (IdTracker.markFree id s) = (id, s).
Proof.
  intros [c u] id Hu Hid. simpl in *. subst u.
  unfold IdTracker.markFree. simpl. apply Z.ltb_lt in Hid. now rewrite Hid.
Qed.

Lemma release_then_next_round_trip_witness :
  IdTracker.next (IdTracker.markFree 3 (IdTracker.mk 10 []))
  = (3, IdTracker.mk 10 []).
Proof.
  apply (release_then_next_round_trip (IdTracker.mk 10 []) 3);
    [reflexivity|reflexivity].
Defined.

(** The counter never moves back, and everything a call sequence hands out
    or leaves in the free list lies below the counter it ends with. *)
Lemma run_below_counter ops : forall s,
  IdTracker.wf s ->
  IdTracker.idx_ s + Z.of_nat (length ops) < SIZE_MODULUS ->
  IdTracker.wf (snd (IdTracker.run ops s))
  /\ IdTracker.idx_ s <= IdTracker.idx_ (snd (IdTracker.run ops s))
  /\ IdTracker.idx_ (snd (IdTracker.run ops s))
     <= IdTracker.idx_ s + Z.of_nat (length ops)
  /\ Forall (fun p => fst p < IdTracker.idx_ (snd (IdTracker.run ops s)))
            (fst (IdTracker.run ops s)).
Proof.
  induction ops as [|o r IH]; intros s Hwf Hb.
  - simpl. repeat split; try lia; [apply Hwf|apply Hwf|constructor].
  - change (length (o :: r)) with (S (length r)) in *. destruct o as [|i].
    + cbn [IdTracker.run].
      destruct (IdTracker.next s) as [i0 s1] eqn:En.
      assert (H1 : IdTracker.wf s1
                   /\ IdTracker.idx_ s <= IdTracker.idx_ s1 <= IdTracker.idx_ s + 1
                   /\ i0 < IdTracker.idx_ s1).
      { unfold IdTracker.next in En. destruct Hwf as [H0 Hq].
        destruct (IdTracker.unused_ s) as [|y q] eqn:Eu; inversion En; subst;
          cbn [IdTracker.idx_ IdTracker.unused_].
        - rewrite IdTrackerFacts.size_succ_small by lia.
          split; [split; cbn; [lia|constructor]|split; lia].
        - inversion Hq; subst.
          split; [split; cbn; [lia|assumption]|split; lia]. }
      destruct H1 as (Hwf1 & Hidx & Hi0).
      destruct (IH s1 Hwf1 ltac:(lia)) as (W & L & U & F).
      destruct (IdTracker.run r s1) as [l s2]. cbn [fst snd] in *.
      split; [exact W|]. split; [lia|]. split; [lia|].
      constructor; [cbn; lia|exact F].
    + cbn [IdTracker.run].
      assert (Hi : IdTracker.idx_ (IdTracker.markFree i s) = IdTracker.idx_ s)
        by (unfold IdTracker.markFree; destruct (i <? IdTracker.idx_ s); reflexivity).
      destruct (IH (IdTracker.markFree i s) (IdTrackerFacts.wf_markFree i s Hwf)
                   ltac:(lia)) as (W & L & U & F).
      split; [exact W|]. split; [lia|]. split; [lia|exact F].
Qed.

(** X2.  In a call sequence on a pool built by the constructor, as long as
    the 64-bit counter does not wrap: the counter never falls below its start,
    every id left in the free list lies below the final counter, and so does
    every id that was handed out. *)
Theorem pool_ids_below_counter :
  forall start ops,
    0 <= start ->
    start + Z.of_nat (length ops) < SIZE_MODULUS ->
    start <= IdTracker.idx_ (snd (IdTracker.run ops (IdTracker.make start)))
    /\ Forall (fun i => i < IdTracker.idx_ (snd (IdTracker.run ops (IdTracker.make start))))
              (IdTracker.unused_ (snd (IdTracker.run ops (IdTracker.make start))))
    /\ Forall (fun p => fst p < IdTracker.idx_ (snd (IdTracker.run ops (IdTracker.make start))))
              (fst (IdTracker.run ops (IdTracker.make start))).
Proof.
  intros start ops H0 Hb.
  destruct (run_below_counter ops (IdTracker.make start)
              ltac:(split; simpl; [assumption|constructor]) Hb)
    as ([_ Hq] & L & _ & F).
  repeat split; assumption.
Qed.

Lemma pool_ids_below_counter_witness :
  5 <= IdTracker.idx_
         (snd (IdTracker.run [IdTracker.Next; IdTracker.MarkFree 5; IdTracker.MarkFree 9]
                             (IdTracker.make 5)))
  /\ Forall (fun i => i < IdTracker.idx_
                           (snd (IdTracker.run
                                   [IdTracker.Next; IdTracker.MarkFree 5; IdTracker.MarkFree 9]
                                   (IdTracker.make 5))))
            (IdTracker.unused_
               (snd (IdTracker.run
                       [IdTracker.Next; IdTracker.MarkFree 5; IdTracker.MarkFree 9]
                       (IdTracker.make 5))))
  /\ Forall (fun p => fst p < IdTracker.idx_
                                (snd (IdTracker.run
                                        [IdTracker.Next; IdTracker.MarkFree 5; IdTracker.MarkFree 9]
                                        (IdTracker.make 5))))
            (fst (IdTracker.run
                    [IdTracker.Next; IdTracker.MarkFree 5; IdTracker.MarkFree 9]
                    (IdTracker.make 5))).
Proof.
  apply (pool_ids_below_counter 5
           [IdTracker.Next; IdTracker.MarkFree 5; IdTracker.MarkFree 9]);
    [lia|vm_compute; reflexivity].
Defined.

(** ** The connectivity predicate in single precision *)

Lemma v3_le_leq a b : v3_le a b = true <-> v3_leq a b.
Proof.
  destruct a as [[ax ay] az], b as [[bx by_] bz].
  unfold v3_le, v3_all2, v3_leq. rewrite !andb_true_iff, !Qle_bool_iff. tauto.
Qed.

Lemma call_rounded_exact config lhs rhs :
  call_rounded (fun x => x) config lhs rhs = OverlapIntersection.call config lhs rhs.
Proof.
  unfold call_rounded, OverlapIntersection.call.
  assert (H : forall a, round3 (fun x => x) a = a) by (now intros [[x y] z]).
  now rewrite !H.
Qed.

Lemma round3_sub_leq rnd a b m :
  monotone rnd -> v3_leq a b ->
  v3_le (round3 rnd (v3_sub a m)) (round3 rnd (v3_sub b m)) = true.
Proof.
  intros Hm H. apply v3_le_leq.
  destruct a as [[ax ay] az], b as [[bx by_] bz], m as [[mx my] mz].
  destruct H as (Hx & Hy & Hz). cbn.
  split; [|split]; apply Hm; unfold Qminus; apply Qplus_le_l; assumption.
Qed.

Lemma to_grid_monotone : monotone Episodes.to_grid.
Proof.
  intros a b H. unfold Episodes.to_grid. rewrite <- Zle_Qle.
  now apply Qceiling_resp_le.
Qed.

(** Rounding can make the predicate hold for boxes that are apart: with the
    coarse rounding, a box from 1 to 2 and a box from -10 to 1/2 are
    reported as overlapping, which they are not in exact arithmetic: the
    converse of the theorem below does not hold under rounding. *)
Lemma rounding_connects_separate_boxes :
  call_rounded Episodes.to_grid {| OverlapIntersection.tolerance := 0 |}
    (cube_attributes 1 2) (cube_attributes (-10) (1 # 2)) = true
  /\ OverlapIntersection.call {| OverlapIntersection.tolerance := 0 |}
       (cube_attributes 1 2) (cube_attributes (-10) (1 # 2)) = false.
Proof. split; vm_compute; reflexivity. Qed.

(** X3.  Boxes that overlap or touch are never missed, whatever the rounding
    of the subtraction: when the minimum corner of each box is component-wise
    at most the maximum corner of the other, the predicate holds, for every
    rounding that keeps the order of the reals (finite values assumed). *)
Theorem interleaving_boxes_are_connected :
  forall rnd config lhs rhs,
    monotone rnd ->
    v3_leq (box_min (bounding_box lhs)) (box_max (bounding_box rhs)) ->
    v3_leq (box_min (bounding_box rhs)) (box_max (bounding_box lhs)) ->
    call_rounded rnd config lhs rhs = true.
Proof.
  intros rnd config lhs rhs Hm H1 H2. unfold call_rounded.
  rewrite (round3_sub_leq rnd _ _ _ Hm H1), (round3_sub_leq rnd _ _ _ Hm H2).
  reflexivity.
Qed.

Lemma interleaving_boxes_are_connected_witness :
  call_rounded Episodes.to_grid {| OverlapIntersection.tolerance := 0 |}
    (cube_attributes 0 1) (cube_attributes (1 # 2) (3 # 2)) = true.
Proof.
  apply (interleaving_boxes_are_connected Episodes.to_grid
           {| OverlapIntersection.tolerance := 0 |}
           (cube_attributes 0 1) (cube_attributes (1 # 2) (3 # 2))
           to_grid_monotone).
  - cbn. split; [|split]; discriminate.
  - cbn. split; [|split]; discriminate.
Defined.

(** ** Attribute merging: edge cases *)

Lemma Qdiv_one (x : Q) : (x / inject_Z (Z.of_nat 1))%Q = x.
Proof.
  destruct x as [n d]. unfold Qdiv, Qmult, Qinv, inject_Z; simpl.
  now rewrite Z.mul_1_r, Pos.mul_1_r.
Qed.

Lemma v3_div_one (a : Vector3) : v3_div a 1 = a.
Proof. destruct a as [[x y] z]. unfold v3_div. now rewrite !Qdiv_one. Qed.

Lemma m_div_one (m : Matrix) : m_div m 1 = m.
Proof.
  unfold m_div. rewrite <- (map_id m) at 2. apply map_ext. intros r.
  rewrite <- (map_id r) at 2. apply map_ext. intros x. apply Qdiv_one.
Qed.


(** X4.  [getMergedAttributes] returns the null pointer for the empty list
    and for no other list. *)
Theorem merged_attributes_null_iff_empty :
  forall rule g nodes,
    getMergedAttributes rule g nodes = Ok None <-> nodes = [].
Proof.
  intros rule g nodes. split; [|intros ->; reflexivity].
  destruct nodes as [|first rest]; [reflexivity|]. intros E. exfalso.
  unfold getMergedAttributes in E.
  destruct (getNode g first) as [n|]; [|discriminate E]. cbn [require bind] in E.
  destruct (as_khronos (node_attributes n)) as [k|]; [|discriminate E].
  cbn [bind] in E.
  destruct (for_each (merge_step rule g) rest _) as [m|]; discriminate E.
Qed.

(** X5.  For a single segment the merge returns the segment's own
    attributes with the feature reduced to its row-wise mean: the position,
    the flag, the box and the payload are unchanged, and the merge rule is
    not consulted. *)
Theorem merged_attributes_of_one_segment :
  forall rule g id node attrs,
    getNode g id = Some node ->
    node_attributes node = KhronosAttributes attrs ->
    getMergedAttributes rule g [id]
    = Ok (Some {| position := position attrs;
                  is_active := is_active attrs;
                  semantic_feature := rowwise_mean (semantic_feature attrs);
                  bounding_box := bounding_box attrs;
                  auxiliary := auxiliary attrs |}).
Proof.
  intros rule g id node attrs Hn Ha. unfold getMergedAttributes.
  rewrite Hn. cbn [require bind]. rewrite Ha. cbn [as_khronos bind for_each].
  cbn [position is_active semantic_feature bounding_box auxiliary length].
  now rewrite v3_div_one, m_div_one.
Qed.

Lemma merged_attributes_of_one_segment_witness :
  getMergedAttributes (mergeObjectAttributes Scenario.ext) Scenario.graph1 [1]
  = Ok (Some {| position := (0%Q, 0%Q, 0%Q);
                is_active := true;
                semantic_feature := rowwise_mean [[1%Q; 1%Q]];
                bounding_box := {| box_min := (0%Q, 0%Q, 0%Q); box_max := (1%Q, 1%Q, 1%Q) |};
                auxiliary := [1] |}).
Proof.
  apply (merged_attributes_of_one_segment (mergeObjectAttributes Scenario.ext)
           Scenario.graph1 1 (Scenario.segment 1 0 1 1)
           {| position := (0%Q, 0%Q, 0%Q); is_active := true;
              semantic_feature := [[1%Q; 1%Q]];
              bounding_box := {| box_min := (0%Q, 0%Q, 0%Q); box_max := (1%Q, 1%Q, 1%Q) |};
              auxiliary := [1] |});
    reflexivity.
Defined.


(** ** Parent selection: what is returned *)

Lemma member_parents_sound g nodes : forall parents,
  member_parents g nodes = Ok parents ->
  (forall p stable, In (p, stable) parents ->
     exists id n pn, In id nodes /\ getNode g id = Some n /\ node_parent n = Some p
                     /\ getNode g p = Some pn
                     /\ attributes_is_active (node_attributes pn) = negb stable)
  /\ (parents = [] ->
      forall id, In id nodes -> exists n, getNode g id = Some n /\ node_parent n = None).
Proof.
  induction nodes as [|id rest IH]; intros parents E; simpl in E.
  - inversion E; subst. split; [intros ? ? []|intros _ ? []].
  - destruct (getNode g id) as [n|] eqn:Hn; [|discriminate E]. cbn [require bind] in E.
    destruct (node_parent n) as [p0|] eqn:Pn.
    + destruct (getNode g p0) as [pn|] eqn:Hp; [|discriminate E].
      cbn [require bind] in E.
      destruct (member_parents g rest) as [others|]; [|discriminate E].
      cbn [bind] in E. inversion E; subst; clear E.
      destruct (IH others eq_refl) as [Hs _]. split; [|discriminate].
      intros p stable [H|H].
      * inversion H; subst. exists id, n, pn. rewrite negb_involutive.
        repeat split; auto. now left.
      * destruct (Hs p stable H) as (i & m & pm & Hi & R).
        exists i, m, pm. split; [now right|exact R].
    + destruct (IH parents E) as [Hs He]. split.
      * intros p stable H. destruct (Hs p stable H) as (i & m & pm & Hi & R).
        exists i, m, pm. split; [now right|exact R].
      * intros Hnil i [<-|Hi]; [now exists n|now apply He].
Qed.

Lemma getBestParent_preferred g nodes :
  getBestParent g nodes
  = (parents <- member_parents g nodes ;; Ok (preferred_parent parents)).
Proof.
  unfold getBestParent. rewrite parent_step_collects.
  destruct (member_parents g nodes) as [parents|]; simpl; [|reflexivity].
  unfold preferred_parent, stable_parents, volatile_parents.
  rewrite !find_first_of_filter.
  destruct (filter (fun p => snd p) parents) as [|s ?]; simpl; [|reflexivity].
  destruct (filter (fun p => negb (snd p)) parents) as [|v ?]; reflexivity.
Qed.

Lemma preferred_parent_sound parents :
  match preferred_parent parents with
  | Some (p, active) => In (p, negb active) parents
  | None => parents = []
  end.
Proof.
  unfold preferred_parent.
  destruct (find (fun p => snd p) parents) as [[p s]|] eqn:Ef.
  - apply find_some in Ef. destruct Ef as [Hin Hs]. simpl in *. now subst.
  - destruct (find (fun p => negb (snd p)) parents) as [[p s]|] eqn:Ev.
    + apply find_some in Ev. destruct Ev as [Hin Hs]. simpl in *.
      apply negb_true_iff in Hs. now subst.
    + destruct parents as [|[p s] r]; [reflexivity|]. exfalso.
      pose proof (find_none _ _ Ef (p, s) (or_introl eq_refl)) as H1.
      pose proof (find_none _ _ Ev (p, s) (or_introl eq_refl)) as H2.
      simpl in *. now destruct s.
Qed.

(** X7.  What [getBestParent] returns is the parent of one of the members,
    a node of the graph, and the flag it returns is that node's active flag;
    it returns nothing only when every member is without a parent. *)
Theorem best_parent_is_a_member_parent :
  forall g nodes,
    match getBestParent g nodes with
    | Ok (Some (p, active)) =>
        exists id n pn,
          In id nodes /\ getNode g id = Some n /\ node_parent n = Some p
          /\ getNode g p = Some pn
          /\ attributes_is_active (node_attributes pn) = active
    | Ok None =>
        forall id, In id nodes ->
          exists n, getNode g id = Some n /\ node_parent n = None
    | Fatal => True
    end.
Proof.
  intros g nodes. rewrite getBestParent_preferred.
  destruct (member_parents g nodes) as [parents|] eqn:E; simpl; [|exact I].
  destruct (member_parents_sound g nodes parents E) as [Hs He].
  pose proof (preferred_parent_sound parents) as Hp.
  destruct (preferred_parent parents) as [[p active]|].
  - destruct (Hs p (negb active) Hp) as (i & n & pn & Hi & Hn & Pn & Hpn & Ha).
    exists i, n, pn. rewrite negb_involutive in Ha. repeat split; assumption.
  - exact (He Hp).
Qed.

Lemma member_parents_returns g nodes :
  Forall (parent_resolves g) nodes -> exists parents, member_parents g nodes = Ok parents.
Proof.
  induction nodes as [|id rest IH]; intros H; [now exists []|].
  inversion H as [|? ? (n & Hn & Hr) Hrest]; subst.
  destruct (IH Hrest) as (others & Eo). simpl. rewrite Hn. cbn [require bind].
  destruct (node_parent n) as [p|] eqn:Pn; [|now exists others].
  destruct (Hr p eq_refl) as (pn & Hpn). rewrite Hpn. cbn [require bind].
  rewrite Eo. cbn [bind]. eauto.
Qed.

Lemma member_parents_reads g nodes : forall parents,
  member_parents g nodes = Ok parents -> Forall (parent_resolves g) nodes.
Proof.
  induction nodes as [|id rest IH]; intros parents E; [constructor|].
  simpl in E.
  destruct (getNode g id) as [n|] eqn:Hn; [|discriminate E]. cbn [require bind] in E.
  destruct (node_parent n) as [p|] eqn:Pn.
  - destruct (getNode g p) as [pn|] eqn:Hp; [|discriminate E].
    cbn [require bind] in E.
    destruct (member_parents g rest) as [others|] eqn:Eo; [|discriminate E].
    constructor; [|exact (IH others eq_refl)].
    exists n. split; [exact Hn|]. intros q Hq.
    assert (q = p) by congruence. subst q. now exists pn.
  - constructor; [|exact (IH parents E)].
    exists n. split; [exact Hn|]. intros q Hq. congruence.
Qed.

(** X8.  [getBestParent] aborts exactly when a member is missing from the
    graph or the parent of a member is. *)
Theorem best_parent_abort_iff_dangling :
  forall g nodes,
    getBestParent g nodes = Fatal <-> ~ Forall (parent_resolves g) nodes.
Proof.
  intros g nodes. rewrite getBestParent_preferred. split.
  - intros E H. destruct (member_parents_returns g nodes H) as (parents & Ep).
    rewrite Ep in E. discriminate E.
  - intros H. destruct (member_parents g nodes) as [parents|] eqn:Ep; [|reflexivity].
    exfalso. apply H. exact (member_parents_reads g nodes parents Ep).
Qed.

(** ** Anchor attachment: what stays active *)

Lemma getLayerNode_map (f : SceneGraphNode -> SceneGraphNode) layer g g' id :
  (forall n, node_id (f n) = node_id n) ->
  (forall n, node_layer (f n) = node_layer n) ->
  graph_nodes g' = map f (graph_nodes g) ->
  getLayerNode layer g' id = option_map f (getLayerNode layer g id).
Proof.
  intros Hi Hl E. unfold getLayerNode, getLayer. rewrite E. clear E.
  induction (graph_nodes g) as [|n r IH]; simpl; [reflexivity|].
  rewrite Hl. destruct (layer_eqb (node_layer n) layer); simpl; [|exact IH].
  rewrite Hi. destruct (node_id n =? id); [reflexivity|exact IH].
Qed.

Lemma insertEdge_getLayerNode source target layer g id n :
  getLayerNode layer g id = Some n ->
  exists n', getLayerNode layer (insertEdge source target g) id = Some n'
             /\ node_attributes n' = node_attributes n.
Proof.
  intros Hn. destruct (insertEdge_nodes source target g) as [E|(c & p & E & _)].
  - exists n. unfold getLayerNode, getLayer in *. rewrite E. auto.
  - rewrite (getLayerNode_map _ layer g _ id (set_parent_id _ _)
               (set_parent_layer _ _) E), Hn. simpl.
    eexists. split; [reflexivity|apply set_parent_attributes].
Qed.

Lemma nearest_node_none nodes query : nearest_node nodes query = None -> nodes = [].
Proof.
  destruct nodes as [|n r]; [reflexivity|]. simpl.
  destruct (nearest_node r query) as [[i d]|]; [destruct (Qle_bool _ d)|]; discriminate.
Qed.

Section Awaiting.

Variable config : Config.
Variable places : list SceneGraphNode.

(** An element that is still in the active set after its own turn awaits an
    anchor. *)
Lemma attach_step_keeps_awaiting g s x g1 s1 :
  attach_step config places (g, s) x = Ok (g1, s1) ->
  In x (active_ s1) -> awaits_anchor places g1 x.
Proof.
  intros E Hin. unfold attach_step in E.
  destruct (getNode g x) as [n|] eqn:Hn; [|discriminate E]. cbn [require bind] in E.
  destruct (node_parent n) as [p|] eqn:Pn.
  - destruct (getLayerNode PLACES g p) as [pn|] eqn:Hp; [|discriminate E].
    cbn [require bind] in E.
    destruct (attributes_is_active (node_attributes pn)) eqn:Ha;
      inversion E; subst; clear E.
    + exists n. split; [exact Hn|]. rewrite Pn. now exists pn.
    + cbn in Hin. apply set_erase_In in Hin. now destruct Hin.
  - destruct (nearest_node places _) as [[place d]|] eqn:Hq;
      inversion E; subst; clear E.
    + cbn in Hin. apply set_erase_In in Hin. now destruct Hin.
    + exists n. split; [exact Hn|]. rewrite Pn.
      exact (nearest_node_none _ _ Hq).
Qed.

(** The turn of one element erases no other element. *)
Lemma attach_step_erases_own g s x g1 s1 id :
  attach_step config places (g, s) x = Ok (g1, s1) ->
  id <> x -> In id (active_ s) -> In id (active_ s1).
Proof.
  intros E Hne Hin. unfold attach_step in E. run_body E; try assumption.
  - cbn. apply set_erase_In. now split.
  - cbn. apply set_erase_In. split; [|exact Hne]. destruct (_ && _); exact Hin.
Qed.

(** A parent, once set, and the attributes of a place are not changed by a
    turn of the loop. *)
Lemma attach_step_keeps_parent g s x g1 s1 id n p :
  attach_step config places (g, s) x = Ok (g1, s1) ->
  getNode g id = Some n -> node_parent n = Some p ->
  exists n1, getNode g1 id = Some n1 /\ node_parent n1 = Some p.
Proof.
  intros E Hn Pn.
  destruct (attach_step_effect config places g s x g1 s1 E) as (Hg & _ & _).
  destruct Hg as [->|(pl & q & d & -> & _)]; [now exists n|].
  destruct (insertEdge_getNode pl x g id n Hn) as (n' & E' & _ & _ & _ & [P|[P _]]).
  - exists n'. split; [assumption|congruence].
  - congruence.
Qed.

Lemma attach_step_keeps_place g s x g1 s1 p pn :
  attach_step config places (g, s) x = Ok (g1, s1) ->
  getLayerNode PLACES g p = Some pn ->
  exists pn1, getLayerNode PLACES g1 p = Some pn1
              /\ node_attributes pn1 = node_attributes pn.
Proof.
  intros E Hp.
  destruct (attach_step_effect config places g s x g1 s1 E) as (Hg & _ & _).
  destruct Hg as [->|(pl & q & d & -> & _)]; [now exists pn|].
  now apply insertEdge_getLayerNode.
Qed.

Lemma attach_step_keeps_waiting g s x g1 s1 id :
  attach_step config places (g, s) x = Ok (g1, s1) ->
  awaits_anchor places g id -> awaits_anchor places g1 id.
Proof.
  intros E (n & Hn & Hw).
  destruct (node_parent n) as [p|] eqn:Pn.
  - destruct Hw as (pn & Hp & Ha).
    destruct (attach_step_keeps_parent g s x g1 s1 id n p E Hn Pn) as (n1 & Hn1 & Pn1).
    destruct (attach_step_keeps_place g s x g1 s1 p pn E Hp) as (pn1 & Hp1 & A1).
    exists n1. split; [exact Hn1|]. rewrite Pn1. exists pn1. split; [exact Hp1|].
    now rewrite A1.
  - destruct (attach_step_effect config places g s x g1 s1 E) as (Hg & _ & _).
    destruct Hg as [->|(pl & q & d & _ & Hq)].
    + exists n. split; [exact Hn|]. now rewrite Pn.
    + subst places. discriminate Hq.
Qed.

Lemma attach_loop_shrinks l : forall g s g' s',
  for_each (attach_step config places) l (g, s) = Ok (g', s') ->
  incl (active_ s') (active_ s).
Proof.
  intros g s g' s' E.
  apply (for_each_preserves
           (fun acc : DynamicSceneGraph * State => incl (active_ (snd acc)) (active_ s))
           _ _) in E; [exact E| |apply incl_refl].
  intros [g1 s1] x [g2 s2] _ H Es. cbn [snd] in *.
  destruct (attach_step_effect config places g1 s1 x g2 s2 Es) as (_ & Hact & _).
  intros id Hid. apply H. now apply Hact.
Qed.

Lemma attach_loop_keeps_waiting l id : forall g s g' s',
  for_each (attach_step config places) l (g, s) = Ok (g', s') ->
  awaits_anchor places g id -> awaits_anchor places g' id.
Proof.
  intros g s g' s' E H.
  apply (for_each_preserves
           (fun acc : DynamicSceneGraph * State => awaits_anchor places (fst acc) id)
           _ _) in E; [exact E| |exact H].
  intros [g1 s1] x [g2 s2] _ Hw Es. cbn [fst] in *.
  exact (attach_step_keeps_waiting g1 s1 x g2 s2 id Es Hw).
Qed.

Lemma attach_loop_keeps_parent l id p : forall g s g' s',
  for_each (attach_step config places) l (g, s) = Ok (g', s') ->
  (exists n, getNode g id = Some n /\ node_parent n = Some p) ->
  exists n', getNode g' id = Some n' /\ node_parent n' = Some p.
Proof.
  intros g s g' s' E H.
  apply (for_each_preserves
           (fun acc : DynamicSceneGraph * State =>
              exists n, getNode (fst acc) id = Some n /\ node_parent n = Some p)
           _ _) in E; [exact E| |exact H].
  intros [g1 s1] x [g2 s2] _ (n & Hn & Pn) Es. cbn [fst] in *.
  exact (attach_step_keeps_parent g1 s1 x g2 s2 id n p Es Hn Pn).
Qed.

Lemma attach_loop_keeps_place l p flag : forall g s g' s',
  for_each (attach_step config places) l (g, s) = Ok (g', s') ->
  (exists pn, getLayerNode PLACES g p = Some pn
              /\ attributes_is_active (node_attributes pn) = flag) ->
  exists pn', getLayerNode PLACES g' p = Some pn'
              /\ attributes_is_active (node_attributes pn') = flag.
Proof.
  intros g s g' s' E H.
  apply (for_each_preserves
           (fun acc : DynamicSceneGraph * State =>
              exists pn, getLayerNode PLACES (fst acc) p = Some pn
                         /\ attributes_is_active (node_attributes pn) = flag)
           _ _) in E; [exact E| |exact H].
  intros [g1 s1] x [g2 s2] _ (pn & Hp & Ha) Es. cbn [fst] in *.
  destruct (attach_step_keeps_place g1 s1 x g2 s2 p pn Es Hp) as (pn1 & Hp1 & A1).
  exists pn1. split; [exact Hp1|]. now rewrite A1.
Qed.

(** Whatever is left in the active set after the loop, and had its turn,
    awaits an anchor. *)
Lemma attach_loop_leaves_awaiting l : forall g s g' s' id,
  for_each (attach_step config places) l (g, s) = Ok (g', s') ->
  In id (active_ s') -> In id l -> awaits_anchor places g' id.
Proof.
  induction l as [|x r IH]; intros g s g' s' id E Hact Hin; [destruct Hin|].
  cbn [for_each] in E.
  destruct (attach_step config places (g, s) x) as [[g1 s1]|] eqn:E1;
    [|discriminate E]. cbn [bind] in E.
  destruct (in_dec Z.eq_dec id r) as [Hr|Hr]; [exact (IH g1 s1 g' s' id E Hact Hr)|].
  destruct Hin as [<-|Hin]; [|contradiction].
  apply (attach_loop_keeps_waiting r x g1 s1 g' s' E).
  apply (attach_step_keeps_awaiting g s x g1 s1 E1).
  exact (attach_loop_shrinks r g1 s1 g' s' E x Hact).
Qed.

(** An element whose parent is an active place stays in the active set. *)
Lemma attach_loop_keeps_active l id p : forall g s g' s',
  for_each (attach_step config places) l (g, s) = Ok (g', s') ->
  In id (active_ s) ->
  (exists n, getNode g id = Some n /\ node_parent n = Some p) ->
  (exists pn, getLayerNode PLACES g p = Some pn
              /\ attributes_is_active (node_attributes pn) = true) ->
  In id (active_ s').
Proof.
  intros g s g' s' E Hin Hn Hp.
  apply (for_each_preserves
           (fun acc : DynamicSceneGraph * State =>
              In id (active_ (snd acc))
              /\ (exists n, getNode (fst acc) id = Some n /\ node_parent n = Some p)
              /\ (exists pn, getLayerNode PLACES (fst acc) p = Some pn
                             /\ attributes_is_active (node_attributes pn) = true))
           _ _) in E; [exact (proj1 E)| |auto].
  clear. intros [g1 s1] x [g2 s2] _ (Ha & (n & Hn & Pn) & (pn & Hp & Hf)) Es.
  cbn [fst snd] in *. split; [|split].
  - destruct (Z.eq_dec id x) as [->|Hne];
      [|exact (attach_step_erases_own g1 s1 x g2 s2 id Es Hne Ha)].
    unfold attach_step in Es. rewrite Hn in Es. cbn [require bind] in Es.
    rewrite Pn, Hp in Es. cbn [require bind] in Es. rewrite Hf in Es.
    inversion Es; subst. exact Ha.
  - exact (attach_step_keeps_parent g1 s1 x g2 s2 id n p Es Hn Pn).
  - destruct (attach_step_keeps_place g1 s1 x g2 s2 p pn Es Hp) as (pn1 & Hp1 & A1).
    exists pn1. split; [exact Hp1|]. now rewrite A1.
Qed.

End Awaiting.

(** X9.  When [updateActiveParents] returns, every id it leaves in the
    active set belongs to a node that awaits an anchor: its parent is a place
    that is still active, or it has no parent and the place layer is empty. *)
Theorem active_set_awaits_anchor :
  forall config g st g' st',
    updateActiveParents config g st = Ok (g', st') ->
    forall id, In id (active_ st') -> awaits_anchor (getLayer PLACES g) g' id.
Proof.
  intros config g st g' st' E id Hin. unfold updateActiveParents in E.
  apply (attach_loop_leaves_awaiting config _ _ _ _ _ _ id E Hin).
  exact (attach_loop_shrinks config _ _ _ _ _ _ E id Hin).
Qed.

(** Without a place layer the first object of the scenario stays in the
    active set, without a parent. *)
Lemma active_set_awaits_anchor_witness :
  awaits_anchor (getLayer PLACES Episodes.unanchored) Episodes.unanchored
                Scenario.object1.
Proof.
  apply (active_set_awaits_anchor Scenario.config Episodes.unanchored
           (snd Scenario.after1) Episodes.unanchored (snd Scenario.after1)).
  - vm_compute. reflexivity.
  - vm_compute. now left.
Defined.

(** X10.  For an element of the resynchronised active set that has a parent
    place when [updateActiveParents] starts: it is in the active set
    afterwards exactly when that place is active, and it keeps its parent. *)
Theorem parented_object_settles_with_its_place :
  forall config g st g' st' object n p pn,
    updateActiveParents config g st = Ok (g', st') ->
    In object (resynchronised g st) ->
    getNode g object = Some n ->
    node_parent n = Some p ->
    getLayerNode PLACES g p = Some pn ->
    (In object (active_ st') <-> attributes_is_active (node_attributes pn) = true)
    /\ exists n', getNode g' object = Some n' /\ node_parent n' = Some p.
Proof.
  intros config g st g' st' object n p pn E Hin Hn Pn Hp.
  unfold updateActiveParents in E.
  destruct (attach_loop_keeps_parent config _ _ object p _ _ _ _ E
              (ex_intro _ n (conj Hn Pn))) as (n' & Hn' & Pn').
  split; [|now exists n'].
  destruct (attach_loop_keeps_place config _ _ p
              (attributes_is_active (node_attributes pn)) _ _ _ _ E
              (ex_intro _ pn (conj Hp eq_refl))) as (pn' & Hp' & Ha').
  split.
  - intros Hact.
    destruct (attach_loop_leaves_awaiting config _ _ _ _ _ _ object E Hact
                (attach_loop_shrinks config _ _ _ _ _ _ E object Hact))
      as (m & Hm & Hw).
    assert (m = n') by congruence. subst m. rewrite Pn' in Hw.
    destruct Hw as (q & Hq & Hf). congruence.
  - intros Hf.
    apply (attach_loop_keeps_active config _ _ object p _ _ _ _ E).
    + exact Hin.
    + now exists n.
    + now exists pn.
Qed.

(** After the second cycle of the scenario the first object has the stable
    place 100 as its parent: the next attachment phase drops it from the
    active set. *)
Lemma parented_object_settles_with_its_place_witness :
  (In Scenario.object1 (active_ (snd Episodes.attached3))
   <-> attributes_is_active (node_attributes (Scenario.place 100 10 false)) = true)
  /\ exists n', getNode (fst Episodes.attached3) Scenario.object1 = Some n'
                /\ node_parent n' = Some 100.
Proof.
  apply (parented_object_settles_with_its_place Scenario.config
           (fst Scenario.after2) (snd Scenario.after2)
           (fst Episodes.attached3) (snd Episodes.attached3)
           Scenario.object1 Episodes.object1_attached 100
           (Scenario.place 100 10 false)).
  - vm_compute. reflexivity.
  - vm_compute. now left.
  - vm_compute. reflexivity.
  - reflexivity.
  - vm_compute. reflexivity.
Defined.

(** X11.  On a graph without places, [updateActiveParents], when it returns,
    leaves the graph as it was and changes the state only by absorbing the
    ids of the object layer into the active set: nothing is attached, nothing
    is dropped and nothing is logged. *)
Theorem no_places_nothing_attached :
  forall config g st g' st',
    getLayer PLACES g = [] ->
    updateActiveParents config g st = Ok (g', st') ->
    g' = g /\ st' = with_active_ (resynchronised g st) st.
Proof.
  intros config g st g' st' Hpl E. unfold updateActiveParents in E.
  rewrite Hpl in E. fold (resynchronised g st) in E.
  apply (for_each_preserves
           (fun acc : DynamicSceneGraph * State =>
              acc = (g, with_active_ (resynchronised g st) st)) _ _) in E.
  - inversion E. now split.
  - intros acc x acc' _ -> Es. unfold attach_step in Es.
    destruct (getNode g x) as [n|]; [|discriminate Es]. cbn [require bind] in Es.
    destruct (node_parent n) as [p|].
    + unfold getLayerNode in Es. rewrite Hpl in Es. discriminate Es.
    + cbn [nearest_node] in Es. now inversion Es.
  - reflexivity.
Qed.

Lemma no_places_nothing_attached_witness :
  Episodes.unanchored = Episodes.unanchored
  /\ snd Scenario.after1
     = with_active_ (resynchronised Episodes.unanchored (snd Scenario.after1))
                    (snd Scenario.after1).
Proof.
  apply (no_places_nothing_attached Scenario.config Episodes.unanchored
           (snd Scenario.after1) Episodes.unanchored (snd Scenario.after1));
    vm_compute; reflexivity.
Defined.

(** ** Retirement: what a cleared component leaves behind *)

Lemma remove_objects_effect objs : forall g s,
  (forall x, In x (shape (fst (fold_left remove_object objs (g, s))))
             <-> In x (shape g) /\ ~ In (fst x) objs)
  /\ (forall id, In id (active_ (snd (fold_left remove_object objs (g, s))))
                 <-> In id (active_ s) /\ ~ In id objs).
Proof.
  induction objs as [|o r IH]; intros g s; cbn [fold_left].
  - cbn. split; intros; tauto.
  - destruct (remove_object_effect g s o) as (Rs & Ra & _).
    destruct (remove_object (g, s) o) as [g1 s1] eqn:E1. cbn [fst snd] in *.
    destruct (IH g1 s1) as [Hs Ha]. split.
    + intros x. rewrite Hs, Rs. cbn. intuition.
    + intros id. rewrite Ha, Ra. cbn. intuition.
Qed.

Lemma retire_graph_effect g s c info :
  (forall x, In x (shape (fst (retire (g, s) (c, info))))
             <-> In x (shape g) /\ ~ In (fst x) (objects info))
  /\ (forall id, In id (active_ (snd (retire (g, s) (c, info))))
                 <-> In id (active_ s) /\ ~ In id (objects info))
  /\ components_ids_ (snd (retire (g, s) (c, info)))
     = IdTracker.markFree c (components_ids_ s).
Proof.
  unfold retire.
  pose proof (remove_objects_effect (objects info) g
                (with_node_to_component_
                   (fold_left (fun m x => map_erase x m) (segments info)
                              (node_to_component_ s)) s)) as [Hs Ha].
  pose proof (remove_objects_registry (objects info)
                (g, with_node_to_component_
                      (fold_left (fun m x => map_erase x m) (segments info)
                                 (node_to_component_ s)) s)) as [_ Hi].
  destruct (fold_left remove_object (objects info) _) as [g1 s1].
  cbn [fst snd active_ components_ids_ record with_components_
       with_components_ids_ with_node_to_component_] in *.
  split; [exact Hs|]. split; [exact Ha|]. now rewrite Hi.
Qed.

(** The ids of the components of [l] that are in [active], in order. *)
Lemma clear_loop_graph active l : forall g s,
  let r := fold_left (clear_step active) l (g, s) in
  (forall x, In x (shape (fst r))
             <-> In x (shape g)
                 /\ forall e0, In e0 l -> set_count (fst e0) active = true ->
                               ~ In (fst x) (objects (snd e0)))
  /\ (forall id, In id (active_ (snd r))
                 <-> In id (active_ s)
                     /\ forall e0, In e0 l -> set_count (fst e0) active = true ->
                                   ~ In id (objects (snd e0)))
  /\ components_ids_ (snd r)
     = IdTracker.markFree_all (retired_ids active l) (components_ids_ s)
  /\ (forall e, In e (components_ s) -> set_count (fst e) active = false ->
                In e (components_ (snd r))).
Proof.
  induction l as [|[c info] rest IH]; intros g s; cbn zeta.
  - cbn. repeat split; try tauto.
  - cbn [fold_left].
    replace (clear_step active (g, s) (c, info))
      with (if set_count c active then retire (g, s) (c, info) else (g, s))
      by reflexivity.
    unfold retired_ids. cbn [filter fst map].
    destruct (set_count c active) eqn:Ec.
    + destruct (retire_graph_effect g s c info) as (Rs & Ra & Ri).
      destruct (retire_effect g s c info) as (Rc & _ & _).
      destruct (retire (g, s) (c, info)) as [g1 s1]. cbn [fst snd] in *.
      destruct (IH g1 s1) as (Hs & Ha & Hi & Hk).
      split; [|split; [|split]].
      * intros x. rewrite Hs, Rs. split.
        -- intros [[Hx Ho] Hall]. split; [exact Hx|].
           intros e0 [<-|Hin] Hact; [exact Ho|now apply (Hall e0)].
        -- intros [Hx Hall]. split; [split; [exact Hx|]|].
           ++ apply (Hall (c, info)); [now left|exact Ec].
           ++ intros e0 Hin. apply Hall. now right.
      * intros id. rewrite Ha, Ra. split.
        -- intros [[Hx Ho] Hall]. split; [exact Hx|].
           intros e0 [<-|Hin] Hact; [exact Ho|now apply (Hall e0)].
        -- intros [Hx Hall]. split; [split; [exact Hx|]|].
           ++ apply (Hall (c, info)); [now left|exact Ec].
           ++ intros e0 Hin. apply Hall. now right.
      * rewrite Hi, Ri. reflexivity.
      * intros e He Hf. apply Hk; [|exact Hf]. rewrite Rc.
        apply map_erase_In. split; [exact He|]. intros Heq. rewrite Heq in Hf.
        congruence.
    + destruct (IH g s) as (Hs & Ha & Hi & Hk).
      split; [|split; [|split]].
      * intros x. rewrite Hs. split.
        -- intros [Hx Hall]. split; [exact Hx|].
           intros e0 [<-|Hin] Hact; [cbn in Hact; congruence|now apply (Hall e0)].
        -- intros [Hx Hall]. split; [exact Hx|].
           intros e0 Hin. apply Hall. now right.
      * intros id. rewrite Ha. split.
        -- intros [Hx Hall]. split; [exact Hx|].
           intros e0 [<-|Hin] Hact; [cbn in Hact; congruence|now apply (Hall e0)].
        -- intros [Hx Hall]. split; [exact Hx|].
           intros e0 Hin. apply Hall. now right.
      * exact Hi.
      * exact Hk.
Qed.

Lemma clearActiveComponents_untouched g active st :
  (forall c info, In (c, info) (components_ st) -> ~ In c active) ->
  clearActiveComponents g active st = (g, st).
Proof.
  intros H. unfold clearActiveComponents.
  apply (fold_left_preserves (fun acc : DynamicSceneGraph * State => acc = (g, st)));
    [|reflexivity].
  intros acc [c info] Hin ->. unfold clear_step. cbn [fst].
  destruct (set_count c active) eqn:Ec; [|reflexivity].
  apply set_count_In in Ec. exfalso. exact (H c info Hin Ec).
Qed.

(** X12.  When no live component is in the touched set, in particular when
    the set is empty, [clearActiveComponents] changes neither the graph nor
    the state. *)
Theorem nothing_touched_nothing_retired :
  forall g active st,
    (forall c info, In (c, info) (components_ st) -> ~ In c active) ->
    clearActiveComponents g active st = (g, st).
Proof. exact clearActiveComponents_untouched. Qed.

Lemma nothing_touched_nothing_retired_witness :
  clearActiveComponents (fst Scenario.after2) [] (snd Scenario.after2)
  = Scenario.after2.
Proof.
  apply (nothing_touched_nothing_retired (fst Scenario.after2) []
           (snd Scenario.after2)).
  intros c info _ [].
Defined.

(** X13.  When a live component is touched, [clearActiveComponents] removes
    it from the registry, makes its segments eligible again (they are no
    longer keys of [node_to_component_]), removes every node that carries
    the id of one of its objects and drops those ids from the active set.
    Components that are not touched stay in the registry, and the ignored set
    is not changed. *)
Theorem touched_component_is_retired :
  forall g active st c info,
    In (c, info) (components_ st) ->
    In c active ->
    let g' := fst (clearActiveComponents g active st) in
    let st' := snd (clearActiveComponents g active st) in
    ~ In c (map fst (components_ st'))
    /\ (forall s, In s (segments info) -> ~ In s (map fst (node_to_component_ st')))
    /\ (forall o, In o (objects info) -> hasNode g' o = false /\ ~ In o (active_ st'))
    /\ (forall e, In e (components_ st) -> ~ In (fst e) active ->
                  In e (components_ st'))
    /\ ignored_ st' = ignored_ st.
Proof.
  intros g active st c info Hin Hact g' st'. subst g' st'.
  unfold clearActiveComponents.
  destruct (clear_loop_effect active (components_ st) g st) as (Ei & Hcomp & Hkeys).
  destruct (clear_loop_graph active (components_ st) g st) as (Hs & Ha & _ & Hk).
  apply set_count_In in Hact.
  split; [|split; [|split; [|split]]].
  - intros H. apply in_map_iff in H. destruct H as ([c' i'] & E & He).
    cbn in E. subst c'. destruct (Hcomp _ He) as [_ Hfalse].
    specialize (Hfalse (c, info) Hin eq_refl). cbn in Hfalse. congruence.
  - intros s Hseg H. apply Hkeys in H. destruct H as [_ H].
    exact (H (c, info) Hin Hact Hseg).
  - intros o Ho. split.
    + destruct (hasNode _ o) eqn:Eh; [|reflexivity]. exfalso.
      apply hasNode_shape in Eh. destruct Eh as (layer & Hl).
      apply Hs in Hl. destruct Hl as [_ Hl]. exact (Hl (c, info) Hin Hact Ho).
    + intros H. apply Ha in H. destruct H as [_ H].
      exact (H (c, info) Hin Hact Ho).
  - intros e He Hne. apply Hk; [exact He|]. now apply set_count_false.
  - exact Ei.
Qed.

(** Retiring component 0 of the scenario after its second cycle. *)
Lemma touched_component_is_retired_witness :
  ~ In 0 (map fst (components_ (snd Episodes.retired0)))
  /\ (forall s, In s [1] ->
                ~ In s (map fst (node_to_component_ (snd Episodes.retired0))))
  /\ (forall o, In o [Scenario.object1] ->
                hasNode (fst Episodes.retired0) o = false
                /\ ~ In o (active_ (snd Episodes.retired0)))
  /\ (forall e, In e (components_ (snd Scenario.after2)) -> ~ In (fst e) [0] ->
                In e (components_ (snd Episodes.retired0)))
  /\ ignored_ (snd Episodes.retired0) = ignored_ (snd Scenario.after2).
Proof.
  apply (touched_component_is_retired (fst Scenario.after2) [0]
           (snd Scenario.after2) 0
           {| segments := [1]; objects := [Scenario.object1]; clusters := [[1]] |}).
  - vm_compute. now left.
  - now left.
Defined.

(** X14.  [clearActiveComponents] releases the identifiers of the touched
    live components to the pool one by one, in the order of the registry. *)
Theorem retired_ids_are_released_in_order :
  forall g active st,
    components_ids_ (snd (clearActiveComponents g active st))
    = IdTracker.markFree_all (retired_ids active (components_ st))
                             (components_ids_ st).
Proof.
  intros g active st. unfold clearActiveComponents.
  exact (proj1 (proj2 (proj2 (clear_loop_graph active (components_ st) g st)))).
Qed.

(** ** Edge detection: what it does and what it leaves alone *)

Lemma for_each_fixed {A S : Type} (body : S -> A -> result S) (l : list A) (s : S) :
  (forall x, In x l -> body s x = Ok s) -> for_each body l s = Ok s.
Proof.
  induction l as [|x r IH]; intros H; [reflexivity|].
  cbn [for_each]. rewrite (H x (or_introl eq_refl)). cbn [bind].
  apply IH. intros y Hy. apply H. now right.
Qed.

Lemma insertEdge_edges source target g :
  incl (graph_edges g) (graph_edges (insertEdge source target g)).
Proof.
  unfold insertEdge.
  destruct (getNode g source) as [s|]; [|apply incl_refl].
  destruct (getNode g target) as [t|]; [|apply incl_refl].
  destruct (source =? target); [apply incl_refl|].
  destruct (layer_eqb (node_layer s) (node_layer t)).
  - destruct (has_edge g source target); [apply incl_refl|].
    cbn. intros e He. apply in_or_app. now left.
  - destruct (layer_rank (node_layer s) <? layer_rank (node_layer t)).
    + destruct (node_parent s); apply incl_refl.
    + destruct (node_parent t); apply incl_refl.
Qed.

Lemma addSegmentEdges_settled ext config g st :
  (forall node, In node (getLayer SEGMENTS g) ->
     (exists k, node_attributes node = KhronosAttributes k)
     /\ (In (node_id node) (ignored_ st)
         \/ In (node_id node) (map fst (node_to_component_ st)))) ->
  addSegmentEdges ext config g st = Ok (g, st, []).
Proof.
  intros H. unfold addSegmentEdges.
  apply for_each_fixed. intros node Hin.
  destruct (H node Hin) as [(k & Hk) Hold].
  unfold segment_step. rewrite Hk. cbn [as_khronos bind].
  destruct (set_count (node_id node) (ignored_ st)) eqn:Ei; [reflexivity|].
  destruct (map_count (node_id node) (node_to_component_ st)) eqn:Em; [reflexivity|].
  exfalso. apply set_count_false in Ei. apply map_count_false in Em. tauto.
Qed.

(** X15.  When every segment of the layer is already ignored or clustered,
    [addSegmentEdges] returns the graph and the state as they were and
    reports no touched component. *)
Theorem no_new_segment_no_edge :
  forall ext config g st,
    (forall node, In node (getLayer SEGMENTS g) ->
       (exists k, node_attributes node = KhronosAttributes k)
       /\ (In (node_id node) (ignored_ st)
           \/ In (node_id node) (map fst (node_to_component_ st)))) ->
    addSegmentEdges ext config g st = Ok (g, st, []).
Proof. exact addSegmentEdges_settled. Qed.

(** After the first cycle of the scenario every segment is clustered or
    ignored. *)
Lemma no_new_segment_no_edge_witness :
  addSegmentEdges Scenario.ext Scenario.config (fst Scenario.after1)
                  (snd Scenario.after1)
  = Ok (fst Scenario.after1, snd Scenario.after1, []).
Proof.
  apply (no_new_segment_no_edge Scenario.ext Scenario.config
           (fst Scenario.after1) (snd Scenario.after1)).
  intros node Hin. vm_compute in Hin.
  destruct Hin as [<-|[<-|[]]]; (split; [eexists; reflexivity|]); vm_compute; tauto.
Defined.

Section EdgeDetection.

Variable ext : Collaborators.
Variable config : Config.
Variable layer : list SceneGraphNode.
Variable st0 : State.

Lemma as_khronos_Ok a k : as_khronos a = Ok k -> a = KhronosAttributes k.
Proof. destruct a; simpl; [congruence|discriminate]. Qed.

Lemma edge_step_sound id attrs node acc other acc' :
  In node layer -> node_id node = id ->
  node_attributes node = KhronosAttributes attrs ->
  ~ In id (ignored_ st0) -> ~ In id (map fst (node_to_component_ st0)) ->
  Qlt_bool (getBestScore ext (rowwise_mean (semantic_feature attrs)))
           (min_segment_score config) = false ->
  In other layer ->
  edge_step config id attrs acc other = Ok acc' ->
  edge_detection_sound ext config layer st0 acc ->
  edge_detection_sound ext config layer st0 acc'.
Proof.
  destruct acc as [[g s] t], acc' as [[g' s'] t'].
  unfold edge_detection_sound. cbn [fst snd].
  intros Hnode Hid Hattrs Hi Hc Hscore Hother E
         (Hm & Hincl & Hign & d & Hj & Hedges & Htouched).
  unfold edge_step in E.
  destruct (node_id other =? id) eqn:Eid.
  { inversion E; subst s' t'. repeat split; try assumption. exists d. auto. }
  apply Z.eqb_neq in Eid.
  destruct (as_khronos (node_attributes other)) as [kb|] eqn:Ekb; [|discriminate E].
  cbn [bind] in E. apply as_khronos_Ok in Ekb.
  destruct (OverlapIntersection.call (edge_checker config) attrs kb) eqn:Eo.
  2:{ inversion E; subst s' t'. repeat split; try assumption. exists d. auto. }
  assert (Hnew : forall a b,
             In (SegmentEdge a b) (d ++ [SegmentEdge id (node_id other)]) ->
             sound_edge ext config layer st0 a b).
  { intros a b Hin. apply in_app_or in Hin. destruct Hin as [Hin|[Hin|[]]];
      [now apply Hedges|]. inversion Hin; subst a b.
    exists node, other, attrs, kb.
    split; [exact Hnode|]. split; [exact Hother|]. split; [exact Hid|].
    split; [reflexivity|]. split; [congruence|]. split; [exact Hattrs|].
    split; [exact Ekb|]. split; [exact Eo|]. split; [exact Hi|].
    split; [exact Hc|exact Hscore]. }
  cbn [record node_to_component_] in E. rewrite Hm in E.
  destruct (map_find (node_id other) (node_to_component_ st0)) as [c|] eqn:Ef;
    inversion E; subst g' s' t'; clear E;
    cbn [node_to_component_ ignored_ journal record].
  - split; [exact Hm|]. split; [exact Hincl|]. split; [exact Hign|].
    exists (d ++ [SegmentEdge id (node_id other)]).
    split; [now rewrite Hj, app_assoc|].
    split; [exact Hnew|]. intros c' Hc'. apply set_insert_In in Hc'.
    destruct Hc' as [->|Hc'].
    + exists id, (node_id other). split; [exact Ef|]. apply in_or_app. right. now left.
    + destruct (Htouched c' Hc') as (a & b & Hf & Hin).
      exists a, b. split; [exact Hf|]. apply in_or_app. now left.
  - split; [exact Hm|]. split; [exact Hincl|]. split; [exact Hign|].
    exists (d ++ [SegmentEdge id (node_id other)]).
    split; [now rewrite Hj, app_assoc|].
    split; [exact Hnew|]. intros c' Hc'.
    destruct (Htouched c' Hc') as (a & b & Hf & Hin).
    exists a, b. split; [exact Hf|]. apply in_or_app. now left.
Qed.

Lemma segment_step_sound acc node acc' :
  In node layer ->
  segment_step ext config layer acc node = Ok acc' ->
  edge_detection_sound ext config layer st0 acc ->
  edge_detection_sound ext config layer st0 acc'.
Proof.
  destruct acc as [[g s] t], acc' as [[g' s'] t'].
  intros Hnode E H. unfold segment_step in E.
  destruct (as_khronos (node_attributes node)) as [k|] eqn:Ek; [|discriminate E].
  cbn [bind] in E. apply as_khronos_Ok in Ek.
  destruct (set_count (node_id node) (ignored_ s)) eqn:Ei;
    [inversion E; subst; exact H|].
  destruct (map_count (node_id node) (node_to_component_ s)) eqn:Em;
    [inversion E; subst; exact H|].
  destruct (Qlt_bool _ (min_segment_score config)) eqn:Es.
  - inversion E; subst g' s' t'; clear E.
    unfold edge_detection_sound in *. cbn [fst snd] in *.
    destruct H as (Hm & Hincl & Hign & d & Hj & Hedges & Htouched).
    split; [exact Hm|]. split; [|split].
    + intros i Hin. cbn. apply set_insert_In. right. now apply Hincl.
    + intros i Hin. cbn in Hin. apply set_insert_In in Hin.
      destruct Hin as [->|Hin]; [|now apply Hign].
      right. exists node, k. repeat split; auto.
    + exists (d ++ [SegmentSkipped (node_id node)
                      (getBestScore ext (rowwise_mean (semantic_feature k)))]).
      split; [cbn; now rewrite Hj, app_assoc|]. split.
      * intros a b Hin. apply in_app_or in Hin.
        destruct Hin as [Hin|[Hin|[]]]; [now apply Hedges|discriminate Hin].
      * intros c Hc. destruct (Htouched c Hc) as (a & b & Hf & Hin).
        exists a, b. split; [exact Hf|]. apply in_or_app. now left.
  - assert (Hi : ~ In (node_id node) (ignored_ st0)).
    { destruct H as (_ & Hincl & _). cbn [fst snd] in Hincl.
      apply set_count_false in Ei. intros Hin. apply Ei. now apply Hincl. }
    assert (Hc : ~ In (node_id node) (map fst (node_to_component_ st0))).
    { destruct H as (Hm & _). cbn [fst snd] in Hm. rewrite <- Hm.
      now apply map_count_false. }
    apply (for_each_preserves (edge_detection_sound ext config layer st0) _ _) in E;
      [exact E| |exact H].
    intros a0 other a1 Hother Hs Eo.
    exact (edge_step_sound (node_id node) k node a0 other a1 Hnode eq_refl Ek Hi Hc
             Es Hother Eo Hs).
Qed.

End EdgeDetection.

(** X16.  What [addSegmentEdges] records is justified by the layer it ran
    on.  Every edge it inserts joins two different segments of the layer whose
    boxes satisfy the connectivity predicate, and starts at a segment that was
    new (neither ignored nor clustered) and scored at least
    [min_segment_score].  Every segment it adds to the ignored set is a
    segment of the layer that scored below the threshold.  Every component it
    reports as touched is the component of the target of one of the edges. *)
Theorem edge_detection_is_justified :
  forall ext config g st g' st' touched,
    addSegmentEdges ext config g st = Ok (g', st', touched) ->
    (forall i, In i (ignored_ st') ->
               In i (ignored_ st) \/ sound_ignore ext config (getLayer SEGMENTS g) i)
    /\ exists d,
         journal st' = journal st ++ d
         /\ (forall a b, In (SegmentEdge a b) d ->
                         sound_edge ext config (getLayer SEGMENTS g) st a b)
         /\ (forall c, In c touched ->
                       exists a b, map_find b (node_to_component_ st) = Some c
                                   /\ In (SegmentEdge a b) d).
Proof.
  intros ext config g st g' st' touched E. unfold addSegmentEdges in E.
  apply (for_each_preserves
           (edge_detection_sound ext config (getLayer SEGMENTS g) st) _ _) in E.
  - destruct E as (_ & _ & Hign & Hd). cbn [fst snd] in *. split; assumption.
  - intros a node a' Hin Hs Es.
    exact (segment_step_sound ext config _ st a node a' Hin Es Hs).
  - unfold edge_detection_sound. cbn [fst snd].
    split; [reflexivity|]. split; [apply incl_refl|]. split; [now left|].
    exists []. split; [now rewrite app_nil_r|]. split; [intros ? ? []|intros ? []].
Qed.

Lemma edge_detection_is_justified_witness :
  (forall i, In i (ignored_ (snd (fst Episodes.edges2))) ->
             In i (ignored_ (snd Episodes.attached2))
             \/ sound_ignore Scenario.ext Scenario.config
                  (getLayer SEGMENTS (fst Episodes.attached2)) i)
  /\ exists d,
       journal (snd (fst Episodes.edges2)) = journal (snd Episodes.attached2) ++ d
       /\ (forall a b, In (SegmentEdge a b) d ->
                       sound_edge Scenario.ext Scenario.config
                         (getLayer SEGMENTS (fst Episodes.attached2))
                         (snd Episodes.attached2) a b)
       /\ (forall c, In c (snd Episodes.edges2) ->
                     exists a b,
                       map_find b (node_to_component_ (snd Episodes.attached2)) = Some c
                       /\ In (SegmentEdge a b) d).
Proof.
  apply (edge_detection_is_justified Scenario.ext Scenario.config
           (fst Episodes.attached2) (snd Episodes.attached2)
           (fst (fst Episodes.edges2)) (snd (fst Episodes.edges2))
           (snd Episodes.edges2)).
  vm_compute. reflexivity.
Defined.

Section EdgeDetectionFrame.

Variable ext : Collaborators.
Variable config : Config.

Lemma addSegmentEdges_edges g st g' st' touched :
  addSegmentEdges ext config g st = Ok (g', st', touched) ->
  incl (graph_edges g) (graph_edges g').
Proof.
  unfold addSegmentEdges. intros E.
  apply (for_each_preserves
           (fun acc : DynamicSceneGraph * State * list Z =>
              incl (graph_edges g) (graph_edges (fst (fst acc)))) _ _) in E;
    [exact E| |apply incl_refl].
  intros [[g1 s1] t1] node [[g2 s2] t2] _ H Es. cbn [fst] in *.
  unfold segment_step in Es. run_body Es; try exact H.
  apply (for_each_preserves
           (fun acc : DynamicSceneGraph * State * list Z =>
              incl (graph_edges g) (graph_edges (fst (fst acc)))) _ _) in Es;
    [exact Es| |exact H].
  clear. intros [[g1 s1] t1] other [[g2 s2] t2] _ H Eo. cbn [fst] in *.
  unfold edge_step in Eo. run_body Eo; try exact H;
    (intros e He; apply insertEdge_edges; now apply H).
Qed.

End EdgeDetectionFrame.

(** X17.  [addSegmentEdges] leaves the registry of components, the map of
    clustered segments, the identifier pool, the active set and the object id
    sequence as they were; it adds and removes no node and moves none to
    another layer; it removes no edge; and it removes nothing from the
    ignored set. *)
Theorem edge_detection_frame :
  forall ext config g st g' st' touched,
    addSegmentEdges ext config g st = Ok (g', st', touched) ->
    components_ st' = components_ st
    /\ node_to_component_ st' = node_to_component_ st
    /\ components_ids_ st' = components_ids_ st
    /\ active_ st' = active_ st
    /\ next_node_id_ st' = next_node_id_ st
    /\ shape g' = shape g
    /\ incl (graph_edges g) (graph_edges g')
    /\ incl (ignored_ st) (ignored_ st').
Proof.
  intros ext config g st g' st' touched E.
  destruct (addSegmentEdges_keeps ext config g st g' st' touched E)
    as (Hc & Hm & Hi & Hincl & _). cbn [fst snd] in *.
  destruct (addSegmentEdges_frame ext config g st g' st' touched E) as (Hs & Hn & Ha).
  pose proof (addSegmentEdges_edges ext config g st g' st' touched E) as He.
  repeat split; assumption.
Qed.

Lemma edge_detection_frame_witness :
  components_ (snd (fst Episodes.edges2)) = components_ (snd Episodes.attached2)
  /\ node_to_component_ (snd (fst Episodes.edges2))
     = node_to_component_ (snd Episodes.attached2)
  /\ components_ids_ (snd (fst Episodes.edges2))
     = components_ids_ (snd Episodes.attached2)
  /\ active_ (snd (fst Episodes.edges2)) = active_ (snd Episodes.attached2)
  /\ next_node_id_ (snd (fst Episodes.edges2))
     = next_node_id_ (snd Episodes.attached2)
  /\ shape (fst (fst Episodes.edges2)) = shape (fst Episodes.attached2)
  /\ incl (graph_edges (fst Episodes.attached2))
          (graph_edges (fst (fst Episodes.edges2)))
  /\ incl (ignored_ (snd Episodes.attached2)) (ignored_ (snd (fst Episodes.edges2))).
Proof.
  apply (edge_detection_frame Scenario.ext Scenario.config
           (fst Episodes.attached2) (snd Episodes.attached2)
           (fst (fst Episodes.edges2)) (snd (fst Episodes.edges2))
           (snd Episodes.edges2)).
  vm_compute. reflexivity.
Defined.

(** ** Detection: what it adds and what it leaves alone *)

Section QuietSearch.

Variable node_filter : NodeId -> bool.
Variable edge_filter : NodeId * NodeId -> result bool.
Variable edges : list (NodeId * NodeId).

Lemma components_from_none fuel nodes : forall visited,
  (forall n, In n nodes -> node_filter n = false) ->
  components_from node_filter edge_filter edges fuel nodes visited = Ok [].
Proof.
  induction nodes as [|n rest IH]; intros visited H; [reflexivity|].
  cbn [components_from]. rewrite (H n (or_introl eq_refl)).
  cbn [negb]. rewrite orb_true_r. apply IH. intros m Hm. apply H. now right.
Qed.

End QuietSearch.

Lemma detectObjects_settled ext config g st :
  (forall node, In node (getLayer SEGMENTS g) ->
     In (node_id node) (ignored_ st)
     \/ In (node_id node) (map fst (node_to_component_ st))) ->
  detectObjects ext config g st = Ok (g, record (GroupsDiscovered []) st).
Proof.
  intros H. unfold detectObjects, getConnectedComponents.
  rewrite components_from_none; [reflexivity|].
  intros n Hn. apply in_map_iff in Hn. destruct Hn as (node & <- & Hin).
  destruct (isNodeActive (node_id node) (node_to_component_ st) (ignored_ st)) eqn:E;
    [|reflexivity].
  apply isNodeActive_true in E. destruct (H node Hin); tauto.
Qed.

(** X18.  When every segment of the layer is ignored or clustered,
    [detectObjects] finds no group: it returns the graph as it was, creates
    no component and no object, and consumes no identifier. *)
Theorem no_eligible_segment_no_component :
  forall ext config g st,
    (forall node, In node (getLayer SEGMENTS g) ->
       In (node_id node) (ignored_ st)
       \/ In (node_id node) (map fst (node_to_component_ st))) ->
    detectObjects ext config g st = Ok (g, record (GroupsDiscovered []) st).
Proof. exact detectObjects_settled. Qed.

Lemma no_eligible_segment_no_component_witness :
  detectObjects Scenario.ext Scenario.config (fst Scenario.after1)
                (snd Scenario.after1)
  = Ok (fst Scenario.after1, record (GroupsDiscovered []) (snd Scenario.after1)).
Proof.
  apply (no_eligible_segment_no_component Scenario.ext Scenario.config
           (fst Scenario.after1) (snd Scenario.after1)).
  intros node Hin. vm_compute in Hin.
  destruct Hin as [<-|[<-|[]]]; vm_compute; tauto.
Defined.

Lemma map_emplace_incl {V : Type} k (v : V) m : incl m (map_emplace k v m).
Proof.
  induction m as [|e r IH]; simpl; [intros x Hx; destruct Hx|].
  destruct (k <? fst e); [intros x Hx; now right|].
  destruct (k =? fst e); [apply incl_refl|].
  intros x [<- | Hx]; [now left|right; now apply IH].
Qed.

Lemma map_find_erase_other {V : Type} k n (m : list (Z * V)) :
  k <> n -> map_find k (map_erase n m) = map_find k m.
Proof.
  unfold map_find, map_erase. intros Hne.
  induction m as [|e r IH]; simpl; [reflexivity|].
  destruct (fst e =? n) eqn:En; simpl.
  - apply Z.eqb_eq in En.
    destruct (fst e =? k) eqn:Ek; [apply Z.eqb_eq in Ek; congruence|exact IH].
  - destruct (fst e =? k); [reflexivity|exact IH].
Qed.

Lemma map_find_emplace_other {V : Type} k n (v : V) (m : list (Z * V)) :
  k <> n -> map_find k (map_emplace n v m) = map_find k m.
Proof.
  unfold map_find. intros Hne.
  induction m as [|e r IH]; simpl.
  - destruct (n =? k) eqn:E; [apply Z.eqb_eq in E; congruence|reflexivity].
  - destruct (n <? fst e); simpl.
    + destruct (n =? k) eqn:E; [apply Z.eqb_eq in E; congruence|reflexivity].
    + destruct (n =? fst e); simpl; [reflexivity|].
      destruct (fst e =? k); [reflexivity|exact IH].
Qed.

Lemma map_find_assign_all {V : Type} (v : V) nodes : forall (m : list (Z * V)) k,
  ~ In k nodes ->
  map_find k (fold_left (fun m n => map_assign n v m) nodes m) = map_find k m.
Proof.
  induction nodes as [|n r IH]; intros m k Hn; simpl; [reflexivity|].
  rewrite IH by (intros H; apply Hn; now right).
  unfold map_assign. rewrite map_find_emplace_other, map_find_erase_other;
    [reflexivity| |]; intros ->; apply Hn; now left.
Qed.

Section Detection.

Variable ext : Collaborators.
Variable config : Config.

(** One cluster: the graph gains at most the object node with the next id of
    the sequence, and the sequence keeps its key. *)
Lemma materialize_shape acc cluster acc' :
  materialize ext config acc cluster = Ok acc' ->
  incl (shape (fst (fst acc))) (shape (fst (fst acc')))
  /\ (forall x, In x (shape (fst (fst acc'))) ->
                In x (shape (fst (fst acc)))
                \/ x = (symbol_id (next_node_id_ (snd (fst acc))), OBJECTS))
  /\ symbol_key (next_node_id_ (snd (fst acc')))
     = symbol_key (next_node_id_ (snd (fst acc))).
Proof.
  destruct acc as [[g s] made], acc' as [[g' s'] made']. cbn [fst snd].
  intros E. unfold materialize in E.
  run_body E; try (split; [apply incl_refl|split; [now left|reflexivity]]).
  set (id := symbol_id (next_node_id_ s)) in *.
  set (g1 := emplaceNode OBJECTS id (KhronosAttributes k) g) in *.
  assert (Hsub : incl (shape g) (shape g1)).
  { intros x Hx. unfold g1. rewrite emplaceNode_shape.
    destruct (hasNode g id); [assumption|apply in_or_app; now left]. }
  assert (Hnew : forall x, In x (shape g1) -> In x (shape g) \/ x = (id, OBJECTS)).
  { intros x Hx. unfold g1 in Hx. rewrite emplaceNode_shape in Hx.
    destruct (hasNode g id); [now left|].
    apply in_app_or in Hx. destruct Hx as [Hx|[Hx|[]]]; auto. }
  assert (Hshape : shape g' = shape g1 /\ next_node_id_ s0 = next_node_id_ s).
  { destruct a0 as [[parent_id parent_active]|]; inversion Heqp; subst; clear Heqp.
    - split; [apply insertEdge_shape|]. now destruct parent_active.
    - split; reflexivity. }
  destruct Hshape as (Hs & Hnext). rewrite Hs. split; [exact Hsub|].
  split; [exact Hnew|]. cbn. now rewrite Hnext.
Qed.

(** One new component: what it writes to the map and the registry, and how
    the graph grows. *)
Lemma component_step_detail layer I g s nodes g' s' :
  component_step ext config layer I (g, s) nodes = Ok (g', s') ->
  node_to_component_ s'
  = fold_left (fun m n => map_assign n (fst (IdTracker.next (components_ids_ s))) m)
              nodes (node_to_component_ s)
  /\ incl (components_ s) (components_ s')
  /\ incl (shape g) (shape g')
  /\ (forall x, In x (shape g') ->
                In x (shape g)
                \/ (snd x = OBJECTS
                    /\ key_of (fst x) = symbol_key (next_node_id_ s)))
  /\ symbol_key (next_node_id_ s') = symbol_key (next_node_id_ s).
Proof.
  intros E. unfold component_step in E.
  destruct (IdTracker.next (components_ids_ s)) as [new_id ids]. cbn [fst].
  run_body E.
  apply (for_each_preserves
           (fun acc : DynamicSceneGraph * State * list Z =>
              components_ (snd (fst acc)) = components_ s
              /\ node_to_component_ (snd (fst acc))
                 = fold_left (fun m n => map_assign n new_id m) nodes
                             (node_to_component_ s)
              /\ incl (shape g) (shape (fst (fst acc)))
              /\ (forall x, In x (shape (fst (fst acc))) ->
                            In x (shape g)
                            \/ (snd x = OBJECTS
                                /\ key_of (fst x) = symbol_key (next_node_id_ s)))
              /\ symbol_key (next_node_id_ (snd (fst acc)))
                 = symbol_key (next_node_id_ s)) _ _) in Ea.
  - cbn [fst snd] in Ea. destruct Ea as (Hc & Hm & Hsub & Hnew & Hkey).
    split; [exact Hm|]. split.
    + cbn. rewrite <- Hc. apply map_emplace_incl.
    + split; [exact Hsub|]. split; [exact Hnew|exact Hkey].
  - intros a x a' _ (Hc & Hm & Hsub & Hnew & Hkey) Em.
    destruct (materialize_registry ext config a x a' Em) as [(Rc & Rm & _) _].
    destruct (materialize_shape a x a' Em) as (Ssub & Snew & Skey).
    split; [congruence|]. split; [congruence|]. split.
    + intros y Hy. apply Ssub. now apply Hsub.
    + split; [|congruence]. intros y Hy.
      destruct (Snew y Hy) as [Hold | ->]; [now apply Hnew|].
      right. cbn [fst snd]. split; [reflexivity|].
      rewrite key_of_symbol. exact Hkey.
  - cbn. split; [reflexivity|]. split; [reflexivity|].
    split; [apply incl_refl|]. split; [now left|reflexivity].
Qed.

(** The loop over the discovered groups, whose members are not keys of the
    map on entry. *)
Lemma detect_loop_detail layer I groups g st : forall g1 s1 g' s',
  for_each (component_step ext config layer I) groups (g1, s1) = Ok (g', s') ->
  (forall group x, In group groups -> In x group ->
                   ~ In x (map fst (node_to_component_ st))) ->
  incl (components_ st) (components_ s1)
  /\ (forall k c, map_find k (node_to_component_ st) = Some c ->
                  map_find k (node_to_component_ s1) = Some c)
  /\ incl (shape g) (shape g1)
  /\ (forall x, In x (shape g1) ->
                In x (shape g)
                \/ (snd x = OBJECTS
                    /\ key_of (fst x) = symbol_key (next_node_id_ st)))
  /\ symbol_key (next_node_id_ s1) = symbol_key (next_node_id_ st) ->
  incl (components_ st) (components_ s')
  /\ (forall k c, map_find k (node_to_component_ st) = Some c ->
                  map_find k (node_to_component_ s') = Some c)
  /\ incl (shape g) (shape g')
  /\ (forall x, In x (shape g') ->
                In x (shape g)
                \/ (snd x = OBJECTS
                    /\ key_of (fst x) = symbol_key (next_node_id_ st)))
  /\ symbol_key (next_node_id_ s') = symbol_key (next_node_id_ st).
Proof.
  induction groups as [|nodes rest IH]; intros g1 s1 g' s' E Hfresh H;
    cbn [for_each] in E.
  - inversion E; subst. exact H.
  - destruct (component_step ext config layer I (g1, s1) nodes) as [[g2 s2]|] eqn:E1;
      [|discriminate E]. cbn [bind] in E.
    destruct H as (Hc & Hm & Hsub & Hnew & Hkey).
    destruct (component_step_detail layer I g1 s1 nodes g2 s2 E1)
      as (Dm & Dc & Dsub & Dnew & Dkey).
    apply (IH g2 s2 g' s' E).
    + intros group x Hg Hx. apply (Hfresh group x); [now right|exact Hx].
    + split; [intros e He; apply Dc; now apply Hc|]. split.
      * intros k c Hf. rewrite Dm. rewrite map_find_assign_all; [now apply Hm|].
        intros Hin. apply (Hfresh nodes k (or_introl eq_refl) Hin).
        apply map_find_In in Hf. apply in_map_iff. now exists (k, c).
      * split; [intros x Hx; apply Dsub; now apply Hsub|]. split; [|congruence].
        intros x Hx. destruct (Dnew x Hx) as [Hold|[Hl Hk]]; [now apply Hnew|].
        right. split; [exact Hl|congruence].
Qed.

Lemma detectObjects_detail g st g' st' :
  detectObjects ext config g st = Ok (g', st') ->
  incl (components_ st) (components_ st')
  /\ (forall k c, map_find k (node_to_component_ st) = Some c ->
                  map_find k (node_to_component_ st') = Some c)
  /\ incl (shape g) (shape g')
  /\ (forall x, In x (shape g') ->
                In x (shape g)
                \/ (snd x = OBJECTS
                    /\ key_of (fst x) = symbol_key (next_node_id_ st)))
  /\ symbol_key (next_node_id_ st') = symbol_key (next_node_id_ st).
Proof.
  unfold detectObjects. intros E. run_body E.
  destruct (getConnectedComponents_spec _ _ _ _ _ Ea) as [_ Hf].
  apply (detect_loop_detail _ _ a g st g _ g' st' E).
  - intros group x Hg Hx. rewrite Forall_forall in Hf.
    pose proof (Hf group Hg x Hx) as Ha. apply isNodeActive_true in Ha.
    now destruct Ha.
  - cbn. split; [apply incl_refl|]. split; [auto|].
    split; [apply incl_refl|]. split; [now left|reflexivity].
Qed.

(** The segments a run of [detectObjects] adds to the map were eligible on
    entry. *)
Lemma detectObjects_new_keys g st g' st' :
  detectObjects ext config g st = Ok (g', st') ->
  forall k, In k (map fst (node_to_component_ st')) ->
  In k (map fst (node_to_component_ st))
  \/ (~ In k (map fst (node_to_component_ st)) /\ ~ In k (ignored_ st)).
Proof.
  unfold detectObjects. intros E. run_body E.
  destruct (getConnectedComponents_spec _ _ _ _ _ Ea) as [_ Hf].
  rewrite Forall_forall in Hf.
  refine (for_each_preserves
            (fun acc : DynamicSceneGraph * State =>
               forall k, In k (map fst (node_to_component_ (snd acc))) ->
                 In k (map fst (node_to_component_ st))
                 \/ (~ In k (map fst (node_to_component_ st))
                     /\ ~ In k (ignored_ st))) _ _ _ _ (g', st') _ E).
  - intros [g1 s1] x [g2 s2] Hin H Es k0 Hk0. cbn [snd] in *.
    destruct (component_step_effect ext config _ _ g1 s1 x g2 s2 Es) as (_ & Hkeys & _).
    apply Hkeys in Hk0. destruct Hk0 as [Hk0|Hk0]; [|now apply H].
    right. apply isNodeActive_true. exact (Hf x Hin k0 Hk0).
  - cbn. intros k0 Hk0. now left.
Qed.

End Detection.

(** X19.  [detectObjects] disturbs nothing that is settled.  Every component
    of the registry stays, every clustered segment keeps its component, and
    the ignored set is unchanged; a segment that becomes clustered was
    neither clustered nor ignored on entry.  No node leaves the graph or
    changes its layer, and every node that is added is an object node whose
    id carries the key of the functor's id sequence. *)
Theorem detection_disturbs_nothing_settled :
  forall ext config g st g' st',
    detectObjects ext config g st = Ok (g', st') ->
    incl (components_ st) (components_ st')
    /\ (forall k c, map_find k (node_to_component_ st) = Some c ->
                    map_find k (node_to_component_ st') = Some c)
    /\ ignored_ st' = ignored_ st
    /\ (forall k, In k (map fst (node_to_component_ st')) ->
                  In k (map fst (node_to_component_ st))
                  \/ (~ In k (map fst (node_to_component_ st))
                      /\ ~ In k (ignored_ st)))
    /\ incl (shape g) (shape g')
    /\ (forall x, In x (shape g') ->
                  In x (shape g)
                  \/ (snd x = OBJECTS
                      /\ key_of (fst x) = symbol_key (next_node_id_ st))).
Proof.
  intros ext config g st g' st' E.
  destruct (detectObjects_detail ext config g st g' st' E)
    as (Hc & Hm & Hsub & Hnew & _).
  split; [exact Hc|]. split; [exact Hm|].
  split; [exact (detectObjects_ignored ext config g st g' st' E)|].
  split; [exact (detectObjects_new_keys ext config g st g' st' E)|].
  split; [exact Hsub|exact Hnew].
Qed.

Lemma detection_disturbs_nothing_settled_witness :
  incl (components_ (snd Episodes.retired2)) (components_ (snd Scenario.after2))
  /\ (forall k c,
         map_find k (node_to_component_ (snd Episodes.retired2)) = Some c ->
         map_find k (node_to_component_ (snd Scenario.after2)) = Some c)
  /\ ignored_ (snd Scenario.after2) = ignored_ (snd Episodes.retired2)
  /\ (forall k, In k (map fst (node_to_component_ (snd Scenario.after2))) ->
                In k (map fst (node_to_component_ (snd Episodes.retired2)))
                \/ (~ In k (map fst (node_to_component_ (snd Episodes.retired2)))
                    /\ ~ In k (ignored_ (snd Episodes.retired2))))
  /\ incl (shape (fst Episodes.retired2)) (shape (fst Scenario.after2))
  /\ (forall x, In x (shape (fst Scenario.after2)) ->
                In x (shape (fst Episodes.retired2))
                \/ (snd x = OBJECTS
                    /\ key_of (fst x)
                       = symbol_key (next_node_id_ (snd Episodes.retired2)))).
Proof.
  apply (detection_disturbs_nothing_settled Scenario.ext Scenario.config
           (fst Episodes.retired2) (snd Episodes.retired2)
           (fst Scenario.after2) (snd Scenario.after2)).
  vm_compute. reflexivity.
Defined.

(** ** Whole cycles *)

Lemma insertEdge_origin source target g n' :
  In n' (graph_nodes (insertEdge source target g)) ->
  exists n, In n (graph_nodes g) /\ node_id n' = node_id n
            /\ node_layer n' = node_layer n
            /\ node_attributes n' = node_attributes n.
Proof.
  intros Hin.
  destruct (insertEdge_nodes source target g) as [E|(c & p & E & _)];
    rewrite E in Hin.
  - exists n'. auto.
  - apply in_map_iff in Hin. destruct Hin as (n & <- & Hn). exists n.
    split; [exact Hn|]. split; [apply set_parent_id|].
    split; [apply set_parent_layer|apply set_parent_attributes].
Qed.

(** The attachment phase changes parents only: every node it returns is a
    node it was given, with the same id, layer and attributes. *)
Lemma updateActiveParents_origin config g st g' st' :
  updateActiveParents config g st = Ok (g', st') ->
  forall n', In n' (graph_nodes g') ->
    exists n, In n (graph_nodes g) /\ node_id n' = node_id n
              /\ node_layer n' = node_layer n
              /\ node_attributes n' = node_attributes n.
Proof.
  unfold updateActiveParents. intros E.
  refine (for_each_preserves
            (fun acc : DynamicSceneGraph * State =>
               forall n', In n' (graph_nodes (fst acc)) ->
                 exists n, In n (graph_nodes g) /\ node_id n' = node_id n
                           /\ node_layer n' = node_layer n
                           /\ node_attributes n' = node_attributes n)
            _ _ _ _ (g', st') _ E).
  - intros [g1 s1] x [g2 s2] _ H Es. cbn [fst] in *.
    unfold attach_step in Es. run_body Es; try exact H.
    intros n' Hin.
    destruct (insertEdge_origin _ _ _ _ Hin) as (m & Hm & Hi & Hl & Ha).
    destruct (H m Hm) as (n & Hn & Hi' & Hl' & Ha'). exists n.
    split; [exact Hn|]. split; [congruence|]. split; congruence.
  - cbn. intros n' Hin. exists n'. auto.
Qed.

Lemma call_settled ext config g st :
  (forall node, In node (getLayer SEGMENTS g) ->
     (exists k, node_attributes node = KhronosAttributes k)
     /\ (In (node_id node) (ignored_ st)
         \/ In (node_id node) (map fst (node_to_component_ st)))) ->
  call ext config g st
  = bind (updateActiveParents config g st)
         (fun r => Ok (fst r, record (GroupsDiscovered []) (snd r))).
Proof.
  intros H. unfold call.
  destruct (updateActiveParents config g st) as [[g1 s1]|] eqn:E1; [|reflexivity].
  cbn [bind fst snd].
  destruct (updateActiveParents_registry config g st g1 s1 E1) as (_ & Rm & Ri).
  assert (H1 : forall node, In node (getLayer SEGMENTS g1) ->
             (exists k, node_attributes node = KhronosAttributes k)
             /\ (In (node_id node) (ignored_ s1)
                 \/ In (node_id node) (map fst (node_to_component_ s1)))).
  { intros node Hin. unfold getLayer in Hin. apply filter_In in Hin.
    destruct Hin as [Hin Hl].
    destruct (updateActiveParents_origin config g st g1 s1 E1 node Hin)
      as (n & Hn & Hi & Hl' & Ha).
    assert (Hseg : In n (getLayer SEGMENTS g)).
    { unfold getLayer. apply filter_In. split; [exact Hn|]. now rewrite <- Hl'. }
    destruct (H n Hseg) as [Hk Hold]. rewrite Ha, Hi, Ri, Rm. now split. }
  rewrite (addSegmentEdges_settled ext config g1 s1 H1). cbn [bind].
  rewrite (clearActiveComponents_untouched g1 [] s1) by (intros c info _ []).
  apply detectObjects_settled. intros node Hin. now destruct (H1 node Hin).
Qed.

(** X20.  A cycle on a graph whose segments are all ignored or clustered
    does what its attachment phase does and nothing else: it returns what
    [updateActiveParents] returns, with an empty discovery recorded, and it
    aborts exactly when [updateActiveParents] does.  No edge is added, no
    component is retired or created, and no identifier is drawn. *)
Theorem settled_cycle_only_attaches :
  forall ext config g st,
    (forall node, In node (getLayer SEGMENTS g) ->
       (exists k, node_attributes node = KhronosAttributes k)
       /\ (In (node_id node) (ignored_ st)
           \/ In (node_id node) (map fst (node_to_component_ st)))) ->
    call ext config g st
    = bind (updateActiveParents config g st)
           (fun r => Ok (fst r, record (GroupsDiscovered []) (snd r))).
Proof. exact call_settled. Qed.

Lemma settled_cycle_only_attaches_witness :
  call Scenario.ext Scenario.config (fst Scenario.after2) (snd Scenario.after2)
  = bind (updateActiveParents Scenario.config (fst Scenario.after2)
                              (snd Scenario.after2))
         (fun r => Ok (fst r, record (GroupsDiscovered []) (snd r))).
Proof.
  apply (settled_cycle_only_attaches Scenario.ext Scenario.config
           (fst Scenario.after2) (snd Scenario.after2)).
  intros node Hin. vm_compute in Hin.
  destruct Hin as [<-|[<-|[<-|[]]]]; (split; [eexists; reflexivity|]);
    vm_compute; tauto.
Defined.

Section Cycles.

Variable ext : Collaborators.
Variable config : Config.

(** What a cycle does to the nodes of the graph and to the id sequence. *)
Lemma call_nodes g st g' st' :
  call ext config g st = Ok (g', st') ->
  (forall x, In x (shape g') ->
             In x (shape g)
             \/ (snd x = OBJECTS /\ key_of (fst x) = symbol_key (next_node_id_ st)))
  /\ symbol_key (next_node_id_ st') = symbol_key (next_node_id_ st).
Proof.
  intros E. unfold call in E.
  destruct (updateActiveParents config g st) as [[g1 s1]|] eqn:E1;
    [|discriminate E]. cbn [bind] in E.
  destruct (addSegmentEdges ext config g1 s1) as [[[g2 s2] touched]|] eqn:E2;
    [|discriminate E]. cbn [bind] in E.
  destruct (clearActiveComponents g2 touched s2) as [g3 s3] eqn:E3.
  destruct (updateActiveParents_frame config g st g1 s1 E1) as (S1 & N1 & _).
  destruct (addSegmentEdges_frame ext config g1 s1 g2 s2 touched E2) as (S2 & N2 & _).
  pose proof (clearActiveComponents_frame g2 touched s2) as F3.
  rewrite E3 in F3. destruct F3 as (S3 & N3 & _). cbn [fst snd] in S3, N3.
  destruct (detectObjects_detail ext config g3 s3 g' st' E)
    as (_ & _ & _ & Hnew & Hkey).
  split.
  - intros x Hx. destruct (Hnew x Hx) as [Hold|[Hl Hk]].
    + left. rewrite <- S1, <- S2. now apply S3.
    + right. split; [exact Hl|]. congruence.
  - congruence.
Qed.

Lemma reachable_key st :
  reachable ext config st -> symbol_key (next_node_id_ st) = prefix config.
Proof.
  induction 1 as [|g st g' st' _ IH E]; [reflexivity|].
  destruct (call_nodes g st g' st' E) as [_ Hk]. congruence.
Qed.

End Cycles.

(** X21.  In every cycle of a run that starts from the constructed functor,
    the nodes of the returned graph are nodes of the graph handed in, with
    their layers, or object nodes whose id carries the configured prefix:
    the functor adds nothing to the segment and place layers and names its
    objects under its own prefix only. *)
Theorem cycle_adds_only_prefixed_objects :
  forall ext config g st g' st',
    reachable ext config st ->
    call ext config g st = Ok (g', st') ->
    forall id layer,
      In (id, layer) (shape g') ->
      In (id, layer) (shape g) \/ (layer = OBJECTS /\ key_of id = prefix config).
Proof.
  intros ext config g st g' st' Hr E id layer Hin.
  destruct (call_nodes ext config g st g' st' E) as [Hnew _].
  destruct (Hnew (id, layer) Hin) as [Hold|[Hl Hk]]; [now left|].
  right. cbn [fst snd] in *. split; [exact Hl|].
  rewrite Hk. exact (reachable_key ext config st Hr).
Qed.

Lemma cycle_adds_only_prefixed_objects_witness :
  In (Scenario.object2, OBJECTS) (shape Scenario.graph2)
  \/ (OBJECTS = OBJECTS /\ key_of Scenario.object2 = prefix Scenario.config).
Proof.
  apply (cycle_adds_only_prefixed_objects Scenario.ext Scenario.config
           Scenario.graph2 (snd Scenario.after1)
           (fst Scenario.after2) (snd Scenario.after2)
           scenario_reachable1 scenario_cycle2 Scenario.object2 OBJECTS).
  vm_compute. tauto.
Defined.

(** ** The identifier pool and the registry across a cycle *)

Lemma NoDup_map_filter {V : Type} (f : Z * V -> bool) (m : list (Z * V)) :
  NoDup (map fst m) -> NoDup (map fst (filter f m)).
Proof.
  induction m as [|e r IH]; intros H; simpl; [constructor|].
  inversion H as [|? ? Hn Hr]; subst.
  destruct (f e); [|now apply IH]. simpl. constructor; [|now apply IH].
  intros Hin. apply Hn. apply in_map_iff in Hin.
  destruct Hin as (x & Ex & Hx). apply filter_In in Hx.
  apply in_map_iff. exists x. now split.
Qed.

Lemma NoDup_map_fst_inj {V : Type} (m : list (Z * V)) c a b :
  NoDup (map fst m) -> In (c, a) m -> In (c, b) m -> a = b.
Proof.
  induction m as [|e r IH]; intros H Ha Hb; [destruct Ha|].
  inversion H as [|? ? Hn Hr]; subst.
  destruct Ha as [Ha|Ha], Hb as [Hb|Hb].
  - congruence.
  - exfalso. apply Hn. subst e. apply in_map_iff. now exists (c, b).
  - exfalso. apply Hn. subst e. apply in_map_iff. now exists (c, a).
  - now apply IH.
Qed.

Lemma map_find_emplace_fresh {V : Type} k (v : V) (m : list (Z * V)) :
  ~ In k (map fst m) -> map_find k (map_emplace k v m) = Some v.
Proof.
  unfold map_find. induction m as [|e r IH]; intros Hn; simpl.
  - now rewrite Z.eqb_refl.
  - destruct (k <? fst e); simpl; [now rewrite Z.eqb_refl|].
    destruct (k =? fst e) eqn:E.
    + exfalso. apply Hn. left. apply Z.eqb_eq in E. now symmetry.
    + simpl. rewrite Z.eqb_sym, E. apply IH. intros Hin. apply Hn. now right.
Qed.

Lemma map_emplace_NoDup {V : Type} k (v : V) (m : list (Z * V)) :
  ~ In k (map fst m) -> NoDup (map fst m) -> NoDup (map fst (map_emplace k v m)).
Proof.
  induction m as [|e r IH]; intros Hn H; simpl.
  - constructor; [intros []|constructor].
  - destruct (k <? fst e); [now constructor|].
    destruct (k =? fst e) eqn:E; [exact H|].
    inversion H as [|? ? Hne Hr]; subst. simpl. constructor.
    + intros Hin. apply map_emplace_keys in Hin. destruct Hin as [Hin|Hin].
      * apply Z.eqb_neq in E. congruence.
      * contradiction.
    + apply IH; [|exact Hr]. intros Hin. apply Hn. now right.
Qed.

Lemma map_find_assign_member {V : Type} (v : V) nodes : forall (m : list (Z * V)) k,
  In k nodes ->
  map_find k (fold_left (fun m n => map_assign n v m) nodes m) = Some v.
Proof.
  induction nodes as [|n r IH]; intros m k Hin; [destruct Hin|]. simpl.
  destruct (in_dec Z.eq_dec k r) as [Hr|Hr]; [now apply IH|].
  destruct Hin as [->|Hin]; [|contradiction].
  rewrite map_find_assign_all by exact Hr.
  unfold map_assign. apply map_find_emplace_fresh.
  intros H. apply map_erase_keys in H. now destruct H.
Qed.

Lemma map_find_erase_all {V : Type} segs : forall (m : list (Z * V)) k c,
  map_find k (fold_left (fun m x => map_erase x m) segs m) = Some c ->
  map_find k m = Some c /\ ~ In k segs.
Proof.
  induction segs as [|s r IH]; intros m k c H; simpl in H; [now split|].
  destruct (IH _ _ _ H) as [Hf Hn].
  assert (Hne : k <> s).
  { intros ->. apply map_find_In in Hf.
    apply map_erase_In in Hf. cbn in Hf. now destruct Hf. }
  rewrite map_find_erase_other in Hf by exact Hne.
  split; [exact Hf|]. intros [Heq|Hin]; [congruence|contradiction].
Qed.

(** Releasing an id in use. *)
Lemma pool_ok_release c ids live live' :
  pool_ok ids live -> In c live ->
  (forall k, In k live' <-> In k live /\ k <> c) -> NoDup live' ->
  pool_ok (IdTracker.markFree c ids) live'.
Proof.
  intros (H0 & Hu & Hl & Hd & Hb) Hc Hkeys Hnd.
  assert (Hlt : c < IdTracker.idx_ ids) by (apply Hb; now right).
  unfold IdTracker.markFree. apply Z.ltb_lt in Hlt. rewrite Hlt.
  unfold pool_ok. cbn [IdTracker.idx_ IdTracker.unused_].
  split; [exact H0|]. split; [|split; [exact Hnd|split]].
  - apply NoDup_app; [exact Hu|constructor; [intros []|constructor]|].
    intros a Ha [Heq|[]]. subst a. exact (Hd c Ha Hc).
  - intros x Hx Hx'. apply Hkeys in Hx'. destruct Hx' as [Hx' Hne].
    apply in_app_or in Hx. destruct Hx as [Hx|[Hx|[]]];
      [exact (Hd x Hx Hx')|congruence].
  - intros i [Hi|Hi].
    + apply in_app_or in Hi. destruct Hi as [Hi|[<-|[]]];
        [apply Hb; now left|now apply Z.ltb_lt].
    + apply Hkeys in Hi. apply Hb. right. now destruct Hi.
Qed.

(** The id [next] hands out is not in use. *)
Lemma pool_ok_fresh ids live :
  pool_ok ids live -> ~ In (fst (IdTracker.next ids)) live.
Proof.
  intros (H0 & Hu & Hl & Hd & Hb). unfold IdTracker.next.
  destruct (IdTracker.unused_ ids) as [|y q] eqn:Eu; cbn [fst].
  - intros Hin. specialize (Hb _ (or_intror Hin)). lia.
  - apply Hd. now left.
Qed.

(** Taking an id into use. *)
Lemma pool_ok_take ids live live' :
  pool_ok ids live -> IdTracker.idx_ ids + 1 < SIZE_MODULUS ->
  (forall k, In k live' <-> k = fst (IdTracker.next ids) \/ In k live) ->
  NoDup live' ->
  pool_ok (snd (IdTracker.next ids)) live'
  /\ IdTracker.idx_ (snd (IdTracker.next ids)) <= IdTracker.idx_ ids + 1.
Proof.
  intros (H0 & Hu & Hl & Hd & Hb) Hw Hkeys Hnd. unfold IdTracker.next in *.
  destruct (IdTracker.unused_ ids) as [|y q] eqn:Eu; cbn [fst snd] in *.
  - rewrite (IdTrackerFacts.size_succ_small _ H0 Hw). split; [|cbn; lia].
    unfold pool_ok. cbn [IdTracker.idx_ IdTracker.unused_].
    split; [lia|]. split; [constructor|]. split; [exact Hnd|]. split.
    + intros x [].
    + intros i [[]|Hi]. apply Hkeys in Hi. destruct Hi as [->|Hi]; [lia|].
      specialize (Hb i (or_intror Hi)). lia.
  - split; [|cbn; lia]. inversion Hu as [|? ? Hy Hq]; subst.
    unfold pool_ok. cbn [IdTracker.idx_ IdTracker.unused_].
    split; [exact H0|]. split; [exact Hq|]. split; [exact Hnd|]. split.
    + intros x Hx Hx'. apply Hkeys in Hx'. destruct Hx' as [->|Hx'];
        [contradiction|]. apply (Hd x); [now right|exact Hx'].
    + intros i [Hi|Hi]; [apply Hb; left; now right|].
      apply Hkeys in Hi. destruct Hi as [->|Hi]; apply Hb; [left; now left|now right].
Qed.

Lemma components_from_length node_filter edge_filter edges fuel nodes :
  forall visited groups,
    components_from node_filter edge_filter edges fuel nodes visited = Ok groups ->
    (length groups <= length nodes)%nat.
Proof.
  induction nodes as [|n rest IH]; intros visited groups E; simpl in E.
  - inversion E. simpl. lia.
  - destruct (set_count n visited || negb (node_filter n)).
    + specialize (IH _ _ E). simpl. lia.
    + destruct (breadthFirstSearch _ _ _ fuel [n] (n :: visited) [])
        as [[visited' component]|]; [|discriminate E]. cbn [bind] in E.
      destruct (components_from _ _ _ fuel rest visited') as [others|] eqn:Eo;
        [|discriminate E]. cbn [bind] in E. inversion E; subst.
      specialize (IH _ _ Eo). simpl. lia.
Qed.

Lemma getLayer_length layer g :
  length (getLayer layer g)
  = length (filter (fun x : NodeId * LayerId => layer_eqb (snd x) layer) (shape g)).
Proof.
  unfold getLayer, shape. induction (graph_nodes g) as [|n r IH]; [reflexivity|].
  simpl. destruct (layer_eqb (node_layer n) layer); simpl; congruence.
Qed.

Lemma removeNode_layer_length layer id g :
  (length (getLayer layer (removeNode id g)) <= length (getLayer layer g))%nat.
Proof.
  unfold getLayer, removeNode; cbn [graph_nodes].
  induction (graph_nodes g) as [|n r IH]; [simpl; lia|]. simpl.
  assert (Hl : node_layer (drop_parent id n) = node_layer n).
  { unfold drop_parent. destruct (node_parent n) as [p|]; [|reflexivity].
    now destruct (p =? id). }
  destruct (node_id n =? id); simpl.
  - destruct (layer_eqb (node_layer n) layer); simpl; lia.
  - rewrite Hl. destruct (layer_eqb (node_layer n) layer); simpl; lia.
Qed.

Lemma clearActiveComponents_layer_length layer g active st :
  (length (getLayer layer (fst (clearActiveComponents g active st)))
   <= length (getLayer layer g))%nat.
Proof.
  unfold clearActiveComponents.
  apply (fold_left_preserves
           (fun acc : DynamicSceneGraph * State =>
              (length (getLayer layer (fst acc)) <= length (getLayer layer g))%nat));
    [|cbn; lia].
  intros [g1 s1] [c info] _ H. unfold clear_step. cbn [fst] in *.
  destruct (set_count c active); [|exact H]. unfold retire.
  assert (Hobj : forall objs acc,
             (length (getLayer layer (fst acc)) <= length (getLayer layer g))%nat ->
             (length (getLayer layer (fst (fold_left remove_object objs acc)))
              <= length (getLayer layer g))%nat).
  { intros objs acc.
    apply (fold_left_preserves
             (fun a : DynamicSceneGraph * State =>
                (length (getLayer layer (fst a)) <= length (getLayer layer g))%nat)).
    intros [g2 s2] o _ H2. unfold remove_object. cbn [fst] in *.
    pose proof (removeNode_layer_length layer o g2). lia. }
  specialize (Hobj (objects info)
                (g1, with_node_to_component_
                       (fold_left (fun m s => map_erase s m) (segments info)
                                  (node_to_component_ s1)) s1) H).
  destruct (fold_left remove_object (objects info) _) as [g2 s2]. exact Hobj.
Qed.

Lemma markFree_all_counter ids : forall s,
  IdTracker.idx_ (IdTracker.markFree_all ids s) = IdTracker.idx_ s.
Proof.
  unfold IdTracker.markFree_all.
  induction ids as [|i r IH]; intros s; simpl; [reflexivity|].
  rewrite IH. unfold IdTracker.markFree.
  now destruct (i <? IdTracker.idx_ s).
Qed.

Lemma retired_ids_counter g active st :
  IdTracker.idx_ (components_ids_ (snd (clearActiveComponents g active st)))
  = IdTracker.idx_ (components_ids_ st).
Proof.
  unfold clearActiveComponents.
  rewrite (proj1 (proj2 (proj2 (clear_loop_graph active (components_ st) g st)))).
  apply markFree_all_counter.
Qed.

Section PoolAndRegistry.

Variable ext : Collaborators.
Variable config : Config.

Lemma clear_loop_pool active l : forall g s,
  pool_invariant s ->
  NoDup (map fst l) -> incl l (components_ s) ->
  pool_invariant (snd (fold_left (clear_step active) l (g, s)))
  /\ (registry_consistent s ->
      registry_consistent (snd (fold_left (clear_step active) l (g, s)))).
Proof.
  induction l as [|[c info] rest IH]; intros g s Hp Hnd Hincl;
    cbn [fold_left]; [now split|].
  inversion Hnd as [|? ? Hc Hrest]; subst.
  replace (clear_step active (g, s) (c, info))
    with (if set_count c active then retire (g, s) (c, info) else (g, s))
    by reflexivity.
  destruct (set_count c active).
  - destruct (retire_effect g s c info) as (Rc & Rm & _).
    destruct (retire_graph_effect g s c info) as (_ & _ & Ri).
    destruct (retire (g, s) (c, info)) as [g1 s1]. cbn [fst snd] in *.
    assert (Hin : In (c, info) (components_ s)) by (apply Hincl; now left).
    assert (Hp1 : pool_invariant s1).
    { unfold pool_invariant. rewrite Ri, Rc.
      apply (pool_ok_release c _ (map fst (components_ s))); [exact Hp| | |].
      - apply in_map_iff. now exists (c, info).
      - intros k. apply map_erase_keys.
      - apply NoDup_map_filter. now destruct Hp as (_ & _ & Hl & _). }
    assert (Hincl1 : incl rest (components_ s1)).
    { intros e He. rewrite Rc. apply map_erase_In.
      split; [apply Hincl; now right|].
      intros Heq. apply Hc. apply in_map_iff. now exists e. }
    destruct (IH g1 s1 Hp1 Hrest Hincl1) as [Hp' Hr'].
    split; [exact Hp'|]. intros Hr. apply Hr'.
    intros k c' Hf. rewrite Rm in Hf.
    apply map_find_erase_all in Hf. destruct Hf as [Hf Hn].
    destruct (Hr k c' Hf) as (info' & Hin' & Hk).
    exists info'. split; [|exact Hk]. rewrite Rc. apply map_erase_In.
    split; [exact Hin'|]. cbn [fst]. intros ->. apply Hn.
    destruct Hp as (_ & _ & Hl & _).
    now rewrite <- (NoDup_map_fst_inj _ c info' info Hl Hin' Hin).
  - apply IH; [exact Hp|exact Hrest|].
    intros e He. apply Hincl. now right.
Qed.

Lemma clearActiveComponents_pool g active st :
  pool_invariant st ->
  pool_invariant (snd (clearActiveComponents g active st))
  /\ (registry_consistent st ->
      registry_consistent (snd (clearActiveComponents g active st))).
Proof.
  intros Hp. unfold clearActiveComponents.
  apply clear_loop_pool; [exact Hp| |apply incl_refl].
  now destruct Hp as (_ & _ & Hl & _).
Qed.

(** One new component: the id it draws and the entry it files. *)
Lemma component_step_pool layer I g s nodes g' s' :
  component_step ext config layer I (g, s) nodes = Ok (g', s') ->
  components_ids_ s' = snd (IdTracker.next (components_ids_ s))
  /\ exists info,
       segments info = nodes
       /\ components_ s'
          = map_emplace (fst (IdTracker.next (components_ids_ s))) info (components_ s).
Proof.
  intros E. unfold component_step in E.
  destruct (IdTracker.next (components_ids_ s)) as [new_id ids]. cbn [fst snd].
  run_body E.
  apply (for_each_preserves
           (fun acc : DynamicSceneGraph * State * list Z =>
              components_ (snd (fst acc)) = components_ s
              /\ components_ids_ (snd (fst acc)) = ids) _ _) in Ea.
  - cbn [fst snd] in Ea. destruct Ea as (Hc & Hi). split; [exact Hi|].
    exists {| segments := nodes; objects := l;
              clusters := clusterAgglomerative ext layer nodes I |}.
    split; [reflexivity|]. cbn. now rewrite Hc.
  - intros a x a' _ (Hc & Hi) Em.
    destruct (materialize_registry ext config a x a' Em) as [(Rc & _ & _) Ri].
    split; congruence.
  - cbn. split; reflexivity.
Qed.

Lemma detect_loop_pool layer I groups : forall g s g' s',
  for_each (component_step ext config layer I) groups (g, s) = Ok (g', s') ->
  pool_invariant s ->
  IdTracker.idx_ (components_ids_ s) + Z.of_nat (length groups) < SIZE_MODULUS ->
  pool_invariant s' /\ (registry_consistent s -> registry_consistent s').
Proof.
  induction groups as [|nodes rest IH]; intros g s g' s' E Hp Hw;
    cbn [for_each] in E.
  - inversion E; subst. now split.
  - destruct (component_step ext config layer I (g, s) nodes) as [[g1 s1]|] eqn:E1;
      [|discriminate E]. cbn [bind] in E.
    change (length (nodes :: rest)) with (S (length rest)) in Hw.
    destruct (component_step_pool layer I g s nodes g1 s1 E1)
      as (Hi & info & Hseg & Hc).
    destruct (component_step_detail ext config layer I g s nodes g1 s1 E1)
      as (Hm & _).
    pose proof (pool_ok_fresh _ _ Hp) as Hfresh.
    assert (Hnd : NoDup (map fst (components_ s1))).
    { rewrite Hc. apply map_emplace_NoDup; [exact Hfresh|].
      now destruct Hp as (_ & _ & Hl & _). }
    destruct (pool_ok_take (components_ids_ s) (map fst (components_ s))
                (map fst (components_ s1)) Hp ltac:(lia)
                ltac:(intros k; rewrite Hc; apply map_emplace_keys) Hnd)
      as [Hp1 Hidx].
    assert (Hp1' : pool_invariant s1) by (unfold pool_invariant; now rewrite Hi).
    destruct (IH g1 s1 g' s' E Hp1' ltac:(rewrite Hi; lia)) as [Hp' Hr'].
    split; [exact Hp'|]. intros Hr. apply Hr'.
    intros k c Hf. rewrite Hm in Hf.
    destruct (in_dec Z.eq_dec k nodes) as [Hin|Hn].
    + rewrite map_find_assign_member in Hf by exact Hin.
      inversion Hf; subst c. exists info. split; [|now rewrite Hseg].
      rewrite Hc. apply map_find_In. now apply map_find_emplace_fresh.
    + rewrite map_find_assign_all in Hf by exact Hn.
      destruct (Hr k c Hf) as (info' & Hin' & Hk). exists info'.
      split; [|exact Hk]. rewrite Hc. now apply map_emplace_incl.
Qed.

Lemma detectObjects_pool g st g' st' :
  detectObjects ext config g st = Ok (g', st') ->
  pool_invariant st ->
  IdTracker.idx_ (components_ids_ st) + Z.of_nat (length (getLayer SEGMENTS g))
  < SIZE_MODULUS ->
  pool_invariant st' /\ (registry_consistent st -> registry_consistent st').
Proof.
  unfold detectObjects. intros E Hp Hw. run_body E.
  pose proof (components_from_length _ _ _ _ _ _ _ Ea) as Hlen.
  rewrite length_map in Hlen.
  apply (detect_loop_pool _ _ a g _ g' st' E); [exact Hp|].
  cbn [components_ids_ record]. lia.
Qed.

Lemma updateActiveParents_ids g st g' st' :
  updateActiveParents config g st = Ok (g', st') ->
  components_ids_ st' = components_ids_ st.
Proof.
  unfold updateActiveParents. intros E.
  apply (for_each_preserves
           (fun acc : DynamicSceneGraph * State =>
              components_ids_ (snd acc) = components_ids_ st) _ _) in E;
    [exact E| |reflexivity].
  intros [g1 s1] x [g2 s2] _ H Es. cbn [snd] in *.
  unfold attach_step in Es. run_body Es; try exact H.
  destruct (_ && _); exact H.
Qed.

Lemma call_pool g st g' st' :
  call ext config g st = Ok (g', st') ->
  pool_invariant st ->
  IdTracker.idx_ (components_ids_ st) + Z.of_nat (length (getLayer SEGMENTS g))
  < SIZE_MODULUS ->
  pool_invariant st' /\ (registry_consistent st -> registry_consistent st').
Proof.
  intros E Hp Hw. unfold call in E.
  destruct (updateActiveParents config g st) as [[g1 s1]|] eqn:E1;
    [|discriminate E]. cbn [bind] in E.
  destruct (addSegmentEdges ext config g1 s1) as [[[g2 s2] touched]|] eqn:E2;
    [|discriminate E]. cbn [bind] in E.
  destruct (clearActiveComponents g2 touched s2) as [g3 s3] eqn:E3.
  destruct (updateActiveParents_registry config g st g1 s1 E1) as (C1 & M1 & _).
  pose proof (updateActiveParents_ids g st g1 s1 E1) as I1.
  destruct (updateActiveParents_frame config g st g1 s1 E1) as (S1 & _).
  destruct (addSegmentEdges_keeps ext config g1 s1 g2 s2 touched E2)
    as (C2 & M2 & I2 & _). cbn [fst snd] in C2, M2, I2.
  destruct (addSegmentEdges_frame ext config g1 s1 g2 s2 touched E2) as (S2 & _).
  assert (Hp2 : pool_invariant s2).
  { unfold pool_invariant. now rewrite I2, C2, I1, C1. }
  destruct (clearActiveComponents_pool g2 touched s2 Hp2) as [Hp3 Hr3].
  pose proof (retired_ids_counter g2 touched s2) as I3.
  pose proof (clearActiveComponents_layer_length SEGMENTS g2 touched s2) as L3.
  rewrite E3 in Hp3, Hr3, I3, L3. cbn [fst snd] in *.
  assert (Hw3 : IdTracker.idx_ (components_ids_ s3)
                + Z.of_nat (length (getLayer SEGMENTS g3)) < SIZE_MODULUS).
  { rewrite I3, I2, I1.
    rewrite (getLayer_length SEGMENTS g2), S2, S1,
      <- (getLayer_length SEGMENTS g) in L3.
    lia. }
  destruct (detectObjects_pool g3 s3 g' st' E Hp3 Hw3) as [Hp' Hr'].
  split; [exact Hp'|]. intros Hr. apply Hr', Hr3.
  unfold registry_consistent. rewrite M2, C2, M1, C1. exact Hr.
Qed.

End PoolAndRegistry.

(** X22.  The ids of live components never collide.  If on entry no id is
    twice in the free list or twice in the registry, none is in both, and all
    lie below the counter, then the same holds after a cycle, provided the
    counter cannot wrap: the counter plus the number of segments of the graph
    stays below 2^64. *)
Theorem component_ids_never_collide :
  forall ext config g st g' st',
    pool_invariant st ->
    IdTracker.idx_ (components_ids_ st) + Z.of_nat (length (getLayer SEGMENTS g))
    < SIZE_MODULUS ->
    call ext config g st = Ok (g', st') ->
    pool_invariant st'.
Proof.
  intros ext config g st g' st' Hp Hw E.
  exact (proj1 (call_pool ext config g st g' st' E Hp Hw)).
Qed.

Lemma scenario_pool1 : pool_invariant (snd Scenario.after1).
Proof.
  unfold pool_invariant, pool_ok. cbn.
  split; [lia|]. split; [constructor|].
  split; [constructor; [intros []|constructor]|].
  split; [intros x []|]. intros i [[]|[<-|[]]]. lia.
Qed.

Lemma scenario_registry1 : registry_consistent (snd Scenario.after1).
Proof.
  intros k c H. apply map_find_In in H. cbn in H.
  destruct H as [H|[]]. inversion H; subst k c.
  eexists. split; [left; reflexivity|]. cbn. now left.
Qed.

Lemma component_ids_never_collide_witness :
  pool_invariant (snd Scenario.after2).
Proof.
  apply (component_ids_never_collide Scenario.ext Scenario.config
           Scenario.graph2 (snd Scenario.after1)
           (fst Scenario.after2) (snd Scenario.after2) scenario_pool1).
  - vm_compute. reflexivity.
  - exact scenario_cycle2.
Defined.

(** X23.  A cycle keeps the map of clustered segments consistent with the
    registry: if on entry the pool and the registry agree as above, the
    counter cannot wrap, and every segment the map sends to a component id
    has a live component under that id which lists the segment, then the
    same holds for the map and the registry after the cycle. *)
Theorem clustered_segment_has_live_component :
  forall ext config g st g' st',
    pool_invariant st ->
    registry_consistent st ->
    IdTracker.idx_ (components_ids_ st) + Z.of_nat (length (getLayer SEGMENTS g))
    < SIZE_MODULUS ->
    call ext config g st = Ok (g', st') ->
    forall k c, map_find k (node_to_component_ st') = Some c ->
      exists info, In (c, info) (components_ st') /\ In k (segments info).
Proof.
  intros ext config g st g' st' Hp Hr Hw E.
  exact (proj2 (call_pool ext config g st g' st' E Hp Hw) Hr).
Qed.

Lemma clustered_segment_has_live_component_witness :
  exists info, In (1, info) (components_ (snd Scenario.after2))
               /\ In 4 (segments info).
Proof.
  apply (clustered_segment_has_live_component Scenario.ext Scenario.config
           Scenario.graph2 (snd Scenario.after1)
           (fst Scenario.after2) (snd Scenario.after2)
           scenario_pool1 scenario_registry1 ltac:(vm_compute; reflexivity)
           scenario_cycle2 4 1).
  vm_compute. reflexivity.
Defined.
